(** * ReStudy: the local data and media persistence layer

    A shallow embedding of [src/contexts/DataContext.tsx] (the reducer
    [appReducer], the collaborator-facing action creators of [DataProvider],
    the persistence effect), of the blob store [services/imageStore]
    (src/unnamed/part_006), of the upload dedup path [handleFiles]
    (src/screens/ExamDetailScreen.tsx) with [calculateHash]
    (src/unnamed/part_005), and of the import validation [handleFileImport]
    (src/screens/HomeScreen.tsx). *)

From stdpp Require Import base list gmap strings.
From Stdlib Require Import String Ascii.

Open Scope string_scope.

(** ** Data model ([src/types.ts]) *)

Inductive Difficulty := Normal | Hard | NightBefore.
Inductive Status := New | Seen | InProgress | Mastered.
Inductive QType := QImage | QText.

(** [interface Answer { text?: string; imageUrls?: string[] }]; an optional
    field is [None] when the object does not carry it. *)
Record Answer := mkAnswer {
  a_text : option string;
  a_imageUrls : option (list string)
}.

(** [interface Question]. [difficulty] is declared required but the upload
    path of [handleFiles] builds questions without it, so it is optional. *)
Record Question := mkQuestion {
  q_id : string;
  q_examId : string;
  q_type : QType;
  q_imageUrl : option string;
  q_text : option string;
  q_tags : list string;
  q_difficulty : option Difficulty;
  q_status : Status;
  q_notes : option string;
  q_answer : option Answer;
  q_createdAt : string;
  q_updatedAt : string;
  q_lastReviewedAt : option string
}.

(** [interface Exam]. *)
Record Exam := mkExam {
  e_id : string;
  e_name : string;
  e_subject : option string;
  e_examDate : option string;
  e_createdAt : string;
  e_updatedAt : string
}.

(** The [Tag] interface is not among the sources; its fields are the ones
    the code reads and writes ([id], [name], [color], [examId]). Tags reach
    the reducer from parsed import documents, so each field but [id] may be
    missing from the object. *)
Record Tag := mkTag {
  t_id : string;
  t_name : option string;
  t_color : option string;
  t_examId : option string
}.

Record AppState := mkAppState {
  exams : list Exam;
  questions : list Question;
  tags : list Tag
}.

(** [Partial<Omit<Exam, 'id' | 'createdAt' | 'updatedAt'>>]. *)
Record ExamPatch := mkExamPatch {
  ep_name : option string;
  ep_subject : option string;
  ep_examDate : option string
}.

(** [Partial<Omit<Question, 'id' | 'createdAt' | 'updatedAt'>>]. *)
Record QuestionPatch := mkQuestionPatch {
  qp_examId : option string;
  qp_type : option QType;
  qp_imageUrl : option string;
  qp_text : option string;
  qp_tags : option (list string);
  qp_difficulty : option Difficulty;
  qp_status : option Status;
  qp_notes : option string;
  qp_answer : option Answer;
  qp_lastReviewedAt : option string
}.

(** ** Object spread

    [{ ...a, ...b }] on one field: [b]'s value when [b] carries the field,
    [a]'s otherwise. *)
Definition over {A} (incoming existing : option A) : option A :=
  match incoming with Some v => Some v | None => existing end.

Definition spread_exam_patch (e : Exam) (d : ExamPatch) (now : string) : Exam :=
  {| e_id := e_id e;
     e_name := match ep_name d with Some n => n | None => e_name e end;
     e_subject := over (ep_subject d) (e_subject e);
     e_examDate := over (ep_examDate d) (e_examDate e);
     e_createdAt := e_createdAt e;
     e_updatedAt := now |}.

Definition spread_question_patch (q : Question) (d : QuestionPatch) (now : string) : Question :=
  {| q_id := q_id q;
     q_examId := match qp_examId d with Some v => v | None => q_examId q end;
     q_type := match qp_type d with Some v => v | None => q_type q end;
     q_imageUrl := over (qp_imageUrl d) (q_imageUrl q);
     q_text := over (qp_text d) (q_text q);
     q_tags := match qp_tags d with Some v => v | None => q_tags q end;
     q_difficulty := over (qp_difficulty d) (q_difficulty q);
     q_status := match qp_status d with Some v => v | None => q_status q end;
     q_notes := over (qp_notes d) (q_notes q);
     q_answer := over (qp_answer d) (q_answer q);
     q_createdAt := q_createdAt q;
     q_updatedAt := now;
     q_lastReviewedAt := over (qp_lastReviewedAt d) (q_lastReviewedAt q) |}.

(** [{ ...(existing || {}), ...incoming }] in [MERGE_DATA]: with no existing
    record the result is a copy of the incoming one. *)
Definition spread_exam (existing : option Exam) (e : Exam) : Exam :=
  match existing with
  | None => e
  | Some o =>
      {| e_id := e_id e; e_name := e_name e;
         e_subject := over (e_subject e) (e_subject o);
         e_examDate := over (e_examDate e) (e_examDate o);
         e_createdAt := e_createdAt e; e_updatedAt := e_updatedAt e |}
  end.

Definition spread_question (existing : option Question) (q : Question) : Question :=
  match existing with
  | None => q
  | Some o =>
      {| q_id := q_id q; q_examId := q_examId q; q_type := q_type q;
         q_imageUrl := over (q_imageUrl q) (q_imageUrl o);
         q_text := over (q_text q) (q_text o);
         q_tags := q_tags q;
         q_difficulty := over (q_difficulty q) (q_difficulty o);
         q_status := q_status q;
         q_notes := over (q_notes q) (q_notes o);
         q_answer := over (q_answer q) (q_answer o);
         q_createdAt := q_createdAt q; q_updatedAt := q_updatedAt q;
         q_lastReviewedAt := over (q_lastReviewedAt q) (q_lastReviewedAt o) |}
  end.

Definition spread_tag (existing : option Tag) (t : Tag) : Tag :=
  match existing with
  | None => t
  | Some o =>
      {| t_id := t_id t;
         t_name := over (t_name t) (t_name o);
         t_color := over (t_color t) (t_color o);
         t_examId := over (t_examId t) (t_examId o) |}
  end.

(** ** JavaScript [Map] with string keys

    An association list in insertion order: [set] on a present key replaces
    the value in place, on a new key appends; [get] returns the value. *)
Module JsMap.

Fixpoint set {A} (m : list (string * A)) (k : string) (v : A) : list (string * A) :=
  match m with
  | [] => [(k, v)]
  | (k', v') :: m' => if String.eqb k k' then (k, v) :: m' else (k', v') :: set m' k v
  end.

Fixpoint get {A} (m : list (string * A)) (k : string) : option A :=
  match m with
  | [] => None
  | (k', v') :: m' => if String.eqb k k' then Some v' else get m' k
  end.

(** [new Map(entries)]. *)
Definition of_list {A} (l : list (string * A)) : list (string * A) :=
  fold_left (fun m kv => set m kv.1 kv.2) l [].

(** [Array.from(m.values())]. *)
Definition values {A} (m : list (string * A)) : list A := map snd m.

End JsMap.

(** One collection of [MERGE_DATA]: build the map from the local records,
    then [set] every incoming record over the existing one. *)
Definition merge_collection {A} (id : A -> string) (spread : option A -> A -> A)
    (existing incoming : list A) : list A :=
  JsMap.values
    (fold_left (fun m x => JsMap.set m (id x) (spread (JsMap.get m (id x)) x))
       incoming (JsMap.of_list (map (fun e => (id e, e)) existing))).

(** ** The reducer ([appReducer]) *)

Inductive Action :=
  | ADD_EXAM (e : Exam)
  | UPDATE_EXAM (examId : string) (data : ExamPatch)
  | DELETE_EXAM (examId : string)
  | ADD_QUESTIONS (qs : list Question)
  | UPDATE_QUESTION (questionId : string) (data : QuestionPatch)
  | DELETE_QUESTION (questionId : string)
  | DELETE_QUESTIONS (questionIds : list string)
  | UPDATE_QUESTIONS (questionIds : list string) (data : QuestionPatch)
  | REPLACE_DATA (s : AppState)
  | MERGE_DATA (s : AppState)
  | ADD_TAG (t : Tag)
  | UPDATE_TAG (t : Tag)
  | DELETE_TAG (tagId : string)
  | ADD_TAG_TO_QUESTIONS (questionIds : list string) (tagId : string)
  | REMOVE_TAG_FROM_QUESTIONS (questionIds : list string) (tagId : string).

(** [new Set(ids).has(x)] and [arr.includes(x)]. *)
Definition mem (x : string) (l : list string) : bool := existsb (String.eqb x) l.

(** [appReducer]; [now] is the value of [new Date().toISOString()]. *)
Definition appReducer (now : string) (state : AppState) (action : Action) : AppState :=
  match action with
  | ADD_EXAM e => {| exams := exams state ++ [e]; questions := questions state; tags := tags state |}
  | UPDATE_EXAM examId data =>
      {| exams := map (fun e => if String.eqb (e_id e) examId then spread_exam_patch e data now else e)
                    (exams state);
         questions := questions state; tags := tags state |}
  | DELETE_EXAM examId =>
      {| exams := List.filter (fun e => negb (String.eqb (e_id e) examId)) (exams state);
         questions := List.filter (fun q => negb (String.eqb (q_examId q) examId)) (questions state);
         tags := List.filter (fun t => negb (match t_examId t with
                                        | Some x => String.eqb x examId
                                        | None => false end)) (tags state) |}
  | ADD_QUESTIONS qs => {| exams := exams state; questions := questions state ++ qs; tags := tags state |}
  | UPDATE_QUESTION questionId data =>
      {| exams := exams state;
         questions := map (fun q => if String.eqb (q_id q) questionId
                                    then spread_question_patch q data now else q) (questions state);
         tags := tags state |}
  | DELETE_QUESTION questionId =>
      {| exams := exams state;
         questions := List.filter (fun q => negb (String.eqb (q_id q) questionId)) (questions state);
         tags := tags state |}
  | DELETE_QUESTIONS questionIds =>
      {| exams := exams state;
         questions := List.filter (fun q => negb (mem (q_id q) questionIds)) (questions state);
         tags := tags state |}
  | UPDATE_QUESTIONS questionIds data =>
      {| exams := exams state;
         questions := map (fun q => if mem (q_id q) questionIds
                                    then spread_question_patch q data now else q) (questions state);
         tags := tags state |}
  | REPLACE_DATA s => s
  | MERGE_DATA s =>
      {| exams := merge_collection e_id spread_exam (exams state) (exams s);
         questions := merge_collection q_id spread_question (questions state) (questions s);
         tags := merge_collection t_id spread_tag (tags state) (tags s) |}
  | ADD_TAG t => {| exams := exams state; questions := questions state; tags := tags state ++ [t] |}
  | UPDATE_TAG t =>
      {| exams := exams state; questions := questions state;
         tags := map (fun t' => if String.eqb (t_id t') (t_id t) then t else t') (tags state) |}
  | DELETE_TAG tagId =>
      {| exams := exams state;
         questions := map (fun q => {| q_id := q_id q; q_examId := q_examId q; q_type := q_type q;
                                       q_imageUrl := q_imageUrl q; q_text := q_text q;
                                       q_tags := List.filter (fun x => negb (String.eqb x tagId)) (q_tags q);
                                       q_difficulty := q_difficulty q; q_status := q_status q;
                                       q_notes := q_notes q; q_answer := q_answer q;
                                       q_createdAt := q_createdAt q; q_updatedAt := q_updatedAt q;
                                       q_lastReviewedAt := q_lastReviewedAt q |}) (questions state);
         tags := List.filter (fun t => negb (String.eqb (t_id t) tagId)) (tags state) |}
  | ADD_TAG_TO_QUESTIONS questionIds tagId =>
      {| exams := exams state;
         questions := map (fun q => if mem (q_id q) questionIds && negb (mem tagId (q_tags q))
                                    then {| q_id := q_id q; q_examId := q_examId q; q_type := q_type q;
                                            q_imageUrl := q_imageUrl q; q_text := q_text q;
                                            q_tags := q_tags q ++ [tagId];
                                            q_difficulty := q_difficulty q; q_status := q_status q;
                                            q_notes := q_notes q; q_answer := q_answer q;
                                            q_createdAt := q_createdAt q; q_updatedAt := now;
                                            q_lastReviewedAt := q_lastReviewedAt q |}
                                    else q) (questions state);
         tags := tags state |}
  | REMOVE_TAG_FROM_QUESTIONS questionIds tagId =>
      {| exams := exams state;
         questions := map (fun q => if mem (q_id q) questionIds && mem tagId (q_tags q)
                                    then {| q_id := q_id q; q_examId := q_examId q; q_type := q_type q;
                                            q_imageUrl := q_imageUrl q; q_text := q_text q;
                                            q_tags := List.filter (fun x => negb (String.eqb x tagId)) (q_tags q);
                                            q_difficulty := q_difficulty q; q_status := q_status q;
                                            q_notes := q_notes q; q_answer := q_answer q;
                                            q_createdAt := q_createdAt q; q_updatedAt := now;
                                            q_lastReviewedAt := q_lastReviewedAt q |}
                                    else q) (questions state);
         tags := tags state |}
  end.

(** [Omit<Question, 'id' | 'createdAt' | 'updatedAt'>], the input of
    [addQuestions]. *)
Record QuestionData := mkQuestionData {
  d_examId : string;
  d_type : QType;
  d_imageUrl : option string;
  d_text : option string;
  d_tags : list string;
  d_difficulty : option Difficulty;
  d_status : Status;
  d_notes : option string;
  d_answer : option Answer;
  d_lastReviewedAt : option string
}.

(** [Partial<Omit<Tag, 'id'>>]. *)
Record TagPatch := mkTagPatch {
  tp_name : option string;
  tp_color : option string;
  tp_examId : option string
}.

(** [isImageKey] and [isBase64]: [!!url && url.startsWith(prefix)]. *)
Definition isImageKey (url : option string) : bool :=
  match url with Some u => String.prefix "idb://" u | None => false end.

Definition isBase64 (url : option string) : bool :=
  match url with Some u => String.prefix "data:image" u | None => false end.

Definition with_image_answer (q : Question) (img : option string) (ans : option Answer) : Question :=
  {| q_id := q_id q; q_examId := q_examId q; q_type := q_type q;
     q_imageUrl := img; q_text := q_text q; q_tags := q_tags q;
     q_difficulty := q_difficulty q; q_status := q_status q; q_notes := q_notes q;
     q_answer := ans; q_createdAt := q_createdAt q; q_updatedAt := q_updatedAt q;
     q_lastReviewedAt := q_lastReviewedAt q |}.

(** ** The blob store ([services/imageStore], src/unnamed/part_006)

    The IndexedDB object store maps a UUID to the stored data URI. A key
    handed out to callers is ["idb://" ++ uuid]; [getImage] and
    [deleteImages] strip it with [key.replace('idb://', '')], which
    replaces the first occurrence of the pattern. *)
Fixpoint replace_first (pat rep s : string) : string :=
  if String.prefix pat s then rep ++ substring (String.length pat) (String.length s - String.length pat) s
  else match s with
       | EmptyString => EmptyString
       | String c s' => String c (replace_first pat rep s')
       end.

Definition actualKey (key : string) : string := replace_first "idb://" "" key.

Section BlobStore.

(** [crypto.randomUUID()]: a fresh identifier, one not in the given set. *)
Variable gen : gset string -> string.

Definition storeImage (base64 : string) (db : gmap string string) : string * gmap string string :=
  let key := gen (dom db) in ("idb://" ++ key, <[key := base64]> db).

Definition getImage (key : string) (db : gmap string string) : option string :=
  db !! actualKey key.

Definition deleteImages (keys : list string) (db : gmap string string) : gmap string string :=
  fold_left (fun d k => delete (actualKey k) d) keys db.

(** [isBase64(url) ? imageStore.storeImage(url) : url], over a list. *)
Fixpoint store_all (urls : list string) (db : gmap string string) : list string * gmap string string :=
  match urls with
  | [] => ([], db)
  | u :: us =>
      let '(k, db1) := if isBase64 (Some u) then storeImage u db else (u, db) in
      let '(ks, db2) := store_all us db1 in (k :: ks, db2)
  end.

End BlobStore.

(** ** The collaborator-facing operations of [DataProvider] *)

Record World := mkWorld { st : AppState; blobs : gmap string string }.

(** [[q.imageUrl, ...(q.answer?.imageUrls || [])]]. *)
Definition image_slots (q : Question) : list (option string) :=
  q_imageUrl q :: map Some (match q_answer q with
                            | Some a => match a_imageUrls a with Some l => l | None => [] end
                            | None => [] end).

(** [.filter(isImageKey)] of those slots. *)
Definition keys_of (q : Question) : list string :=
  omap (fun u => if isImageKey u then u else None) (image_slots q).

Definition answer_urls (q : Question) : list string :=
  match q_answer q with
  | Some a => match a_imageUrls a with Some l => l | None => [] end
  | None => [] end.

Section Operations.

Variable gen : gset string -> string.
Variable now : string.

Definition dispatch (w : World) (a : Action) : World :=
  {| st := appReducer now (st w) a; blobs := blobs w |}.

(** [if (keys.length > 0) await imageStore.deleteImages(keys)]. *)
Definition delete_if_any (keys : list string) (db : gmap string string) : gmap string string :=
  match keys with [] => db | _ => deleteImages keys db end.

Definition updateExam (w : World) (examId : string) (data : ExamPatch) : World :=
  dispatch w (UPDATE_EXAM examId data).

Definition deleteExam (w : World) (examId : string) : World :=
  let questionsToDelete := List.filter (fun q => String.eqb (q_examId q) examId) (questions (st w)) in
  let imageKeysToDelete := flat_map keys_of questionsToDelete in
  dispatch {| st := st w; blobs := delete_if_any imageKeysToDelete (blobs w) |} (DELETE_EXAM examId).

(** One element of [questionsData.map(async q => ...)]. *)
Definition process_new (q : QuestionData) (db : gmap string string) : QuestionData * gmap string string :=
  match d_imageUrl q with
  | Some u =>
      if isBase64 (Some u) then
        let '(k, db') := storeImage gen u db in
        ({| d_examId := d_examId q; d_type := d_type q; d_imageUrl := Some k; d_text := d_text q;
            d_tags := d_tags q; d_difficulty := d_difficulty q; d_status := d_status q;
            d_notes := d_notes q; d_answer := d_answer q; d_lastReviewedAt := d_lastReviewedAt q |}, db')
      else (q, db)
  | None => (q, db)
  end.

Fixpoint process_new_all (qs : list QuestionData) (db : gmap string string) : list QuestionData * gmap string string :=
  match qs with
  | [] => ([], db)
  | q :: qs' => let '(p, db1) := process_new q db in
                let '(ps, db2) := process_new_all qs' db1 in (p :: ps, db2)
  end.

(** [{ id: crypto.randomUUID(), createdAt, updatedAt, ...q }]. *)
Definition new_question (id : string) (q : QuestionData) : Question :=
  {| q_id := id; q_examId := d_examId q; q_type := d_type q; q_imageUrl := d_imageUrl q;
     q_text := d_text q; q_tags := d_tags q; q_difficulty := d_difficulty q;
     q_status := d_status q; q_notes := d_notes q; q_answer := d_answer q;
     q_createdAt := now; q_updatedAt := now; q_lastReviewedAt := d_lastReviewedAt q |}.

(** The identifiers drawn in order, each fresh for those in use so far. *)
Fixpoint stamp (used : gset string) (qs : list QuestionData) : list Question :=
  match qs with
  | [] => []
  | q :: qs' => let id := gen used in new_question id q :: stamp ({[id]} ∪ used) qs'
  end.

Definition addQuestions (w : World) (questionsData : list QuestionData) : list Question * World :=
  let '(processed, db) := process_new_all questionsData (blobs w) in
  let newQuestions := stamp (list_to_set (map q_id (questions (st w)))) processed in
  let w1 := {| st := st w; blobs := db |} in
  (newQuestions, match newQuestions with [] => w1 | _ => dispatch w1 (ADD_QUESTIONS newQuestions) end).

Definition updateQuestion (w : World) (questionId : string) (data : QuestionPatch) : World :=
  match find (fun q => String.eqb (q_id q) questionId) (questions (st w)) with
  | None => w
  | Some questionToUpdate =>
      match qp_answer data with
      | Some (mkAnswer txt (Some newImageUrls)) =>
          let oldImageUrls := List.filter (fun u => isImageKey (Some u)) (answer_urls questionToUpdate) in
          let '(newKeys, db1) := store_all gen newImageUrls (blobs w) in
          let imageKeysToDelete := List.filter (fun k => negb (mem k newKeys)) oldImageUrls in
          let dataCopy :=
            {| qp_examId := qp_examId data; qp_type := qp_type data; qp_imageUrl := qp_imageUrl data;
               qp_text := qp_text data; qp_tags := qp_tags data; qp_difficulty := qp_difficulty data;
               qp_status := qp_status data; qp_notes := qp_notes data;
               qp_answer := Some (mkAnswer txt (Some newKeys));
               qp_lastReviewedAt := qp_lastReviewedAt data |} in
          dispatch {| st := st w; blobs := delete_if_any imageKeysToDelete db1 |}
                   (UPDATE_QUESTION questionId dataCopy)
      | _ => dispatch w (UPDATE_QUESTION questionId data)
      end
  end.

Definition deleteQuestion (w : World) (questionId : string) : World :=
  match find (fun q => String.eqb (q_id q) questionId) (questions (st w)) with
  | None => w
  | Some questionToDelete =>
      dispatch {| st := st w; blobs := delete_if_any (keys_of questionToDelete) (blobs w) |}
               (DELETE_QUESTION questionId)
  end.

Definition deleteQuestions (w : World) (questionIds : list string) : World :=
  let questionsToDelete := List.filter (fun q => mem (q_id q) questionIds) (questions (st w)) in
  dispatch {| st := st w; blobs := delete_if_any (flat_map keys_of questionsToDelete) (blobs w) |}
           (DELETE_QUESTIONS questionIds).

Definition updateQuestions (w : World) (questionIds : list string) (data : QuestionPatch) : World :=
  dispatch w (UPDATE_QUESTIONS questionIds data).

(** One element of [processImportedQuestions] (values only; the aliasing
    of the answer object is modelled in [ImportAliasing] below). *)
Definition process_imported (q : Question) (db : gmap string string) : Question * gmap string string :=
  let '(img, db1) :=
    match q_imageUrl q with
    | Some u => if isBase64 (Some u) then let '(k, d) := storeImage gen u db in (Some k, d)
                else (Some u, db)
    | None => (None, db)
    end in
  let '(ans, db2) :=
    match q_answer q with
    | Some (mkAnswer txt (Some urls)) =>
        let '(ks, d) := store_all gen urls db1 in (Some (mkAnswer txt (Some ks)), d)
    | a => (a, db1)
    end in
  (with_image_answer q img ans, db2).

Fixpoint processImportedQuestions (qs : list Question) (db : gmap string string) : list Question * gmap string string :=
  match qs with
  | [] => ([], db)
  | q :: qs' => let '(p, db1) := process_imported q db in
                let '(ps, db2) := processImportedQuestions qs' db1 in (p :: ps, db2)
  end.

Definition replaceData (w : World) (data : AppState) : World :=
  let allImageKeys := flat_map keys_of (questions (st w)) in
  let db1 := delete_if_any allImageKeys (blobs w) in
  let '(processedQuestions, db2) := processImportedQuestions (questions data) db1 in
  dispatch {| st := st w; blobs := db2 |}
           (REPLACE_DATA {| exams := exams data; questions := processedQuestions; tags := tags data |}).

Definition mergeData (w : World) (data : AppState) : World :=
  let '(processedQuestions, db) := processImportedQuestions (questions data) (blobs w) in
  dispatch {| st := st w; blobs := db |}
           (MERGE_DATA {| exams := exams data; questions := processedQuestions; tags := tags data |}).

Definition updateTag (w : World) (tagId : string) (tagData : TagPatch) : World :=
  match find (fun t => String.eqb (t_id t) tagId) (tags (st w)) with
  | None => w
  | Some t =>
      dispatch w (UPDATE_TAG {| t_id := t_id t; t_name := over (tp_name tagData) (t_name t);
                                t_color := over (tp_color tagData) (t_color t);
                                t_examId := over (tp_examId tagData) (t_examId t) |})
  end.

Definition deleteTag (w : World) (tagId : string) : World := dispatch w (DELETE_TAG tagId).

Definition addTagToQuestions (w : World) (questionIds : list string) (tagId : string) : World :=
  dispatch w (ADD_TAG_TO_QUESTIONS questionIds tagId).

Definition removeTagFromQuestions (w : World) (questionIds : list string) (tagId : string) : World :=
  dispatch w (REMOVE_TAG_FROM_QUESTIONS questionIds tagId).

End Operations.

(** ** Persistence effect of [DataProvider]

    The three [localStorage] keys. [JSON.stringify] drops fields whose value
    is [undefined]; a stored question is therefore a [Question] whose absent
    optional fields are [None]. A key never written is [None]. *)
Record LocalStorage := mkLocalStorage {
  ls_exams : option (list Exam);
  ls_questions_meta : option (list Question);
  ls_tags : option (list Tag)
}.

(** [({ imageUrl, answer, ...rest }) => ({ ...rest, imageUrl: isImageKey(imageUrl) ? imageUrl : undefined,
      answer: answer ? { ...answer, imageUrls: answer.imageUrls?.filter(isImageKey) } : undefined })]. *)
Definition question_meta (q : Question) : Question :=
  with_image_answer q
    (if isImageKey (q_imageUrl q) then q_imageUrl q else None)
    (match q_answer q with
     | Some a => Some (mkAnswer (a_text a)
                         (match a_imageUrls a with
                          | Some l => Some (List.filter (fun u => isImageKey (Some u)) l)
                          | None => None end))
     | None => None
     end).

(** The effect body, run on every change of [state]. *)
Definition persist (isInitialized : bool) (state : AppState) (ls : LocalStorage) : LocalStorage :=
  if isInitialized then
    {| ls_exams := Some (exams state);
       ls_questions_meta := Some (map question_meta (questions state));
       ls_tags := Some (tags state) |}
  else ls.

(** ** Import validation ([handleFileImport], src/screens/HomeScreen.tsx) *)

Local Set Warnings "-register-all".

(** A value produced by [JSON.parse]. *)
Inductive JSON :=
  | JNull
  | JBool (b : bool)
  | JNum (n : Z)
  | JStr (s : string)
  | JArr (l : list JSON)
  | JObj (fields : list (string * JSON)).

(** Property read [v.k] on a non-null value; [None] is [undefined]. An
    object parsed from text with a repeated key keeps the last value. *)
Definition prop (v : JSON) (k : string) : option JSON :=
  match v with
  | JObj fs => fold_left (fun acc kv => if String.eqb kv.1 k then Some kv.2 else acc) fs None
  | _ => None
  end.

(** JavaScript truthiness of a possibly [undefined] value. *)
Definition truthy (v : option JSON) : bool :=
  match v with
  | None | Some JNull | Some (JBool false) | Some (JStr "") => false
  | Some (JNum n) => negb (Z.eqb n 0)
  | _ => true
  end.

Definition array_of (v : option JSON) : option (list JSON) :=
  match v with Some (JArr l) => Some l | _ => None end.

(** The [AppState] handed to the import dialog. *)
Record ImportedData := mkImportedData {
  im_exams : list JSON;
  im_questions : list JSON;
  im_tags : JSON
}.

Record HomeScreen := mkHomeScreen {
  home_world : World;
  importedData : option ImportedData;
  alerts : list string
}.

(** The [try] block: the validated state or the thrown error's message. *)
Definition validate (parsedJson : JSON) : ImportedData + string :=
  match parsedJson with
  | JNull => inr "Cannot read properties of null (reading 'data')"
  | _ =>
      let appState := prop parsedJson "data" in
      match appState with
      | Some a =>
          if truthy appState then
            match array_of (prop a "exams"), array_of (prop a "questions") with
            | Some es, Some qs =>
                inl {| im_exams := es; im_questions := qs;
                       im_tags := if truthy (prop a "tags")
                                  then match prop a "tags" with Some t => t | None => JArr [] end
                                  else JArr [] |}
            | _, _ => inr "Invalid backup file format."
            end
          else inr "Invalid backup file format."
      | None => inr "Invalid backup file format."
      end
  end.

(** [reader.onload] after [JSON.parse]: on success [setImportedData], on an
    error [alert]. *)
Definition handleFileImport (parsedJson : JSON) (h : HomeScreen) : HomeScreen :=
  match validate parsedJson with
  | inl v => {| home_world := home_world h; importedData := Some v; alerts := alerts h |}
  | inr msg => {| home_world := home_world h; importedData := importedData h;
                  alerts := alerts h ++ ["Import failed: " ++ msg] |}
  end.

(** ** Upload dedup ([handleFiles], src/screens/ExamDetailScreen.tsx) *)

Record File := mkFile { f_type : string; f_bytes : list Byte.byte }.

(** [n.toString(16)] for a byte value (at most two lowercase digits). *)
Definition hex_char (n : nat) : Ascii.ascii :=
  Ascii.ascii_of_nat (if Nat.ltb n 10 then 48 + n else 87 + n).

Definition toString16 (n : nat) : string :=
  if Nat.ltb n 16 then String (hex_char n) EmptyString
  else String (hex_char (n / 16)) (String (hex_char (n mod 16)) EmptyString).

Definition padStart2 (s : string) : string :=
  match String.length s with
  | 0 => "00"
  | 1 => String "0"%char s
  | _ => s
  end.

Definition byte_hex (b : Byte.byte) : string := padStart2 (toString16 (Byte.to_nat b)).

Section Upload.

(** [crypto.subtle.digest('SHA-256', buffer)] and [FileReader.readAsDataURL]. *)
Variable sha256 : list Byte.byte -> list Byte.byte.
Variable readAsDataURL : File -> string.

(** [calculateHash] (src/unnamed/part_005). *)
Definition calculateHash (f : File) : string :=
  String.concat "" (map byte_hex (sha256 (f_bytes f))).

Definition upload_question (examId : string) (f : File) : QuestionData :=
  {| d_examId := examId; d_type := QImage; d_imageUrl := Some (readAsDataURL f); d_text := None;
     d_tags := []; d_difficulty := None; d_status := New; d_notes := Some (calculateHash f);
     d_answer := None; d_lastReviewedAt := None |}.

(** The [for] loop: [(questionHashes, newQuestionsData, skippedCount)]. *)
Fixpoint scan_files (examId : string) (files : list File)
    (hashes : list string) (acc : list QuestionData) (skipped : nat) : list string * list QuestionData * nat :=
  match files with
  | [] => (hashes, acc, skipped)
  | f :: fs =>
      if negb (String.prefix "image/" (f_type f)) then scan_files examId fs hashes acc skipped
      else let hash := calculateHash f in
           if mem hash hashes then scan_files examId fs hashes acc (S skipped)
           else scan_files examId fs (hash :: hashes) (acc ++ [upload_question examId f]) skipped
  end.

(** [questions.filter(q => q.type === 'image' && q.notes).map(q => q.notes)]. *)
Definition existing_hashes (qs : list Question) : list string :=
  omap (fun q => match q_type q, q_notes q with
                 | QImage, Some n => if String.eqb n "" then None else Some n
                 | _, _ => None end) qs.

(** [handleFiles]: the questions of the screen are those of the exam. It
    returns the skipped count and the world after [addQuestions]. *)
Definition handleFiles (gen : gset string -> string) (now : string) (w : World)
    (examId : string) (files : list File) : list QuestionData * nat * World :=
  let qs := List.filter (fun q => String.eqb (q_examId q) examId) (questions (st w)) in
  let '(_, newQuestionsData, skippedCount) := scan_files examId files (existing_hashes qs) [] 0 in
  (newQuestionsData, skippedCount,
   match newQuestionsData with
   | [] => w
   | _ => (addQuestions gen now w newQuestionsData).2
   end).

End Upload.

(** ** Object identity in [processImportedQuestions]

    [const newQ = { ...q }] copies the question but not its [answer] object,
    and [newQ.answer.imageUrls = ...] writes through to that shared object.
    Here answer objects live in a heap and questions hold their address. *)
Module ImportAliasing.

Definition loc := nat.

Record HQuestion := mkHQuestion {
  hq_id : string;
  hq_examId : string;
  hq_type : QType;
  hq_imageUrl : option string;
  hq_text : option string;
  hq_tags : list string;
  hq_difficulty : option Difficulty;
  hq_status : Status;
  hq_notes : option string;
  hq_answer : option loc;
  hq_createdAt : string;
  hq_updatedAt : string;
  hq_lastReviewedAt : option string
}.

(** The questions of an import document; its exams and tags are passed on
    untouched and play no part here. *)
Record HWorld := mkHWorld {
  hw_questions : list HQuestion;
  heap : gmap loc Answer;
  hw_blobs : gmap string string
}.

Definition with_image (q : HQuestion) (img : option string) : HQuestion :=
  {| hq_id := hq_id q; hq_examId := hq_examId q; hq_type := hq_type q; hq_imageUrl := img;
     hq_text := hq_text q; hq_tags := hq_tags q; hq_difficulty := hq_difficulty q;
     hq_status := hq_status q; hq_notes := hq_notes q; hq_answer := hq_answer q;
     hq_createdAt := hq_createdAt q; hq_updatedAt := hq_updatedAt q;
     hq_lastReviewedAt := hq_lastReviewedAt q |}.

Section Importing.

Variable gen : gset string -> string.

(** One element of [processImportedQuestions]. *)
Definition process_imported (q : HQuestion) (hp : gmap loc Answer) (db : gmap string string)
    : HQuestion * gmap loc Answer * gmap string string :=
  let '(newQ, db1) :=
    match hq_imageUrl q with
    | Some u => if isBase64 (Some u) then let '(k, d) := storeImage gen u db in (with_image q (Some k), d)
                else (q, db)
    | None => (q, db)
    end in
  match hq_answer newQ with
  | Some l =>
      match hp !! l with
      | Some (mkAnswer txt (Some urls)) =>
          let '(ks, db2) := store_all gen urls db1 in
          (newQ, <[l := mkAnswer txt (Some ks)]> hp, db2)
      | _ => (newQ, hp, db1)
      end
  | None => (newQ, hp, db1)
  end.

Fixpoint processImportedQuestions (qs : list HQuestion) (hp : gmap loc Answer) (db : gmap string string)
    : list HQuestion * gmap loc Answer * gmap string string :=
  match qs with
  | [] => ([], hp, db)
  | q :: qs' =>
      let '(p, hp1, db1) := process_imported q hp db in
      let '(ps, hp2, db2) := processImportedQuestions qs' hp1 db1 in (p :: ps, hp2, db2)
  end.

(** [{ ...(existing || {}), ...incoming }]: the [answer] address is copied. *)
Definition spread_hquestion (existing : option HQuestion) (q : HQuestion) : HQuestion :=
  match existing with
  | None => q
  | Some o =>
      {| hq_id := hq_id q; hq_examId := hq_examId q; hq_type := hq_type q;
         hq_imageUrl := over (hq_imageUrl q) (hq_imageUrl o);
         hq_text := over (hq_text q) (hq_text o); hq_tags := hq_tags q;
         hq_difficulty := over (hq_difficulty q) (hq_difficulty o); hq_status := hq_status q;
         hq_notes := over (hq_notes q) (hq_notes o); hq_answer := over (hq_answer q) (hq_answer o);
         hq_createdAt := hq_createdAt q; hq_updatedAt := hq_updatedAt q;
         hq_lastReviewedAt := over (hq_lastReviewedAt q) (hq_lastReviewedAt o) |}
  end.

(** [[q.imageUrl, ...(q.answer?.imageUrls || [])].filter(isImageKey)], read
    through the heap. *)
Definition hkeys_of (hp : gmap loc Answer) (q : HQuestion) : list string :=
  omap (fun u => if isImageKey u then u else None)
    (hq_imageUrl q :: map Some (match hq_answer q with
                                | Some l => match hp !! l with
                                            | Some (mkAnswer _ (Some us)) => us
                                            | _ => [] end
                                | None => [] end)).

Definition mergeData (w : HWorld) (data : list HQuestion) : HWorld :=
  let '(ps, hp, db) := processImportedQuestions data (heap w) (hw_blobs w) in
  {| hw_questions := merge_collection hq_id spread_hquestion (hw_questions w) ps;
     heap := hp; hw_blobs := db |}.

Definition replaceData (w : HWorld) (data : list HQuestion) : HWorld :=
  let allImageKeys := flat_map (hkeys_of (heap w)) (hw_questions w) in
  let db1 := match allImageKeys with [] => hw_blobs w | _ => deleteImages allImageKeys (hw_blobs w) end in
  let '(ps, hp, db) := processImportedQuestions data (heap w) db1 in
  {| hw_questions := ps; heap := hp; hw_blobs := db |}.

End Importing.

End ImportAliasing.

(** ** Sample records *)

(** A fresh-identifier source for concrete runs: stdpp's [fresh]. *)
Definition uuid_gen : gset string -> string := fun X => fresh X.

Definition sample_question (id examId : string) (img : option string) (ans : option Answer)
    (tagIds : list string) : Question :=
  {| q_id := id; q_examId := examId; q_type := QImage; q_imageUrl := img; q_text := None;
     q_tags := tagIds; q_difficulty := None; q_status := New; q_notes := None; q_answer := ans;
     q_createdAt := "2024-01-01"; q_updatedAt := "2024-01-01"; q_lastReviewedAt := None |}.

Definition sample_data (examId : string) (img : option string) : QuestionData :=
  {| d_examId := examId; d_type := QImage; d_imageUrl := img; d_text := None; d_tags := [];
     d_difficulty := None; d_status := New; d_notes := None; d_answer := None;
     d_lastReviewedAt := None |}.

Definition sample_exam (id name : string) : Exam :=
  {| e_id := id; e_name := name; e_subject := None; e_examDate := None;
     e_createdAt := "2024-01-01"; e_updatedAt := "2024-01-01" |}.

(** Reading a digest back: [file.type.startsWith('image/')], the value of
    a lowercase hex digit, and the bytes spelled by a string of hex pairs. *)
Definition is_image (f : File) : bool := String.prefix "image/" (f_type f).

Definition hex_digit (c : Ascii.ascii) : bool :=
  let n := Ascii.nat_of_ascii c in
  (Nat.leb 48 n && Nat.leb n 57) || (Nat.leb 97 n && Nat.leb n 102).

Definition hex_value (c : Ascii.ascii) : nat :=
  let n := Ascii.nat_of_ascii c in if Nat.leb n 57 then n - 48 else n - 87.

Fixpoint hex_string (s : string) : bool :=
  match s with
  | EmptyString => true
  | String c r => hex_digit c && hex_string r
  end.

Fixpoint hex_bytes (s : string) : list nat :=
  match s with
  | String a (String b r) => (16 * hex_value a + hex_value b) :: hex_bytes r
  | _ => []
  end.

(** What the blob extraction makes of one url: a data URI becomes a Blob
    Store reference that reads back the same data URI; any other url is
    kept as it is. *)
Definition extracted (db : gmap string string) (u k : string) : Prop :=
  if isBase64 (Some u) then isImageKey (Some k) = true /\ getImage k db = Some u else k = u.

(** ** Reachable worlds and live references

    [data_refs] is [keys_of] for the data passed to [addQuestions]. *)
Definition data_refs (d : QuestionData) : list string :=
  omap (fun u => if isImageKey u then u else None)
    (d_imageUrl d :: map Some (match d_answer d with
                               | Some a => match a_imageUrls a with Some l => l | None => [] end
                               | None => [] end)).

(** Every Blob Store reference held by a question reads back a stored value. *)
Definition refs_live (w : World) : Prop :=
  forall q k, In q (questions (st w)) -> In k (keys_of q) -> is_Some (getImage k (blobs w)).

(** The invariant kept by the operations: references live, no reference held
    twice, question ids pairwise distinct. *)
Definition blob_inv (w : World) : Prop :=
  Forall (fun k => is_Some (getImage k (blobs w))) (flat_map keys_of (questions (st w))) /\
  NoDup (flat_map keys_of (questions (st w))) /\
  NoDup (map q_id (questions (st w))).

(** An [updateQuestion] payload as the answer editor builds it: its
    [imageUrl], if any, is no reference, and the references among its answer
    urls are distinct, live and held by no question other than the target's
    answer. *)
Definition patch_ok (w : World) (questionId : string) (data : QuestionPatch) : Prop :=
  isImageKey (qp_imageUrl data) = false /\
  match qp_answer data with
  | Some (mkAnswer _ (Some urls)) =>
      NoDup (List.filter (fun u => isImageKey (Some u)) urls) /\
      forall k, In k urls -> isImageKey (Some k) = true ->
        is_Some (getImage k (blobs w)) /\
        forall q, In q (questions (st w)) -> In k (keys_of q) ->
          q_id q = questionId /\ q_imageUrl q <> Some k
  | _ => True
  end.

(** The reference held in the [imageUrl] slot of a question, if any. *)
Definition image_part (q : Question) : list string :=
  match q_imageUrl q with Some u => if isImageKey (Some u) then [u] else [] | None => [] end.

Definition empty_world : World :=
  {| st := {| exams := []; questions := []; tags := [] |}; blobs := ∅ |}.

(** The worlds reached from the empty one by the collaborator-facing
    operations, with payloads and snapshots that hold no reference (images
    as inline data URIs only) and snapshots whose question ids are
    distinct. *)
Inductive reachable (gen : gset string -> string) : World -> Prop :=
| reach_empty : reachable gen empty_world
| reach_add now w data :
    reachable gen w -> Forall (fun d => data_refs d = []) data ->
    reachable gen (addQuestions gen now w data).2
| reach_update now w questionId data :
    reachable gen w -> patch_ok w questionId data ->
    reachable gen (updateQuestion gen now w questionId data)
| reach_delete now w questionId :
    reachable gen w -> reachable gen (deleteQuestion now w questionId)
| reach_deletes now w questionIds :
    reachable gen w -> reachable gen (deleteQuestions now w questionIds)
| reach_deleteExam now w examId :
    reachable gen w -> reachable gen (deleteExam now w examId)
| reach_replace now w data :
    reachable gen w -> Forall (fun q => keys_of q = []) (questions data) ->
    NoDup (map q_id (questions data)) -> reachable gen (replaceData gen now w data)
| reach_merge now w data :
    reachable gen w -> Forall (fun q => keys_of q = []) (questions data) ->
    reachable gen (mergeData gen now w data).

(** ** Further code of [DataContext.tsx]

    [initializer]: the state read back from [localStorage] ([JSON.parse]
    of each stored value; a key never written gives the empty list). *)
Definition initializer (ls : LocalStorage) : AppState :=
  {| exams := match ls_exams ls with Some l => l | None => [] end;
     questions := match ls_questions_meta ls with Some l => l | None => [] end;
     tags := match ls_tags ls with Some l => l | None => [] end |}.

(** [Omit<Exam, 'id' | 'createdAt' | 'updatedAt'>], the input of [addExam]. *)
Record ExamData := mkExamData {
  ed_name : string;
  ed_subject : option string;
  ed_examDate : option string
}.

Section MoreOperations.

Variable gen : gset string -> string.
Variable now : string.

(** [{ id: crypto.randomUUID(), createdAt, updatedAt, ...examData }]. *)
Definition addExam (w : World) (examData : ExamData) : World :=
  dispatch now w (ADD_EXAM {| e_id := gen (list_to_set (map e_id (exams (st w))));
                              e_name := ed_name examData; e_subject := ed_subject examData;
                              e_examDate := ed_examDate examData;
                              e_createdAt := now; e_updatedAt := now |}).

(** [{ id: crypto.randomUUID(), ...tagData }]. *)
Definition addTag (w : World) (tagData : TagPatch) : World :=
  dispatch now w (ADD_TAG {| t_id := gen (list_to_set (map t_id (tags (st w))));
                             t_name := tp_name tagData; t_color := tp_color tagData;
                             t_examId := tp_examId tagData |}).

End MoreOperations.

(** One call of any collaborator-facing operation, with any arguments. *)
Inductive op_step (gen : gset string -> string) : World -> World -> Prop :=
| step_addExam now w d : op_step gen w (addExam gen now w d)
| step_updateExam now w examId d : op_step gen w (updateExam now w examId d)
| step_deleteExam now w examId : op_step gen w (deleteExam now w examId)
| step_addQuestions now w data : op_step gen w (addQuestions gen now w data).2
| step_updateQuestion now w questionId d : op_step gen w (updateQuestion gen now w questionId d)
| step_deleteQuestion now w questionId : op_step gen w (deleteQuestion now w questionId)
| step_deleteQuestions now w questionIds : op_step gen w (deleteQuestions now w questionIds)
| step_updateQuestions now w questionIds d : op_step gen w (updateQuestions now w questionIds d)
| step_replaceData now w data : op_step gen w (replaceData gen now w data)
| step_mergeData now w data : op_step gen w (mergeData gen now w data)
| step_addTag now w d : op_step gen w (addTag gen now w d)
| step_updateTag now w tagId d : op_step gen w (updateTag now w tagId d)
| step_deleteTag now w tagId : op_step gen w (deleteTag now w tagId)
| step_addTagToQuestions now w questionIds tagId :
    op_step gen w (addTagToQuestions now w questionIds tagId)
| step_removeTagFromQuestions now w questionIds tagId :
    op_step gen w (removeTagFromQuestions now w questionIds tagId).

(** Every value held by the Blob Store is a data URI. *)
Definition store_data_uris (db : gmap string string) : Prop :=
  map_Forall (fun _ v => isBase64 (Some v) = true) db.

(** ** Filters and selection of [ExamDetailScreen] *)

(** [Array.from(new Set(prev))]: first occurrences, in insertion order. *)
Definition set_of_list (l : list string) : list string :=
  fold_left (fun acc x => if mem x acc then acc else (acc ++ [x])%list) l [].

(** [handleFilterToggle]. *)
Definition toggle_filter (prev : list string) (filterKey : string) : list string :=
  let newFilters := set_of_list prev in
  if mem filterKey newFilters then List.filter (fun x => negb (String.eqb x filterKey)) newFilters
  else (newFilters ++ [filterKey])%list.

(** [handleSelectQuestion]. *)
Definition select_question (prev : list string) (questionId : string) : list string :=
  if mem questionId prev then List.filter (fun id => negb (String.eqb id questionId)) prev
  else (prev ++ [questionId])%list.

(** The string values of the [Difficulty] and [Status] enums. *)
Definition difficulty_str (d : Difficulty) : string :=
  match d with Normal => "normal" | Hard => "hard" | NightBefore => "night-before" end.

Definition status_str (s : Status) : string :=
  match s with New => "new" | Seen => "seen" | InProgress => "in-progress" | Mastered => "mastered" end.

(** [q.difficulty === f], [q.difficulty] being [undefined] or a string. *)
Definition difficulty_is (q : Question) (f : string) : bool :=
  match q_difficulty q with Some d => String.eqb (difficulty_str d) f | None => false end.

(** The predicate of [filteredQuestions]. *)
Definition filter_match (activeFilters : list string) (q : Question) : bool :=
  existsb (fun f => mem f (map difficulty_str [Normal; Hard; NightBefore]) && difficulty_is q f) activeFilters
  || (mem (status_str New) activeFilters && String.eqb (status_str (q_status q)) (status_str New))
  || existsb (fun f => mem f (q_tags q)) activeFilters.

Definition filteredQuestions (activeFilters : list string) (questions : list Question) : list Question :=
  match activeFilters with
  | [] => questions
  | _ => List.filter (filter_match activeFilters) questions
  end.


(** [handleBulkUpdateDifficulty]: [{ difficulty, status: Status.Seen }] on the selection. *)
Definition bulk_difficulty_patch (d : Difficulty) : QuestionPatch :=
  {| qp_examId := None; qp_type := None; qp_imageUrl := None; qp_text := None; qp_tags := None;
     qp_difficulty := Some d; qp_status := Some Seen; qp_notes := None; qp_answer := None;
     qp_lastReviewedAt := None |}.

Definition handleBulkUpdateDifficulty (now : string) (w : World) (selectedQuestions : list string)
    (d : Difficulty) : World * list string :=
  (updateQuestions now w selectedQuestions (bulk_difficulty_patch d), []).

(** ** Backup export ([handleExport], src/screens/HomeScreen.tsx)

    [q.imageUrl = await getImage(q.imageUrl)] for a reference ([undefined],
    dropped by [JSON.stringify], when the blob is missing), and
    [isImageKey(url) ? getImage(url) : url] on each answer url ([undefined]
    in an array is written as [null]: [None] here). *)
Definition export_image (db : gmap string string) (img : option string) : option string :=
  match img with
  | Some u => if isImageKey (Some u) then getImage u db else Some u
  | None => None
  end.

Definition export_urls (db : gmap string string) (urls : list string) : list (option string) :=
  map (fun u => if isImageKey (Some u) then getImage u db else Some u) urls.

(** [Promise.all] over lookups that all found their blob. *)
Fixpoint all_some {A} (l : list (option A)) : option (list A) :=
  match l with
  | [] => Some []
  | Some x :: l' => match all_some l' with Some ys => Some (x :: ys) | None => None end
  | None :: _ => None
  end.

(** One question of [questionsWithImages], as written to the backup and
    read back by [handleFileImport] ([JSON.parse] of [JSON.stringify] gives
    the same strings, lists and records back). [None] when an answer url's
    blob is missing: the export then writes [null] in the list, a value
    outside [Question]. *)
Definition export_question (db : gmap string string) (q : Question) : option Question :=
  let img := export_image db (q_imageUrl q) in
  match q_answer q with
  | Some (mkAnswer t (Some urls)) =>
      match all_some (export_urls db urls) with
      | Some vs => Some (with_image_answer q img (Some (mkAnswer t (Some vs))))
      | None => None
      end
  | a => Some (with_image_answer q img a)
  end.

(** [data] of the backup: [{ exams, questions: questionsWithImages, tags }]. *)
Definition export_snapshot (w : World) : option AppState :=
  match all_some (map (export_question (blobs w)) (questions (st w))) with
  | Some qs => Some {| exams := exams (st w); questions := qs; tags := tags (st w) |}
  | None => None
  end.

(** An image url [u] of the exported world, found again as [k] in a world
    with store [db']: a reference comes back as a reference to the same
    value, an inline data URI as a reference to it, any other url as is. *)
Definition restored_url (db db' : gmap string string) (u k : string) : Prop :=
  if isImageKey (Some u) then isImageKey (Some k) = true /\ getImage k db' = getImage u db
  else extracted db' u k.

Definition restored_image (db db' : gmap string string) (img img' : option string) : Prop :=
  match img, img' with
  | Some u, Some k => restored_url db db' u k
  | None, None => True
  | _, _ => False
  end.

(** [q'] is [q] with every image restored and all other fields equal. *)
Definition restored (db db' : gmap string string) (q q' : Question) : Prop :=
  q' = with_image_answer q (q_imageUrl q')
         (match q_answer q with
          | Some (mkAnswer t (Some _)) => Some (mkAnswer t (Some (answer_urls q')))
          | a => a
          end) /\
  restored_image db db' (q_imageUrl q) (q_imageUrl q') /\
  Forall2 (restored_url db db') (answer_urls q) (answer_urls q').

(** ** Image display ([useStoredImage], src/types.ts)

    The module-level [cache] (a [Map] from reference to data URI, never
    cleared) and the [src] the effect settles on when it runs to completion
    for [keyOrUrl]; [if (imageData)] treats the empty string as missing. *)
Definition stored_image_src (cache db : gmap string string) (keyOrUrl : option string)
    : option string * gmap string string :=
  match keyOrUrl with
  | None => (None, cache)
  | Some k =>
      if String.eqb k "" then (None, cache)
      else if negb (String.prefix "idb://" k) then (Some k, cache)
      else match cache !! k with
           | Some v => (Some v, cache)
           | None =>
               match getImage k db with
               | Some v => if String.eqb v "" then (None, cache) else (Some v, <[k := v]> cache)
               | None => (None, cache)
               end
           end
  end.

(** Every cached reference reads back its cached value, a non-empty
    string, from the store. *)
Definition cache_ok (cache db : gmap string string) : Prop :=
  forall k v, cache !! k = Some v -> getImage k db = Some v /\ v <> "".

(** * Properties *)

(** ** General lemmas *)

Lemma mem_In x l : mem x l = true <-> In x l.
Proof.
  unfold mem. rewrite existsb_exists. split.
  - intros [y [Hy Heq]]. apply String.eqb_eq in Heq. by subst.
  - intros H. exists x. split; [done | apply String.eqb_refl].
Qed.

Lemma mem_false x l : mem x l = false <-> ~ In x l.
Proof.
  rewrite <- mem_In. destruct (mem x l); split; intros H; try done; exfalso; by apply H.
Qed.

Lemma mem_app_last x l : mem x (l ++ [x]) = true.
Proof. apply mem_In. apply in_or_app. right. by left. Qed.

Lemma mem_filter_removed x l : mem x (List.filter (fun y => negb (String.eqb y x)) l) = false.
Proof.
  apply mem_false. rewrite filter_In. intros [_ H]. by rewrite String.eqb_refl in H.
Qed.

Lemma filter_keep_all {A} (f : A -> bool) (l : list A) :
  (forall x, In x l -> f x = true) -> List.filter f l = l.
Proof.
  induction l as [|x l IH]; intros H; [done|]. simpl.
  rewrite (H x (or_introl eq_refl)). f_equal. apply IH. intros y Hy. apply H. by right.
Qed.

Lemma map_keep_all {A} (f : A -> A) (l : list A) :
  (forall x, In x l -> f x = x) -> map f l = l.
Proof.
  induction l as [|x l IH]; intros H; [done|]. simpl.
  rewrite (H x (or_introl eq_refl)). f_equal. apply IH. intros y Hy. apply H. by right.
Qed.

Lemma Forall2_map_self {A} (R : A -> A -> Prop) (f : A -> A) (l : list A) :
  (forall x, In x l -> R x (f x)) -> Forall2 R l (map f l).
Proof.
  induction l as [|x l IH]; intros H; constructor.
  - apply H. by left.
  - apply IH. intros y Hy. apply H. by right.
Qed.

Lemma eqb_neq_false (a b : string) : a <> b -> String.eqb a b = false.
Proof. intros H. by apply String.eqb_neq. Qed.

(** Each field of a record rebuilt from its own projections. *)
Lemma question_eta (q : Question) :
  {| q_id := q_id q; q_examId := q_examId q; q_type := q_type q; q_imageUrl := q_imageUrl q;
     q_text := q_text q; q_tags := q_tags q; q_difficulty := q_difficulty q; q_status := q_status q;
     q_notes := q_notes q; q_answer := q_answer q; q_createdAt := q_createdAt q;
     q_updatedAt := q_updatedAt q; q_lastReviewedAt := q_lastReviewedAt q |} = q.
Proof. by destruct q. Qed.

(** ** Tag set-add and set-remove *)

(** Claim C7: applying [ADD_TAG_TO_QUESTIONS ids tagId] twice gives the
    state obtained by applying it once (whatever the clock reads the second
    time), and the same holds for [REMOVE_TAG_FROM_QUESTIONS]; a question
    whose tag list either operation leaves as it was is returned unchanged,
    [updatedAt] included. *)
Theorem tag_ops_idempotent_and_quiet (now1 now2 : string) (s : AppState)
    (questionIds : list string) (tagId : string) :
  appReducer now2 (appReducer now1 s (ADD_TAG_TO_QUESTIONS questionIds tagId))
    (ADD_TAG_TO_QUESTIONS questionIds tagId)
  = appReducer now1 s (ADD_TAG_TO_QUESTIONS questionIds tagId) /\
  appReducer now2 (appReducer now1 s (REMOVE_TAG_FROM_QUESTIONS questionIds tagId))
    (REMOVE_TAG_FROM_QUESTIONS questionIds tagId)
  = appReducer now1 s (REMOVE_TAG_FROM_QUESTIONS questionIds tagId) /\
  Forall2 (fun q q' => q_tags q' = q_tags q -> q' = q)
    (questions s) (questions (appReducer now1 s (ADD_TAG_TO_QUESTIONS questionIds tagId))) /\
  Forall2 (fun q q' => q_tags q' = q_tags q -> q' = q)
    (questions s) (questions (appReducer now1 s (REMOVE_TAG_FROM_QUESTIONS questionIds tagId))).
Proof.
  split; [|split; [|split]]; simpl.
  - f_equal. rewrite map_map. apply map_ext. intros q.
    destruct (mem (q_id q) questionIds && negb (mem tagId (q_tags q))) eqn:E; simpl.
    + by rewrite mem_app_last, andb_false_r.
    + by rewrite E.
  - f_equal. rewrite map_map. apply map_ext. intros q.
    destruct (mem (q_id q) questionIds && mem tagId (q_tags q)) eqn:E; simpl.
    + by rewrite mem_filter_removed, andb_false_r.
    + by rewrite E.
  - apply Forall2_map_self. intros q _.
    destruct (mem (q_id q) questionIds && negb (mem tagId (q_tags q))); simpl; [|done].
    intros H. exfalso. apply (f_equal (@List.length string)) in H.
    rewrite length_app in H. simpl in H. lia.
  - apply Forall2_map_self. intros q _.
    destruct (mem (q_id q) questionIds && mem tagId (q_tags q)) eqn:E; simpl; [|done].
    intros H. exfalso. apply andb_true_iff in E as [_ E].
    rewrite <- H, mem_filter_removed in E. discriminate.
Qed.

(** ** Stale identifiers *)

Lemma find_none_all {A} (f : A -> bool) (l : list A) :
  (forall x, In x l -> f x = false) -> find f l = None.
Proof.
  induction l as [|x l IH]; intros H; [done|]. simpl.
  rewrite (H x (or_introl eq_refl)). apply IH. intros y Hy. apply H. by right.
Qed.

Lemma filter_drop_all {A} (f : A -> bool) (l : list A) :
  (forall x, In x l -> f x = false) -> List.filter f l = [].
Proof.
  induction l as [|x l IH]; intros H; [done|]. simpl.
  rewrite (H x (or_introl eq_refl)). apply IH. intros y Hy. apply H. by right.
Qed.

(** Claim C8 (as amended): every update or delete of the collaborator API
    whose target identifiers match no record leaves the world (records and
    blob store) as it was; for [deleteExam] no question or tag may carry the
    exam id, and for [deleteTag] no question's tag list may contain the tag
    id, since the cascade removes or strips those even when no record has
    the target id. The operations are total functions. *)
Theorem stale_ids_leave_world (gen : gset string -> string) (now : string) (w : World) :
  (forall examId data, (forall e, In e (exams (st w)) -> e_id e <> examId) ->
     updateExam now w examId data = w) /\
  (forall questionId data, (forall q, In q (questions (st w)) -> q_id q <> questionId) ->
     updateQuestion gen now w questionId data = w) /\
  (forall questionIds data, (forall q, In q (questions (st w)) -> ~ In (q_id q) questionIds) ->
     updateQuestions now w questionIds data = w) /\
  (forall examId, (forall e, In e (exams (st w)) -> e_id e <> examId) ->
     (forall q, In q (questions (st w)) -> q_examId q <> examId) ->
     (forall t, In t (tags (st w)) -> t_examId t <> Some examId) ->
     deleteExam now w examId = w) /\
  (forall questionId, (forall q, In q (questions (st w)) -> q_id q <> questionId) ->
     deleteQuestion now w questionId = w) /\
  (forall questionIds, (forall q, In q (questions (st w)) -> ~ In (q_id q) questionIds) ->
     deleteQuestions now w questionIds = w) /\
  (forall tagId data, (forall t, In t (tags (st w)) -> t_id t <> tagId) ->
     updateTag now w tagId data = w) /\
  (forall tagId, (forall t, In t (tags (st w)) -> t_id t <> tagId) ->
     (forall q, In q (questions (st w)) -> ~ In tagId (q_tags q)) ->
     deleteTag now w tagId = w) /\
  (forall questionIds tagId, (forall q, In q (questions (st w)) -> ~ In (q_id q) questionIds) ->
     addTagToQuestions now w questionIds tagId = w) /\
  (forall questionIds tagId, (forall q, In q (questions (st w)) -> ~ In (q_id q) questionIds) ->
     removeTagFromQuestions now w questionIds tagId = w).
Proof.
  destruct w as [[es qs ts] db]; simpl.
  split; [|split; [|split; [|split; [|split; [|split; [|split; [|split; [|split]]]]]]]].
  - intros examId data H. unfold updateExam, dispatch. simpl. f_equal. f_equal.
    apply map_keep_all. intros e He. by rewrite eqb_neq_false by (apply H; done).
  - intros qid data H. unfold updateQuestion. simpl.
    rewrite find_none_all; [done|]. intros q Hq. apply eqb_neq_false. by apply H.
  - intros ids data H. unfold updateQuestions, dispatch. simpl. f_equal. f_equal.
    apply map_keep_all. intros q Hq. rewrite (proj2 (mem_false _ _)); [done|]. by apply H.
  - intros examId He Hq Ht. unfold deleteExam, dispatch. simpl.
    rewrite (filter_drop_all (fun q => String.eqb (q_examId q) examId) qs); cycle 1.
    { intros q Hin. apply eqb_neq_false. by apply Hq. }
    simpl. f_equal. f_equal.
    + apply filter_keep_all. intros e Hin. by rewrite eqb_neq_false by (apply He; done).
    + apply filter_keep_all. intros q Hin. by rewrite eqb_neq_false by (apply Hq; done).
    + apply filter_keep_all. intros t Hin. specialize (Ht t Hin).
      destruct (t_examId t) as [x|]; [|done].
      rewrite eqb_neq_false; [done|]. intros ->. by apply Ht.
  - intros qid H. unfold deleteQuestion. simpl.
    rewrite find_none_all; [done|]. intros q Hq. apply eqb_neq_false. by apply H.
  - intros ids H. unfold deleteQuestions, dispatch. simpl.
    rewrite (filter_drop_all (fun q => mem (q_id q) ids) qs); cycle 1.
    { intros q Hin. apply mem_false. by apply H. }
    simpl. f_equal. f_equal. apply filter_keep_all. intros q Hin.
    rewrite (proj2 (mem_false _ _)); [done|]. by apply H.
  - intros tagId data H. unfold updateTag. simpl.
    rewrite find_none_all; [done|]. intros t Ht. apply eqb_neq_false. by apply H.
  - intros tagId Ht Hq. unfold deleteTag, dispatch. simpl. f_equal. f_equal.
    + apply map_keep_all. intros q Hin.
      rewrite filter_keep_all; [apply question_eta|].
      intros x Hx. rewrite eqb_neq_false; [done|]. intros ->. by apply (Hq q Hin).
    + apply filter_keep_all. intros t Hin. by rewrite eqb_neq_false by (apply Ht; done).
  - intros ids tagId H. unfold addTagToQuestions, dispatch. simpl. f_equal. f_equal.
    apply map_keep_all. intros q Hq. rewrite (proj2 (mem_false _ _)); [done|]. by apply H.
  - intros ids tagId H. unfold removeTagFromQuestions, dispatch. simpl. f_equal. f_equal.
    apply map_keep_all. intros q Hq. rewrite (proj2 (mem_false _ _)); [done|]. by apply H.
Qed.

(** A witness of [stale_ids_leave_world]: [deleteExam] of an id no record
    carries. *)
Lemma stale_ids_leave_world_witness :
  let w := {| st := {| exams := [sample_exam "e1" "Midterm"];
                       questions := [sample_question "q1" "e1" None None []]; tags := [] |};
              blobs := ∅ |} in
  deleteExam "now" w "e2" = w.
Proof.
  intros w.
  apply (proj1 (proj2 (proj2 (proj2 (stale_ids_leave_world uuid_gen "now" w))))); simpl.
  - intros e [<- | []]. simpl. discriminate.
  - intros q [<- | []]. simpl. discriminate.
  - intros t [].
Defined.

(** Claim C8 as stated fails: [deleteTag] of an id that no tag record has
    still strips that id from a question's tag list (here one added by
    [addTagToQuestions], which does not check that the tag exists). *)
Lemma deleteTag_stale_id_changes_state :
  ~ (forall (now : string) (w : World) (tagId : string),
       (forall t, In t (tags (st w)) -> t_id t <> tagId) -> deleteTag now w tagId = w).
Proof.
  intros H.
  set (w0 := {| st := {| exams := [sample_exam "e1" "Midterm"];
                         questions := [sample_question "q1" "e1" None None []]; tags := [] |};
                blobs := ∅ |}).
  set (w1 := addTagToQuestions "t0" w0 ["q1"] "t1").
  specialize (H "t1" w1 "t1" ltac:(intros t [])).
  apply (f_equal (fun w => map q_tags (questions (st w)))) in H.
  vm_compute in H. discriminate.
Qed.

(** ** Blob store deletions *)

Lemma deleteImages_cons k ks db :
  deleteImages (k :: ks) db = deleteImages ks (delete (actualKey k) db).
Proof. reflexivity. Qed.

Lemma deleteImages_None keys db x : db !! x = None -> deleteImages keys db !! x = None.
Proof.
  revert db. induction keys as [|k ks IH]; intros db H; [done|].
  rewrite deleteImages_cons. apply IH. rewrite lookup_delete. case_decide; done.
Qed.

Lemma deleteImages_gone keys db k : In k keys -> deleteImages keys db !! actualKey k = None.
Proof.
  revert db. induction keys as [|k' ks IH]; intros db H; [done|].
  rewrite deleteImages_cons. destruct H as [-> | H].
  - apply deleteImages_None. apply lookup_delete_eq.
  - by apply IH.
Qed.

Lemma deleteImages_other keys db x :
  (forall k, In k keys -> actualKey k <> x) -> deleteImages keys db !! x = db !! x.
Proof.
  revert db. induction keys as [|k ks IH]; intros db H; [done|].
  rewrite deleteImages_cons, IH.
  - apply lookup_delete_ne. apply H. by left.
  - intros k' Hk. apply H. by right.
Qed.

Lemma delete_if_any_eq keys db : delete_if_any keys db = deleteImages keys db.
Proof. by destruct keys. Qed.

Lemma omap_keys_filter (l : list string) :
  omap (fun u => if isImageKey u then u else None) (map Some l)
  = List.filter (fun u => isImageKey (Some u)) l.
Proof.
  induction l as [|u l IH]; [done|]. simpl.
  change (list_omap _ _ ?f (map Some l)) with (omap f (map Some l)). rewrite IH.
  by destruct (String.prefix "idb://" u).
Qed.
Lemma keys_of_In (q : Question) (u : string) :
  In u (keys_of q) <-> (q_imageUrl q = Some u \/ In u (answer_urls q)) /\ isImageKey (Some u) = true.
Proof.
  unfold keys_of, image_slots. simpl. fold (answer_urls q).
  change (list_omap _ _ ?f (map Some ?l)) with (omap f (map Some l)). rewrite omap_keys_filter.
  destruct (q_imageUrl q) as [v|] eqn:Hv; simpl.
  - destruct (String.prefix "idb://" v) eqn:Hp; simpl; rewrite filter_In; split.
    + intros [-> | [H1 H2]]; split; auto.
    + intros [[[= ->] | H1] H2]; auto.
    + intros [H1 H2]; split; auto.
    + intros [[[= ->] | H1] H2]; [congruence | auto].
  - rewrite filter_In. split.
    + intros [H1 H2]; split; auto.
    + intros [[H | H1] H2]; [discriminate | auto].
Qed.

(** Claim C2: [deleteExam id] removes exactly the exams with that id, the
    questions with that exam id and the tags with that exam id, keeps every
    other record in order, and deletes from the blob store every blob store
    reference held by a removed question (its [imageUrl] or an entry of its
    answer's [imageUrls]). *)
Theorem deleteExam_cascade (now : string) (w : World) (examId : string) :
  let w' := deleteExam now w examId in
  exams (st w') = List.filter (fun e => negb (String.eqb (e_id e) examId)) (exams (st w)) /\
  questions (st w') = List.filter (fun q => negb (String.eqb (q_examId q) examId)) (questions (st w)) /\
  (forall e, In e (exams (st w')) <-> In e (exams (st w)) /\ e_id e <> examId) /\
  (forall q, In q (questions (st w')) <-> In q (questions (st w)) /\ q_examId q <> examId) /\
  (forall t, In t (tags (st w')) <-> In t (tags (st w)) /\ t_examId t <> Some examId) /\
  (forall q u, In q (questions (st w)) -> q_examId q = examId ->
     (q_imageUrl q = Some u \/ In u (answer_urls q)) -> isImageKey (Some u) = true ->
     getImage u (blobs w') = None).
Proof.
  simpl. split; [done|]. split; [done|].
  split; [|split; [|split]].
  - intros e. rewrite filter_In, negb_true_iff, String.eqb_neq. done.
  - intros q. rewrite filter_In, negb_true_iff, String.eqb_neq. done.
  - intros t. rewrite filter_In, negb_true_iff. destruct (t_examId t) as [x|].
    + rewrite String.eqb_neq. split; intros [H1 H2]; split; try done; congruence.
    + split; intros [H1 H2]; split; done.
  - intros q u Hq Hex Hu Hk. unfold getImage. rewrite delete_if_any_eq.
    apply deleteImages_gone. apply in_flat_map. exists q. split.
    + apply filter_In. split; [done|]. subst. apply String.eqb_refl.
    + apply keys_of_In. done.
Qed.

(** ** Persisted metadata *)

Lemma filter_sublist {A} (f : A -> bool) (l : list A) : sublist (List.filter f l) l.
Proof.
  induction l as [|x l IH]; simpl; [constructor|].
  destruct (f x); [by apply sublist_skip | by apply sublist_cons].
Qed.

(** Claim C9: what the persistence effect writes: the exams and tags as
    they are, and for every question (in order) a copy that carries
    [imageUrl] only when it is a blob store reference (the field is absent
    otherwise), keeps in [answer.imageUrls] exactly the entries that are blob
    store references, in their order, and has every other field, and the
    answer text, of the live question. The effect only writes storage: the
    live state is an input of [persist] and is not returned changed. *)
Theorem persist_keeps_only_blob_refs (state : AppState) (ls : LocalStorage) :
  let ls' := persist true state ls in
  ls_exams ls' = Some (exams state) /\ ls_tags ls' = Some (tags state) /\
  exists metas, ls_questions_meta ls' = Some metas /\
  Forall2 (fun q m =>
     (forall u, q_imageUrl m = Some u <-> q_imageUrl q = Some u /\ isImageKey (Some u) = true) /\
     match q_answer q, q_answer m with
     | None, None => True
     | Some a, Some a' =>
         a_text a' = a_text a /\
         match a_imageUrls a, a_imageUrls a' with
         | None, None => True
         | Some l, Some l' => (forall u, In u l' <-> In u l /\ isImageKey (Some u) = true) /\ sublist l' l
         | _, _ => False
         end
     | _, _ => False
     end /\
     q_id m = q_id q /\ q_examId m = q_examId q /\ q_type m = q_type q /\ q_text m = q_text q /\
     q_tags m = q_tags q /\ q_difficulty m = q_difficulty q /\ q_status m = q_status q /\
     q_notes m = q_notes q /\ q_createdAt m = q_createdAt q /\ q_updatedAt m = q_updatedAt q /\
     q_lastReviewedAt m = q_lastReviewedAt q)
    (questions state) metas.
Proof.
  simpl. split; [done|]. split; [done|].
  eexists. split; [reflexivity|].
  apply Forall2_map_self. intros [id ex ty img tx tg df stt nt ans ca ua lr] _.
  unfold question_meta, with_image_answer; simpl.
  split; [|split; [|done]].
  - intros u. destruct img as [v|]; simpl.
    + destruct (String.prefix "idb://" v) eqn:Hp; split.
      * intros [= ->]. done.
      * intros [[= ->] _]. done.
      * discriminate.
      * intros [[= ->] H]. congruence.
    + split; [discriminate | intros [H _]; discriminate].
  - destruct ans as [[txt [urls|]]|]; simpl; [|done|done].
    split; [done|]. split.
    + intros u. rewrite filter_In. done.
    + apply filter_sublist.
Qed.

(** ** The [Map] model *)

Section JsMapFacts.
Context {A : Type}.
Implicit Types (m : list (string * A)) (k : string) (v : A).

Lemma get_set_eq m k v : JsMap.get (JsMap.set m k v) k = Some v.
Proof.
  induction m as [|[k' v'] m IH]; simpl; [by rewrite String.eqb_refl|].
  destruct (String.eqb k k') eqn:E; simpl; rewrite ?String.eqb_refl; [done|]. by rewrite E.
Qed.

Lemma get_set_ne m k k' v : k <> k' -> JsMap.get (JsMap.set m k v) k' = JsMap.get m k'.
Proof.
  intros Hne. induction m as [|[k0 v0] m IH]; simpl.
  - by rewrite eqb_neq_false by congruence.
  - destruct (String.eqb k k0) eqn:E; simpl.
    + apply String.eqb_eq in E. subst k0. by rewrite eqb_neq_false by congruence.
    + by rewrite IH.
Qed.

Lemma get_In_values m k v : JsMap.get m k = Some v -> In v (JsMap.values m).
Proof.
  induction m as [|[k' v'] m IH]; simpl; [done|].
  destruct (String.eqb k k'); [intros [= ->]; by left | intros H; right; by apply IH].
Qed.

Lemma length_set m k v : List.length m <= List.length (JsMap.set m k v).
Proof.
  induction m as [|[k' v'] m IH]; simpl; [lia|]. destruct (String.eqb k k'); simpl; lia.
Qed.

Lemma set_new m k v : ~ In k (map fst m) -> JsMap.set m k v = (m ++ [(k, v)])%list.
Proof.
  induction m as [|[k' v'] m IH]; intros H; simpl; [done|].
  rewrite eqb_neq_false by (intros ->; apply H; by left). f_equal. apply IH.
  intros Hk. apply H. by right.
Qed.

Lemma fold_set_new acc (l : list (string * A)) :
  NoDup (map fst (acc ++ l)%list) -> fold_left (fun m kv => JsMap.set m kv.1 kv.2) l acc = (acc ++ l)%list.
Proof.
  revert acc. induction l as [|[k v] l IH]; intros acc H; simpl; [by rewrite app_nil_r|].
  rewrite set_new.
  - rewrite IH; [by rewrite <- app_assoc|]. by rewrite <- app_assoc.
  - rewrite map_app in H. simpl in H. apply NoDup_app in H as [_ [H _]].
    intros Hk. apply (H k); [by apply list_elem_of_In | by left].
Qed.

Lemma of_list_NoDup (l : list (string * A)) : NoDup (map fst l) -> JsMap.of_list l = l.
Proof. intros H. unfold JsMap.of_list. by apply (fold_set_new []). Qed.

Lemma get_NoDup_In m k v : NoDup (map fst m) -> In (k, v) m -> JsMap.get m k = Some v.
Proof.
  induction m as [|[k' v'] m IH]; simpl; [done|]. intros Hnd Hin. apply NoDup_cons in Hnd as [Hk Hnd].
  destruct Hin as [[= -> ->] | Hin].
  - by rewrite String.eqb_refl.
  - rewrite eqb_neq_false; [by apply IH|]. intros ->. apply Hk. apply list_elem_of_In.
    apply in_map_iff. by exists (k', v).
Qed.

End JsMapFacts.

Section MergeFacts.
Context {A : Type} (id : A -> string) (spread : option A -> A -> A).

Definition merge_step (m : list (string * A)) (x : A) : list (string * A) :=
  JsMap.set m (id x) (spread (JsMap.get m (id x)) x).

Lemma fold_merge_get_notin (xs : list A) m k :
  ~ In k (map id xs) -> JsMap.get (fold_left merge_step xs m) k = JsMap.get m k.
Proof.
  revert m. induction xs as [|x xs IH]; intros m H; simpl; [done|].
  rewrite IH by (intros Hk; apply H; by right).
  unfold merge_step. apply get_set_ne. intros E. apply H. left. done.
Qed.

Lemma fold_merge_get_in (xs : list A) m x :
  NoDup (map id xs) -> In x xs ->
  JsMap.get (fold_left merge_step xs m) (id x) = Some (spread (JsMap.get m (id x)) x).
Proof.
  revert m. induction xs as [|y xs IH]; intros m Hnd Hin; simpl; [done|].
  simpl in Hnd. apply NoDup_cons in Hnd as [Hy Hnd]. destruct Hin as [-> | Hin].
  - rewrite fold_merge_get_notin.
    + unfold merge_step. apply get_set_eq.
    + intros Hk. apply Hy. by apply list_elem_of_In.
  - rewrite IH by done. unfold merge_step. rewrite get_set_ne; [done|].
    intros E. apply Hy. apply list_elem_of_In. rewrite E. apply in_map. done.
Qed.

Lemma fold_merge_length (xs : list A) m :
  List.length m <= List.length (fold_left merge_step xs m).
Proof.
  revert m. induction xs as [|x xs IH]; intros m; simpl; [lia|].
  etrans; [|apply IH]. apply length_set.
Qed.

Lemma merge_collection_eq existing incoming :
  NoDup (map id existing) ->
  merge_collection id spread existing incoming
  = JsMap.values (fold_left merge_step incoming (map (fun e => (id e, e)) existing)).
Proof.
  intros H. unfold merge_collection. rewrite of_list_NoDup; [done|].
  by rewrite map_map.
Qed.

Lemma get_local existing e :
  NoDup (map id existing) -> In e existing ->
  JsMap.get (map (fun e => (id e, e)) existing) (id e) = Some e.
Proof.
  intros Hnd Hin. apply get_NoDup_In.
  - by rewrite map_map.
  - apply in_map_iff. by exists e.
Qed.

(** Local records whose id the snapshot does not carry are kept, and the
    collection does not shrink. *)
Lemma merge_collection_keeps existing incoming :
  NoDup (map id existing) ->
  List.length existing <= List.length (merge_collection id spread existing incoming) /\
  (forall e, In e existing -> ~ In (id e) (map id incoming) ->
     In e (merge_collection id spread existing incoming)).
Proof.
  intros Hnd. rewrite merge_collection_eq by done. split.
  - unfold JsMap.values. rewrite length_map.
    etrans; [|apply fold_merge_length]. by rewrite length_map.
  - intros e He Hnot. apply (get_In_values _ (id e)).
    rewrite fold_merge_get_notin by done. by apply get_local.
Qed.

(** A record present on both sides is merged once, over the local one. *)
Lemma merge_collection_collision existing incoming l i :
  NoDup (map id existing) -> NoDup (map id incoming) ->
  In l existing -> In i incoming -> id l = id i ->
  In (spread (Some l) i) (merge_collection id spread existing incoming).
Proof.
  intros Hnd1 Hnd2 Hl Hi Hid. rewrite merge_collection_eq by done.
  apply (get_In_values _ (id i)). rewrite fold_merge_get_in by done.
  rewrite <- Hid, get_local by done. done.
Qed.

End MergeFacts.

(** ** Merge *)

Lemma process_imported_shape gen q db :
  exists img ans db', process_imported gen q db = (with_image_answer q img ans, db').
Proof. unfold process_imported. repeat case_match; simplify_eq; eauto. Qed.

Lemma processImported_ids gen qs db :
  map q_id (processImportedQuestions gen qs db).1 = map q_id qs.
Proof.
  revert db. induction qs as [|q qs IH]; intros db; [done|]. simpl.
  destruct (process_imported_shape gen q db) as (img & ans & db1 & ->).
  specialize (IH db1). destruct (processImportedQuestions gen qs db1) as [ps db2]. simpl in *.
  by rewrite IH.
Qed.

(** Claim C3 (as amended): when the local exams, questions and tags each
    have pairwise distinct ids, [mergeData] does not shrink any collection,
    and a local record whose id the snapshot does not carry is still
    present, unchanged. *)
Theorem mergeData_additive (gen : gset string -> string) (now : string) (w : World) (data : AppState) :
  NoDup (map e_id (exams (st w))) -> NoDup (map q_id (questions (st w))) ->
  NoDup (map t_id (tags (st w))) ->
  let s' := st (mergeData gen now w data) in
  List.length (exams (st w)) <= List.length (exams s') /\
  List.length (questions (st w)) <= List.length (questions s') /\
  List.length (tags (st w)) <= List.length (tags s') /\
  (forall e, In e (exams (st w)) -> ~ In (e_id e) (map e_id (exams data)) -> In e (exams s')) /\
  (forall q, In q (questions (st w)) -> ~ In (q_id q) (map q_id (questions data)) -> In q (questions s')) /\
  (forall t, In t (tags (st w)) -> ~ In (t_id t) (map t_id (tags data)) -> In t (tags s')).
Proof.
  intros He Hq Ht. unfold mergeData.
  pose proof (processImported_ids gen (questions data) (blobs w)) as Hids.
  destruct (processImportedQuestions gen (questions data) (blobs w)) as [ps db]. simpl in *.
  destruct (merge_collection_keeps e_id spread_exam _ (exams data) He) as [He1 He2].
  destruct (merge_collection_keeps q_id spread_question _ ps Hq) as [Hq1 Hq2].
  destruct (merge_collection_keeps t_id spread_tag _ (tags data) Ht) as [Ht1 Ht2].
  split; [done|]. split; [done|]. split; [done|]. split; [done|]. split; [|done].
  intros q Hin Hnot. apply Hq2; [done|]. by rewrite Hids.
Qed.

Lemma mergeData_additive_witness :
  let w := {| st := {| exams := [sample_exam "e1" "Midterm"];
                       questions := [sample_question "q1" "e1" None None []]; tags := [] |};
              blobs := ∅ |} in
  let data := {| exams := [sample_exam "e2" "Final"]; questions := []; tags := [] |} in
  In (sample_exam "e1" "Midterm") (exams (st (mergeData uuid_gen "now" w data))).
Proof.
  intros w data.
  destruct (mergeData_additive uuid_gen "now" w data) as (_ & _ & _ & H & _).
  - vm_compute. repeat constructor; set_solver.
  - vm_compute. repeat constructor; set_solver.
  - vm_compute. constructor.
  - apply H; [by left | simpl; intros [H1 | []]; discriminate].
Defined.

(** Claim C3 as stated fails: the local collection is first turned into a
    [Map] keyed by id, so two local exams sharing an id (a state reached,
    for instance, by [replaceData] of a document that repeats an id) collapse
    into one, and merging even an empty snapshot shrinks the count. *)
Lemma mergeData_collapses_local_duplicates :
  ~ (forall (gen : gset string -> string) (now : string) (w : World) (data : AppState),
       List.length (exams (st w)) <= List.length (exams (st (mergeData gen now w data)))).
Proof.
  intros H.
  specialize (H uuid_gen "now"
                {| st := {| exams := [sample_exam "e1" "Midterm"; sample_exam "e1" "Midterm (copy)"];
                            questions := []; tags := [] |}; blobs := ∅ |}
                {| exams := []; questions := []; tags := [] |}).
  vm_compute in H. lia.
Qed.

(** Claim C4 (as amended): when every collection of the local state and of
    the snapshot has pairwise distinct ids, a record whose id is on both
    sides appears in the merged state with the snapshot's value for every
    field the snapshot record carries and the local value for every field it
    lacks; in particular a local tag [{name: "A", color: "#000"}] merged with
    an incoming [{name: "A2"}] gives [{name: "A2", color: "#000"}]. *)
Theorem merge_collision_incoming_wins (now : string) (s data : AppState) :
  NoDup (map e_id (exams s)) -> NoDup (map q_id (questions s)) -> NoDup (map t_id (tags s)) ->
  NoDup (map e_id (exams data)) -> NoDup (map q_id (questions data)) ->
  NoDup (map t_id (tags data)) ->
  let s' := appReducer now s (MERGE_DATA data) in
  (forall l i, In l (exams s) -> In i (exams data) -> e_id l = e_id i ->
     exists r, In r (exams s') /\ e_id r = e_id i /\ e_name r = e_name i /\
       e_subject r = over (e_subject i) (e_subject l) /\
       e_examDate r = over (e_examDate i) (e_examDate l) /\
       e_createdAt r = e_createdAt i /\ e_updatedAt r = e_updatedAt i) /\
  (forall l i, In l (questions s) -> In i (questions data) -> q_id l = q_id i ->
     exists r, In r (questions s') /\ q_id r = q_id i /\ q_examId r = q_examId i /\
       q_type r = q_type i /\ q_imageUrl r = over (q_imageUrl i) (q_imageUrl l) /\
       q_text r = over (q_text i) (q_text l) /\ q_tags r = q_tags i /\
       q_difficulty r = over (q_difficulty i) (q_difficulty l) /\ q_status r = q_status i /\
       q_notes r = over (q_notes i) (q_notes l) /\ q_answer r = over (q_answer i) (q_answer l) /\
       q_createdAt r = q_createdAt i /\ q_updatedAt r = q_updatedAt i /\
       q_lastReviewedAt r = over (q_lastReviewedAt i) (q_lastReviewedAt l)) /\
  (forall l i, In l (tags s) -> In i (tags data) -> t_id l = t_id i ->
     exists r, In r (tags s') /\ t_id r = t_id i /\ t_name r = over (t_name i) (t_name l) /\
       t_color r = over (t_color i) (t_color l) /\ t_examId r = over (t_examId i) (t_examId l)) /\
  tags (appReducer now
          {| exams := []; questions := [];
             tags := [{| t_id := "t1"; t_name := Some "A"; t_color := Some "#000"; t_examId := None |}] |}
          (MERGE_DATA {| exams := []; questions := [];
                         tags := [{| t_id := "t1"; t_name := Some "A2"; t_color := None; t_examId := None |}] |}))
  = [{| t_id := "t1"; t_name := Some "A2"; t_color := Some "#000"; t_examId := None |}].
Proof.
  intros H1 H2 H3 H4 H5 H6. simpl. split; [|split; [|split]].
  - intros l i Hl Hi Hid. exists (spread_exam (Some l) i).
    split; [by apply merge_collection_collision|]. simpl. done.
  - intros l i Hl Hi Hid. exists (spread_question (Some l) i).
    split; [by apply merge_collection_collision|]. simpl. done.
  - intros l i Hl Hi Hid. exists (spread_tag (Some l) i).
    split; [by apply merge_collection_collision|]. simpl. done.
  - reflexivity.
Qed.

Lemma merge_collision_incoming_wins_witness :
  exists r, In r (exams (appReducer "now"
                    {| exams := [sample_exam "e1" "Midterm"]; questions := []; tags := [] |}
                    (MERGE_DATA {| exams := [sample_exam "e1" "Midterm v2"]; questions := []; tags := [] |})))
    /\ e_name r = "Midterm v2".
Proof.
  destruct (merge_collision_incoming_wins "now"
              {| exams := [sample_exam "e1" "Midterm"]; questions := []; tags := [] |}
              {| exams := [sample_exam "e1" "Midterm v2"]; questions := []; tags := [] |})
    as (He & _ & _ & _); [simpl; repeat constructor; set_solver .. |].
  destruct (He (sample_exam "e1" "Midterm") (sample_exam "e1" "Midterm v2")) as (r & Hr & _ & Hn & _);
    [by left | by left | reflexivity |].
  exists r. by split.
Defined.

(** Claim C4 as stated fails when the snapshot repeats an id: the second
    incoming tag is merged over the result of the first, so the merged tag
    has neither the first incoming record's [name] nor, for [color], the
    local value. *)
Lemma merge_repeated_incoming_id :
  ~ (forall (now : string) (s data : AppState) (l i : Tag),
       In l (tags s) -> In i (tags data) -> t_id l = t_id i ->
       exists r, In r (tags (appReducer now s (MERGE_DATA data))) /\ t_id r = t_id i /\
         t_name r = over (t_name i) (t_name l) /\ t_color r = over (t_color i) (t_color l)).
Proof.
  intros H.
  set (local := {| t_id := "t1"; t_name := Some "A"; t_color := Some "#000"; t_examId := None |}).
  set (inc1 := {| t_id := "t1"; t_name := Some "A2"; t_color := Some "#fff"; t_examId := None |}).
  set (inc2 := {| t_id := "t1"; t_name := Some "A3"; t_color := None; t_examId := None |}).
  destruct (H "now" {| exams := []; questions := []; tags := [local] |}
                    {| exams := []; questions := []; tags := [inc1; inc2] |} local inc1)
    as (r & Hr & _ & Hn & _); [by left | by left | reflexivity |].
  vm_compute in Hr. destruct Hr as [<- | []]. vm_compute in Hn. discriminate.
Qed.

(** ** Import validation *)

Lemma array_of_Some v l : array_of v = Some l -> v = Some (JArr l).
Proof. destruct v as [[]|]; simpl; congruence. Qed.

Lemma prop_object v k x : prop v k = Some x -> exists fs, v = JObj fs.
Proof. destruct v; simpl; try discriminate. eauto. Qed.

(** Claim C5: a parsed document whose [data] lacks an [exams] array or a
    [questions] array is rejected: one alert carries the error message
    (["Invalid backup file format."], or the [TypeError] of reading [data]
    on [null]), and neither the records, the blob store nor the pending
    import change. A document with both arrays and no [tags] goes on to the
    import dialog with [tags] defaulted to the empty array, without alert. *)
Theorem handleFileImport_validation :
  (forall (doc : JSON) (h : HomeScreen),
     ~ (exists a es qs, prop doc "data" = Some a /\ prop a "exams" = Some (JArr es) /\
                        prop a "questions" = Some (JArr qs)) ->
     exists msg, (msg = "Invalid backup file format." \/ doc = JNull) /\
       handleFileImport doc h =
       {| home_world := home_world h; importedData := importedData h;
          alerts := alerts h ++ ["Import failed: " ++ msg] |}) /\
  (forall (doc a : JSON) (es qs : list JSON) (h : HomeScreen),
     prop doc "data" = Some a -> prop a "exams" = Some (JArr es) ->
     prop a "questions" = Some (JArr qs) -> prop a "tags" = None ->
     handleFileImport doc h =
     {| home_world := home_world h;
        importedData := Some {| im_exams := es; im_questions := qs; im_tags := JArr [] |};
        alerts := alerts h |}).
Proof.
  split.
  - intros doc h Hno. unfold handleFileImport, validate.
    destruct doc as [| | | | |fs];
      try (eexists; split; [left; reflexivity | reflexivity]).
    + eexists. split; [right; reflexivity | reflexivity].
    + destruct (prop (JObj fs) "data") as [a|] eqn:Ha;
        [|eexists; split; [left; reflexivity | reflexivity]].
      destruct (truthy (Some a)); [|eexists; split; [left; reflexivity | reflexivity]].
      destruct (array_of (prop a "exams")) as [es|] eqn:E1;
      destruct (array_of (prop a "questions")) as [qs|] eqn:E2;
        try (eexists; split; [left; reflexivity | reflexivity]).
      exfalso. apply Hno. exists a, es, qs.
      split; [done|]. split; by apply array_of_Some.
  - intros doc a es qs h Ha He Hq Ht. unfold handleFileImport, validate.
    destruct (prop_object _ _ _ Ha) as [fs ->].
    destruct (prop_object _ _ _ He) as [fs' ->].
    rewrite Ha. cbn [truthy]. rewrite He, Hq, Ht. reflexivity.
Qed.

Lemma handleFileImport_validation_witness :
  let h := {| home_world := {| st := {| exams := []; questions := []; tags := [] |}; blobs := ∅ |};
              importedData := None; alerts := [] |} in
  handleFileImport (JObj [("version", JStr "1.0.0"); ("data", JObj [("exams", JArr [])])]) h
  = {| home_world := home_world h; importedData := None;
       alerts := ["Import failed: Invalid backup file format."] |}.
Proof.
  intros h.
  destruct (proj1 handleFileImport_validation
              (JObj [("version", JStr "1.0.0"); ("data", JObj [("exams", JArr [])])]) h)
    as (msg & Hm & Hh).
  - intros (a & es & qs & Ha & He & Hq). simpl in Ha. injection Ha as <-. discriminate.
  - rewrite Hh. destruct Hm as [Hm | Hm]; [|discriminate].
    rewrite Hm. reflexivity.
Defined.

(** ** Upload digests *)

Lemma byte_hex_spec b : exists x y, byte_hex b = String x (String y EmptyString) /\
  hex_digit x && hex_digit y = true /\ 16 * hex_value x + hex_value y = Byte.to_nat b.
Proof. destruct b; do 2 eexists; (split; [reflexivity | split; reflexivity]). Qed.

Lemma append_cons c (s t : string) : String c s ++ t = String c (s ++ t).
Proof. reflexivity. Qed.

Lemma append_empty_r (s : string) : s ++ "" = s.
Proof. induction s as [|c s IH]; [reflexivity|]. by rewrite append_cons, IH. Qed.

Lemma concat_empty_cons (x : string) l : String.concat "" (x :: l) = x ++ String.concat "" l.
Proof. destruct l; simpl; [by rewrite append_empty_r | reflexivity]. Qed.

Lemma hex_of_bytes l :
  hex_bytes (String.concat "" (map byte_hex l)) = map Byte.to_nat l /\
  hex_string (String.concat "" (map byte_hex l)) = true /\
  String.length (String.concat "" (map byte_hex l)) = 2 * List.length l.
Proof.
  induction l as [|b l IH]; [done|].
  simpl map. rewrite concat_empty_cons.
  destruct (byte_hex_spec b) as (x & y & -> & Hd & Hv).
  destruct IH as (IH1 & IH2 & IH3). rewrite !append_cons.
  change ("" ++ ?t) with t. cbn [hex_bytes hex_string String.length List.length].
  rewrite IH1, Hv, IH2, IH3. apply andb_true_iff in Hd as [Hx Hy]. rewrite Hx, Hy.
  split; [done|]. split; [done|]. lia.
Qed.

Section ScanFacts.
Variable sha256 : list Byte.byte -> list Byte.byte.
Variable readAsDataURL : File -> string.
Variable e : string.

Local Notation scan := (scan_files sha256 readAsDataURL e).

Lemma scan_acc xs : forall h acc k,
  scan xs h acc k = ((scan xs h [] 0).1.1, (acc ++ (scan xs h [] 0).1.2)%list, k + (scan xs h [] 0).2).
Proof.
  induction xs as [|f fs IH]; intros h acc k; simpl.
  - by rewrite app_nil_r, Nat.add_0_r.
  - destruct (negb _); [apply IH|].
    destruct (mem _ _).
    + rewrite (IH h acc (S k)), (IH h [] 1). simpl. f_equal. lia.
    + rewrite (IH _ (acc ++ _)%list k), (IH _ [_] 0). simpl. by rewrite <- app_assoc.
Qed.

Lemma scan_app xs ys h acc k :
  scan (xs ++ ys)%list h acc k = let '(h1, a1, k1) := scan xs h acc k in scan ys h1 a1 k1.
Proof.
  revert h acc k. induction xs as [|f fs IH]; intros h acc k; simpl; [done|].
  destruct (negb _); [apply IH|]. destruct (mem _ _); apply IH.
Qed.

Lemma scan_hashes xs : forall h acc k x,
  x ∈ (scan xs h acc k).1.1 <->
  x ∈ h \/ x ∈ map (calculateHash sha256) (List.filter is_image xs).
Proof.
  unfold is_image.
  induction xs as [|f fs IH]; intros h acc k x; simpl.
  - rewrite elem_of_nil. tauto.
  - destruct (String.prefix "image/" (f_type f)) eqn:Hi; simpl.
    + destruct (mem _ h) eqn:Hm.
      * rewrite IH. apply mem_In, list_elem_of_In in Hm. rewrite elem_of_cons.
        split; [tauto|]. intros [?|[->|?]]; auto.
      * rewrite IH, !elem_of_cons. tauto.
    + apply IH.
Qed.

End ScanFacts.

(** Claim C6: [calculateHash] is a function of the file bytes whose result
    spells the SHA-256 digest in lowercase hex, two digits per byte. In
    [handleFiles] a file is first tested for an [image/] type: a file of any
    other type is passed over without being counted. An image file whose
    digest is among those already present (digests in the notes of the
    exam's image questions, or of an earlier image file of the batch) only
    increments the skipped count; any other image file yields one new
    question data record. Two image files with identical bytes, whose digest
    the exam does not hold yet, thus give exactly one new question and a
    skipped count of 1. *)
Theorem upload_dedup_by_digest (sha256 : list Byte.byte -> list Byte.byte)
    (readAsDataURL : File -> string) :
  (forall f g : File, f_bytes f = f_bytes g -> calculateHash sha256 f = calculateHash sha256 g) /\
  (forall f : File,
     hex_bytes (calculateHash sha256 f) = map Byte.to_nat (sha256 (f_bytes f)) /\
     hex_string (calculateHash sha256 f) = true /\
     String.length (calculateHash sha256 f) = 2 * List.length (sha256 (f_bytes f))) /\
  (forall e files h f, is_image f = false ->
     scan_files sha256 readAsDataURL e (files ++ [f])%list h [] 0 =
     scan_files sha256 readAsDataURL e files h [] 0) /\
  (forall e files h f, is_image f = true ->
     calculateHash sha256 f ∈ (h ++ map (calculateHash sha256) (List.filter is_image files))%list ->
     (scan_files sha256 readAsDataURL e (files ++ [f])%list h [] 0).1.2 =
       (scan_files sha256 readAsDataURL e files h [] 0).1.2 /\
     (scan_files sha256 readAsDataURL e (files ++ [f])%list h [] 0).2 =
       S (scan_files sha256 readAsDataURL e files h [] 0).2) /\
  (forall e files h f, is_image f = true ->
     calculateHash sha256 f ∉ (h ++ map (calculateHash sha256) (List.filter is_image files))%list ->
     (scan_files sha256 readAsDataURL e (files ++ [f])%list h [] 0).1.2 =
       ((scan_files sha256 readAsDataURL e files h [] 0).1.2 ++ [upload_question sha256 readAsDataURL e f])%list /\
     (scan_files sha256 readAsDataURL e (files ++ [f])%list h [] 0).2 =
       (scan_files sha256 readAsDataURL e files h [] 0).2) /\
  (forall gen now w examId f, is_image f = true ->
     calculateHash sha256 f ∉
       existing_hashes (List.filter (fun q => String.eqb (q_examId q) examId) (questions (st w))) ->
     let '(nd, k, w') := handleFiles sha256 readAsDataURL gen now w examId [f; f] in
     nd = [upload_question sha256 readAsDataURL examId f] /\ k = 1 /\
     exams (st w') = exams (st w) /\ tags (st w') = tags (st w) /\
     exists q, questions (st w') = (questions (st w) ++ [q])%list /\
               q_examId q = examId /\ q_notes q = Some (calculateHash sha256 f)).
Proof.
  split; [intros f g Hb; unfold calculateHash; by rewrite Hb|].
  split; [intros f; apply hex_of_bytes|].
  split.
  { intros e files h f Hi. rewrite scan_app.
    destruct (scan_files _ _ _ files h [] 0) as [[h1 a1] k1]. simpl.
    unfold is_image in Hi. by rewrite Hi. }
  split.
  { intros e files h f Hi Hin. rewrite scan_app.
    pose proof (scan_hashes sha256 readAsDataURL e files h [] 0 (calculateHash sha256 f)) as Hh.
    destruct (scan_files _ _ _ files h [] 0) as [[h1 a1] k1]. simpl in Hh |- *.
    unfold is_image in Hi. rewrite Hi. simpl.
    assert (mem (calculateHash sha256 f) h1 = true) as ->.
    { apply mem_In, list_elem_of_In, Hh. by apply elem_of_app in Hin. }
    done. }
  split.
  { intros e files h f Hi Hin. rewrite scan_app.
    pose proof (scan_hashes sha256 readAsDataURL e files h [] 0 (calculateHash sha256 f)) as Hh.
    destruct (scan_files _ _ _ files h [] 0) as [[h1 a1] k1]. simpl in Hh |- *.
    unfold is_image in Hi. rewrite Hi. simpl.
    assert (mem (calculateHash sha256 f) h1 = false) as ->.
    { apply mem_false. intros Hx. apply Hin, elem_of_app, Hh, list_elem_of_In, Hx. }
    done. }
  intros gen now w examId f Hi Hnew.
  unfold handleFiles, scan_files. unfold is_image in Hi. rewrite Hi. simpl negb. cbv iota.
  assert (mem (calculateHash sha256 f)
            (existing_hashes (List.filter (fun q => String.eqb (q_examId q) examId) (questions (st w))))
          = false) as ->.
  { apply mem_false. intros Hx. apply Hnew, list_elem_of_In, Hx. }
  assert (mem (calculateHash sha256 f) (calculateHash sha256 f ::
            existing_hashes (List.filter (fun q => String.eqb (q_examId q) examId) (questions (st w))))
          = true) as ->.
  { apply mem_In. by left. }
  simpl. unfold addQuestions. simpl.
  destruct (process_new gen (upload_question sha256 readAsDataURL examId f) (blobs w)) as [p db] eqn:Hp.
  assert (d_examId p = examId /\ d_notes p = Some (calculateHash sha256 f)) as [Hpe Hpn].
  { unfold process_new in Hp. simpl in Hp.
    destruct (String.prefix "data:image" (readAsDataURL f)); injection Hp as <- _; done. }
  simpl. split; [done|]. split; [done|]. split; [done|]. split; [done|].
  eexists. split; [reflexivity|]. done.
Qed.

Lemma upload_dedup_by_digest_witness :
  let f := mkFile "image/png" [Byte.x41] in
  let w := {| st := {| exams := []; questions := []; tags := [] |}; blobs := ∅ |} in
  let '(nd, k, w') := handleFiles (fun l => l) (fun _ => "data:image/png;base64,QQ==")
                                  uuid_gen "now" w "e1" [f; f] in
  k = 1 /\ List.length nd = 1 /\ List.length (questions (st w')) = 1.
Proof.
  intros f w.
  pose proof (proj2 (proj2 (proj2 (proj2 (proj2
    (upload_dedup_by_digest (fun l => l) (fun _ => "data:image/png;base64,QQ=="))))))
    uuid_gen "now" w "e1" f eq_refl) as H.
  assert (calculateHash (fun l => l) f ∉
          existing_hashes (List.filter (fun q => String.eqb (q_examId q) "e1") (questions (st w))))
    as Hn by (simpl; apply not_elem_of_nil).
  specialize (H Hn). revert H.
  destruct (handleFiles _ _ _ _ _ _ _) as [[nd k] w'].
  intros (-> & -> & _ & _ & q & -> & _). simpl. split; [reflexivity|]. split; reflexivity.
Defined.

(** Claim C6, counterexample: two files with identical bytes whose type is
    not [image/] produce no question and a skipped count of 0. *)
Lemma upload_non_image_uncounted :
  let f := mkFile "text/plain" [Byte.x41] in
  let w := {| st := {| exams := []; questions := []; tags := [] |}; blobs := ∅ |} in
  handleFiles (fun l => l) (fun _ => "data:text/plain;base64,QQ==") uuid_gen "now" w "e1" [f; f]
  = ([], 0, w).
Proof. reflexivity. Qed.

(** ** Blob Store references *)

Lemma substring_all (s : string) : substring 0 (String.length s) s = s.
Proof. induction s as [|c s IH]; [done|]. simpl. by rewrite IH. Qed.

Lemma ref_length (key : string) : String.length ("idb://" ++ key) = 6 + String.length key.
Proof. reflexivity. Qed.

Lemma prefix_ref (key : string) : String.prefix "idb://" ("idb://" ++ key) = true.
Proof. destruct key; reflexivity. Qed.

Lemma actualKey_ref (key : string) : actualKey ("idb://" ++ key) = key.
Proof.
  unfold actualKey. rewrite <- (substring_all key) at 2.
  change (replace_first "idb://" "" ("idb://" ++ key))
    with (if String.prefix "idb://" ("idb://" ++ key)
          then "" ++ substring 6 (String.length ("idb://" ++ key) - 6) ("idb://" ++ key)
          else match "idb://" ++ key with
               | EmptyString => EmptyString
               | String c s' => String c (replace_first "idb://" "" s')
               end).
  rewrite prefix_ref, ref_length. replace (6 + String.length key - 6) with (String.length key) by lia.
  reflexivity.
Qed.

Lemma isImageKey_ref (key : string) : isImageKey (Some ("idb://" ++ key)) = true.
Proof. apply prefix_ref. Qed.

Lemma ref_not_base64 (s : string) : isImageKey (Some s) = true -> isBase64 (Some s) = false.
Proof.
  intros H. destruct s as [|c s]; [discriminate|].
  assert (c = "i"%char) as ->; [|reflexivity].
  unfold isImageKey in H. cbn [String.prefix] in H.
  destruct (Ascii.ascii_dec "i" c); [done | discriminate].
Qed.

Lemma extracted_weaken db db' u k : db ⊆ db' -> extracted db u k -> extracted db' u k.
Proof.
  unfold extracted, getImage. destruct (isBase64 (Some u)); [|done].
  intros Hs [Hk Hg]. split; [done|]. by eapply lookup_weaken.
Qed.

Lemma extracted_not_base64 db u k : extracted db u k -> isBase64 (Some k) = false.
Proof.
  unfold extracted. destruct (isBase64 (Some u)) eqn:Hu.
  - intros [Hk _]. by apply ref_not_base64.
  - by intros ->.
Qed.

Section FreshKeys.
Variable gen : gset string -> string.
Hypothesis gen_fresh : forall X, gen X ∉ X.

Lemma storeImage_spec u db :
  db ⊆ (storeImage gen u db).2 /\
  isImageKey (Some (storeImage gen u db).1) = true /\
  getImage (storeImage gen u db).1 (storeImage gen u db).2 = Some u.
Proof.
  unfold storeImage, getImage. simpl. rewrite actualKey_ref.
  split; [|split; [apply isImageKey_ref | by rewrite lookup_insert_eq]].
  apply insert_subseteq, not_elem_of_dom, gen_fresh.
Qed.

Lemma store_all_spec us : forall db,
  db ⊆ (store_all gen us db).2 /\ Forall2 (extracted (store_all gen us db).2) us (store_all gen us db).1.
Proof.
  induction us as [|u us IH]; intros db; simpl; [split; [done | constructor]|].
  destruct (String.prefix "data:image" u) eqn:Hu.
  - destruct (storeImage_spec u db) as (H1 & H2 & H3).
    destruct (storeImage gen u db) as [k db1]. simpl in *.
    destruct (IH db1) as [H4 H5]. destruct (store_all gen us db1) as [ks db2]. simpl in *.
    split; [by transitivity db1|]. constructor; [|done].
    unfold extracted, isBase64. rewrite Hu. split; [done|]. unfold getImage in *. by eapply lookup_weaken.
  - destruct (IH db) as [H4 H5]. destruct (store_all gen us db) as [ks db2]. simpl in *.
    split; [done|]. constructor; [|done]. unfold extracted, isBase64. by rewrite Hu.
Qed.

End FreshKeys.

Lemma store_all_plain gen ks db :
  Forall (fun k => isBase64 (Some k) = false) ks -> store_all gen ks db = (ks, db).
Proof.
  induction 1 as [|k ks Hk _ IH]; [done|]. simpl. unfold isBase64 in Hk. rewrite Hk, IH. reflexivity.
Qed.

Lemma extracted_plain db u k : isBase64 (Some u) = false -> extracted db u k -> k = u.
Proof. unfold extracted. by intros ->. Qed.

Lemma extracted_compose db1 db2 u k0 k :
  db1 ⊆ db2 -> extracted db1 u k0 -> extracted db2 k0 k -> extracted db2 u k.
Proof.
  intros Hs H1 H2. apply extracted_plain in H2; [|by eapply extracted_not_base64]. subst.
  by eapply extracted_weaken.
Qed.

Lemma Forall2_extracted_compose db1 db2 us ks0 ks :
  db1 ⊆ db2 -> Forall2 (extracted db1) us ks0 -> Forall2 (extracted db2) ks0 ks ->
  Forall2 (extracted db2) us ks.
Proof.
  intros Hs H1. revert ks. induction H1 as [|u k0 us ks0 Hu _ IH]; intros ks H2; inversion H2; subst;
    constructor; eauto using extracted_compose.
Qed.

Lemma Forall2_extracted_changes db us ks :
  Forall2 (extracted db) us ks -> Exists (fun u => isBase64 (Some u) = true) us -> ks <> us.
Proof.
  intros H1 H2 Heq. subst ks.
  induction H2 as [u us Hb|u us _ IH]; inversion H1 as [|? ? ? ? Hu Hrest]; subst.
  - unfold extracted in Hu. rewrite Hb in Hu. destruct Hu as [Hk _].
    apply ref_not_base64 in Hk. congruence.
  - by apply IH.
Qed.

Section ImportStages.
Variable gen : gset string -> string.
Hypothesis gen_fresh : forall X, gen X ∉ X.
Variable l : ImportAliasing.loc.
Variable txt : option string.
Variable urls : list string.

Lemma process_imported_stage q hp db :
  db ⊆ (ImportAliasing.process_imported gen q hp db).2 /\
  ((exists ks0, hp !! l = Some (mkAnswer txt (Some ks0)) /\ Forall2 (extracted db) urls ks0) ->
   exists ks, (ImportAliasing.process_imported gen q hp db).1.2 !! l = Some (mkAnswer txt (Some ks)) /\
              Forall2 (extracted (ImportAliasing.process_imported gen q hp db).2) urls ks) /\
  (hp !! l = Some (mkAnswer txt (Some urls)) -> ImportAliasing.hq_answer q = Some l ->
   exists ks, (ImportAliasing.process_imported gen q hp db).1.2 !! l = Some (mkAnswer txt (Some ks)) /\
              Forall2 (extracted (ImportAliasing.process_imported gen q hp db).2) urls ks) /\
  (ImportAliasing.hq_answer q <> Some l ->
   (ImportAliasing.process_imported gen q hp db).1.2 !! l = hp !! l).
Proof.
  unfold ImportAliasing.process_imported.
  assert (exists nq db1,
            match ImportAliasing.hq_imageUrl q with
            | Some u => if isBase64 (Some u)
                        then let '(k, d) := storeImage gen u db in (ImportAliasing.with_image q (Some k), d)
                        else (q, db)
            | None => (q, db)
            end = (nq, db1) /\ db ⊆ db1 /\ ImportAliasing.hq_answer nq = ImportAliasing.hq_answer q)
    as (nq & db1 & -> & Hs1 & Ha1).
  { destruct (ImportAliasing.hq_imageUrl q) as [u|]; [|by eauto].
    destruct (isBase64 (Some u)); [|by eauto].
    destruct (storeImage_spec gen gen_fresh u db) as (Hs & _ & _).
    destruct (storeImage gen u db) as [k d]. by eauto. }
  rewrite Ha1. destruct (ImportAliasing.hq_answer q) as [l'|] eqn:Ha.
  2:{ simpl. split; [done|]. split; [intros (ks0 & H1 & H2); eauto using Forall2_impl, extracted_weaken|].
      split; [discriminate | done]. }
  destruct (hp !! l') as [[t [us|]]|] eqn:Hl.
  2,3: simpl; split; [done|];
       split; [intros (ks0 & H1 & H2); eauto using Forall2_impl, extracted_weaken|];
       split; [intros H1 [= <-]; congruence | done].
  destruct (store_all_spec gen gen_fresh us db1) as [Hs2 Hf].
  destruct (store_all gen us db1) as [ks db2]. simpl in *.
  split; [by transitivity db1|].
  destruct (decide (l' = l)) as [->|Hne].
  - rewrite lookup_insert_eq.
    split; [|split; [|done]].
    + intros (ks0 & H1 & H2). rewrite Hl in H1. injection H1 as -> ->.
      exists ks. split; [done|].
      eapply Forall2_extracted_compose; [|exact H2|exact Hf]. by transitivity db1.
    + intros H1 _. rewrite Hl in H1. injection H1 as -> ->. eauto.
  - rewrite lookup_insert_ne by done.
    split; [|split; [intros _ [= ?]; congruence | done]].
    intros (ks0 & H1 & H2). exists ks0. split; [done|].
    eapply Forall2_impl; [exact H2|]. intros u k. apply extracted_weaken. by transitivity db1.
Qed.

Lemma processImported_stage qs : forall hp db,
  db ⊆ (ImportAliasing.processImportedQuestions gen qs hp db).2 /\
  ((exists ks0, hp !! l = Some (mkAnswer txt (Some ks0)) /\ Forall2 (extracted db) urls ks0) ->
   exists ks, (ImportAliasing.processImportedQuestions gen qs hp db).1.2 !! l = Some (mkAnswer txt (Some ks)) /\
              Forall2 (extracted (ImportAliasing.processImportedQuestions gen qs hp db).2) urls ks) /\
  (hp !! l = Some (mkAnswer txt (Some urls)) ->
   (exists q, In q qs /\ ImportAliasing.hq_answer q = Some l) ->
   exists ks, (ImportAliasing.processImportedQuestions gen qs hp db).1.2 !! l = Some (mkAnswer txt (Some ks)) /\
              Forall2 (extracted (ImportAliasing.processImportedQuestions gen qs hp db).2) urls ks).
Proof.
  induction qs as [|q qs IH]; intros hp db; simpl.
  - split; [done|]. split; [done|]. by intros _ (q & [] & _).
  - destruct (process_imported_stage q hp db) as (Hs & Hd & Hu & Hn).
    destruct (ImportAliasing.process_imported gen q hp db) as [[p hp1] db1]. simpl in *.
    destruct (IH hp1 db1) as (Hs' & Hd' & Hu').
    destruct (ImportAliasing.processImportedQuestions gen qs hp1 db1) as [[ps hp2] db2]. simpl in *.
    split; [by transitivity db1|]. split; [auto|].
    intros Horig (q' & Hin & Hq').
    destruct (decide (ImportAliasing.hq_answer q = Some l)) as [Hq|Hq]; [by auto|].
    apply Hu'; [by rewrite Hn | ].
    destruct Hin as [->|Hin]; [done | eauto].
Qed.

End ImportStages.

(** Claim C10: [processImportedQuestions] copies each question shallowly,
    so the [answer] object it rewrites is the one of the caller's document.
    For an imported question whose answer object (at address [l]) holds
    [imageUrls = urls], after [mergeData] as after [replaceData] that same
    object holds [urls] with every data URI replaced by a Blob Store
    reference that reads back that data URI (other urls kept); when [urls]
    holds a data URI, the object no longer holds [urls]. *)
Theorem import_rewrites_caller_answer (gen : gset string -> string)
    (gen_fresh : forall X, gen X ∉ X)
    (w : ImportAliasing.HWorld) (data : list ImportAliasing.HQuestion)
    (q : ImportAliasing.HQuestion) (l : ImportAliasing.loc) (txt : option string) (urls : list string) :
  In q data -> ImportAliasing.hq_answer q = Some l ->
  ImportAliasing.heap w !! l = Some (mkAnswer txt (Some urls)) ->
  (exists ks,
     ImportAliasing.heap (ImportAliasing.mergeData gen w data) !! l = Some (mkAnswer txt (Some ks)) /\
     Forall2 (extracted (ImportAliasing.hw_blobs (ImportAliasing.mergeData gen w data))) urls ks /\
     (Exists (fun u => isBase64 (Some u) = true) urls -> ks <> urls)) /\
  (exists ks,
     ImportAliasing.heap (ImportAliasing.replaceData gen w data) !! l = Some (mkAnswer txt (Some ks)) /\
     Forall2 (extracted (ImportAliasing.hw_blobs (ImportAliasing.replaceData gen w data))) urls ks /\
     (Exists (fun u => isBase64 (Some u) = true) urls -> ks <> urls)).
Proof.
  intros Hin Ha Hl. unfold ImportAliasing.mergeData, ImportAliasing.replaceData.
  split.
  - destruct (processImported_stage gen gen_fresh l txt urls data (ImportAliasing.heap w)
                (ImportAliasing.hw_blobs w)) as (_ & _ & Hu).
    destruct (Hu Hl (ex_intro _ q (conj Hin Ha))) as (ks & H1 & H2).
    destruct (ImportAliasing.processImportedQuestions _ _ _ _) as [[ps hp] db]. simpl in *.
    exists ks. split; [done|]. split; [done|]. by apply Forall2_extracted_changes with db.
  - match goal with |- context [ImportAliasing.processImportedQuestions gen data _ ?d] =>
      destruct (processImported_stage gen gen_fresh l txt urls data (ImportAliasing.heap w) d)
        as (_ & _ & Hu) end.
    destruct (Hu Hl (ex_intro _ q (conj Hin Ha))) as (ks & H1 & H2).
    destruct (ImportAliasing.processImportedQuestions _ _ _ _) as [[ps hp] db]. simpl in *.
    exists ks. split; [done|]. split; [done|]. by apply Forall2_extracted_changes with db.
Qed.

Lemma import_rewrites_caller_answer_witness :
  let a := mkAnswer None (Some ["data:image/png;base64,QQ=="; "https://example.org/a.png"]) in
  let q := {| ImportAliasing.hq_id := "q1"; ImportAliasing.hq_examId := "e1";
              ImportAliasing.hq_type := QText; ImportAliasing.hq_imageUrl := None;
              ImportAliasing.hq_text := Some "Q"; ImportAliasing.hq_tags := [];
              ImportAliasing.hq_difficulty := None; ImportAliasing.hq_status := New;
              ImportAliasing.hq_notes := None; ImportAliasing.hq_answer := Some 0;
              ImportAliasing.hq_createdAt := "t"; ImportAliasing.hq_updatedAt := "t";
              ImportAliasing.hq_lastReviewedAt := None |} in
  let w := {| ImportAliasing.hw_questions := []; ImportAliasing.heap := {[0 := a]};
              ImportAliasing.hw_blobs := ∅ |} in
  exists ks,
    ImportAliasing.heap (ImportAliasing.mergeData uuid_gen w [q]) !! 0 = Some (mkAnswer None (Some ks)) /\
    ks <> ["data:image/png;base64,QQ=="; "https://example.org/a.png"].
Proof.
  intros a q w.
  destruct (proj1 (import_rewrites_caller_answer uuid_gen (fun X => is_fresh X) w [q] q 0 None
                     ["data:image/png;base64,QQ=="; "https://example.org/a.png"]
                     (or_introl eq_refl) eq_refl eq_refl)) as (ks & H1 & _ & H3).
  exists ks. split; [exact H1|]. apply H3. left. reflexivity.
Defined.

(** ** Reference liveness *)

Lemma prefix_app (p s : string) : String.prefix p s = true -> exists r, s = p ++ r.
Proof.
  revert s. induction p as [|c p IH]; intros s H; [by exists s|].
  destruct s as [|c' s]; [discriminate|].
  cbn [String.prefix] in H. destruct (Ascii.ascii_dec c c') as [<-|]; [|discriminate].
  destruct (IH s H) as [r ->]. exists r. by rewrite append_cons.
Qed.

Lemma ref_shape (k : string) : isImageKey (Some k) = true -> k = "idb://" ++ actualKey k.
Proof. intros H. destruct (prefix_app _ _ H) as [r ->]. by rewrite actualKey_ref. Qed.

Lemma actualKey_inj (k1 k2 : string) :
  isImageKey (Some k1) = true -> isImageKey (Some k2) = true -> actualKey k1 = actualKey k2 -> k1 = k2.
Proof. intros H1 H2 H. rewrite (ref_shape k1 H1), (ref_shape k2 H2). by rewrite H. Qed.

Lemma keys_of_ref q k : In k (keys_of q) -> isImageKey (Some k) = true.
Proof. rewrite keys_of_In. tauto. Qed.

Lemma all_keys_ref qs k : In k (flat_map keys_of qs) -> isImageKey (Some k) = true.
Proof. rewrite in_flat_map. intros (q & _ & H). by apply keys_of_ref with q. Qed.

Lemma keys_of_split q :
  keys_of q = ((match q_imageUrl q with
                | Some u => if isImageKey (Some u) then [u] else []
                | None => [] end)
               ++ List.filter (fun u => isImageKey (Some u)) (answer_urls q))%list.
Proof.
  unfold keys_of, image_slots. simpl. fold (answer_urls q).
  change (list_omap _ _ ?f (map Some ?l)) with (omap f (map Some l)). rewrite omap_keys_filter.
  destruct (q_imageUrl q) as [v|]; [|done]. simpl. by destruct (String.prefix "idb://" v).
Qed.

Lemma data_refs_split d :
  data_refs d = ((match d_imageUrl d with
                  | Some u => if isImageKey (Some u) then [u] else []
                  | None => [] end)
                 ++ List.filter (fun u => isImageKey (Some u))
                      (match d_answer d with
                       | Some a => match a_imageUrls a with Some l => l | None => [] end
                       | None => [] end))%list.
Proof.
  unfold data_refs. simpl.
  change (list_omap _ _ ?f (map Some ?l)) with (omap f (map Some l)). rewrite omap_keys_filter.
  destruct (d_imageUrl d) as [v|]; [|done]. simpl. by destruct (String.prefix "idb://" v).
Qed.

Lemma deleteImages_keep keys db k :
  isImageKey (Some k) = true -> (forall d, In d keys -> isImageKey (Some d) = true) ->
  ~ In k keys -> deleteImages keys db !! actualKey k = db !! actualKey k.
Proof.
  intros Hk Hd Hn. apply deleteImages_other. intros d Hin Heq.
  apply Hn. rewrite <- (actualKey_inj d k); auto.
Qed.

Lemma find_split {A} (f : A -> bool) l x :
  find f l = Some x ->
  exists pre post, l = (pre ++ x :: post)%list /\ Forall (fun y => f y = false) pre /\ f x = true.
Proof.
  induction l as [|y l IH]; simpl; [discriminate|].
  destruct (f y) eqn:Hy.
  - intros [= <-]. exists [], l. auto.
  - intros H. destruct (IH H) as (pre & post & -> & H1 & H2). exists (y :: pre), post. auto.
Qed.

Lemma flat_map_filter_perm (p : Question -> bool) qs :
  (flat_map keys_of (List.filter p qs) ++ flat_map keys_of (List.filter (fun q => negb (p q)) qs))%list
  ≡ₚ flat_map keys_of qs.
Proof.
  induction qs as [|q qs IH]; [done|]. simpl. destruct (p q); simpl.
  - rewrite <- app_assoc. by f_equiv.
  - rewrite <- IH. rewrite !app_assoc. f_equiv. apply Permutation_app_comm.
Qed.

Lemma NoDup_submseteq_inv (l1 l2 : list string) : NoDup l2 -> l1 ⊆+ l2 -> NoDup l1.
Proof.
  intros Hnd Hs. destruct (submseteq_Permutation _ _ Hs) as [k Hk].
  rewrite Hk in Hnd. by apply NoDup_app in Hnd as [? _].
Qed.

Lemma map_sublist {A B} (f : A -> B) l1 l2 : sublist l1 l2 -> sublist (map f l1) (map f l2).
Proof. induction 1; simpl; by constructor. Qed.

Lemma ids_filter_NoDup (p : Question -> bool) qs :
  NoDup (map q_id qs) -> NoDup (map q_id (List.filter p qs)).
Proof. intros H. eapply sublist_NoDup; [exact H|]. apply map_sublist, filter_sublist. Qed.

Lemma inv_delete_filter (p : Question -> bool) w s' :
  blob_inv w -> questions s' = List.filter (fun q => negb (p q)) (questions (st w)) ->
  blob_inv {| st := s'; blobs := delete_if_any (flat_map keys_of (List.filter p (questions (st w)))) (blobs w) |}.
Proof.
  intros (Hl & Hnd & Hid) Hs. unfold blob_inv. simpl. rewrite Hs.
  pose proof (flat_map_filter_perm p (questions (st w))) as Hp.
  rewrite <- Hp in Hnd, Hl. apply NoDup_app in Hnd as (Hnd1 & Hdisj & Hnd2).
  apply Forall_app in Hl as [_ Hl2].
  split; [|split; [done | by apply ids_filter_NoDup]].
  rewrite Forall_forall in Hl2 |- *. intros k Hk. unfold getImage.
  rewrite delete_if_any_eq, deleteImages_keep.
  - by apply Hl2.
  - apply all_keys_ref with (List.filter (fun q => negb (p q)) (questions (st w))).
    by apply list_elem_of_In.
  - intros d Hd. by apply all_keys_ref in Hd.
  - intros Hin. apply (Hdisj k); [by apply list_elem_of_In | done].
Qed.

Lemma filter_id_single qs id t :
  NoDup (map q_id qs) -> find (fun q => String.eqb (q_id q) id) qs = Some t ->
  List.filter (fun q => String.eqb (q_id q) id) qs = [t].
Proof.
  intros Hnd Hf. destruct (find_split _ _ _ Hf) as (pre & post & -> & Hpre & Ht).
  rewrite List.filter_app. simpl. rewrite Ht.
  rewrite (filter_drop_all _ pre);
    [|intros y Hy; rewrite Forall_forall in Hpre; apply Hpre, list_elem_of_In, Hy].
  rewrite (filter_drop_all _ post); [done|].
  intros y Hy. apply String.eqb_eq in Ht. subst id.
  destruct (String.eqb (q_id y) (q_id t)) eqn:E; [|done]. apply String.eqb_eq in E.
  rewrite map_app in Hnd. simpl in Hnd. apply NoDup_app in Hnd as (_ & _ & Hnd).
  apply NoDup_cons in Hnd as [Hn _]. exfalso. apply Hn. rewrite <- E.
  apply list_elem_of_In, in_map, Hy.
Qed.

Lemma inv_deleteExam now w examId : blob_inv w -> blob_inv (deleteExam now w examId).
Proof.
  intros H.
  exact (inv_delete_filter (fun q => String.eqb (q_examId q) examId) w
           (appReducer now (st w) (DELETE_EXAM examId)) H eq_refl).
Qed.

Lemma inv_deleteQuestions now w questionIds : blob_inv w -> blob_inv (deleteQuestions now w questionIds).
Proof.
  intros H.
  exact (inv_delete_filter (fun q => mem (q_id q) questionIds) w
           (appReducer now (st w) (DELETE_QUESTIONS questionIds)) H eq_refl).
Qed.

Lemma inv_deleteQuestion now w questionId : blob_inv w -> blob_inv (deleteQuestion now w questionId).
Proof.
  intros H. unfold deleteQuestion.
  destruct (find _ _) as [t|] eqn:Hf; [|done].
  pose proof (filter_id_single _ _ _ (proj2 (proj2 H)) Hf) as Hs.
  assert (keys_of t = flat_map keys_of (List.filter (fun q => String.eqb (q_id q) questionId)
                                          (questions (st w)))) as ->.
  { rewrite Hs. simpl. by rewrite app_nil_r. }
  exact (inv_delete_filter (fun q => String.eqb (q_id q) questionId) w
           (appReducer now (st w) (DELETE_QUESTION questionId)) H eq_refl).
Qed.

Section FreshRefs.
Variable gen : gset string -> string.
Hypothesis gen_fresh : forall X, gen X ∉ X.

Lemma base64_not_ref u : isBase64 (Some u) = true -> isImageKey (Some u) = false.
Proof.
  intros H. destruct (isImageKey (Some u)) eqn:E; [|done].
  apply ref_not_base64 in E. congruence.
Qed.

Lemma store_all_refs us : forall db,
  (forall k, In k us -> isImageKey (Some k) = true -> is_Some (db !! actualKey k)) ->
  NoDup (List.filter (fun u => isImageKey (Some u)) us) ->
  NoDup (List.filter (fun u => isImageKey (Some u)) (store_all gen us db).1) /\
  forall k, In k (List.filter (fun u => isImageKey (Some u)) (store_all gen us db).1) ->
    is_Some ((store_all gen us db).2 !! actualKey k) /\ (In k us \/ db !! actualKey k = None).
Proof.
  induction us as [|u us IH]; intros db Hl Hnd; [split; [constructor | done]|].
  cbn [store_all].
  destruct (isBase64 (Some u)) eqn:Hu.
  - pose proof (base64_not_ref u Hu) as Hnr.
    destruct (storeImage_spec gen gen_fresh u db) as (Hs1 & Hk1 & Hg1).
    destruct (storeImage gen u db) as [k db1] eqn:Hst. simpl in Hs1, Hk1, Hg1.
    assert (db !! actualKey k = None) as Hfresh.
    { unfold storeImage in Hst. injection Hst as <- <-. rewrite actualKey_ref.
      apply not_elem_of_dom, gen_fresh. }
    cbn [List.filter] in Hnd. rewrite Hnr in Hnd.
    destruct (IH db1) as [IH1 IH2].
    { intros k' Hk' Hr. destruct (Hl k' (or_intror Hk') Hr) as [v Hv]. exists v.
      by eapply lookup_weaken. }
    { done. }
    destruct (store_all_spec gen gen_fresh us db1) as [Hs2 _].
    destruct (store_all gen us db1) as [ks db2]. simpl in *.
    rewrite Hk1. split.
    + constructor; [|done]. intros Hin%list_elem_of_In. destruct (IH2 k Hin) as [_ [Hin' | Hn]].
      * destruct (Hl k (or_intror Hin') Hk1) as [v Hv]. congruence.
      * unfold getImage in Hg1. congruence.
    + intros k' [<- | Hin].
      * split; [|by right]. unfold getImage in Hg1. exists u. by eapply lookup_weaken.
      * destruct (IH2 k' Hin) as [Hv [Hin' | Hn]]; split; auto.
        right. destruct (db !! actualKey k') eqn:E; [|done].
        assert (db1 !! actualKey k' = Some s) by (by eapply lookup_weaken). congruence.
  - destruct (IH db) as [IH1 IH2].
    { intros k' Hk' Hr. by apply Hl; [right|]. }
    { cbn [List.filter] in Hnd. destruct (isImageKey (Some u)); [|done]. by apply NoDup_cons in Hnd as [_ ?]. }
    destruct (store_all_spec gen gen_fresh us db) as [Hs2 _].
    destruct (store_all gen us db) as [ks db2]. simpl in *.
    destruct (isImageKey (Some u)) eqn:Hr; simpl in *; rewrite ?Hr.
    + rewrite Hr in Hnd. apply NoDup_cons in Hnd as [Hnu _].
      split.
      * constructor; [|done]. intros Hin%list_elem_of_In. destruct (IH2 u Hin) as [_ [Hin' | Hn]].
        -- apply Hnu, list_elem_of_In, filter_In. auto.
        -- destruct (Hl u (or_introl eq_refl) Hr) as [v Hv]. congruence.
      * intros k' [<- | Hin].
        -- split; [|by left; left]. destruct (Hl u (or_introl eq_refl) Hr) as [v Hv].
           exists v. by eapply lookup_weaken.
        -- destruct (IH2 k' Hin) as [Hv [Hin' | Hn]]; split; auto.
    + split; [done|]. intros k' Hin. destruct (IH2 k' Hin) as [Hv [Hin' | Hn]]; split; auto.
Qed.

End FreshRefs.

Section FreshOps.
Variable gen : gset string -> string.
Hypothesis gen_fresh : forall X, gen X ∉ X.

Lemma lookup_None_weaken (db db' : gmap string string) x :
  db ⊆ db' -> db' !! x = None -> db !! x = None.
Proof.
  intros Hs H. destruct (db !! x) eqn:E; [|done].
  assert (db' !! x = Some s) by (by eapply lookup_weaken). congruence.
Qed.

Lemma storeImage_fresh u db : db !! actualKey (storeImage gen u db).1 = None.
Proof. unfold storeImage. simpl. rewrite actualKey_ref. apply not_elem_of_dom, gen_fresh. Qed.

(** The image slot of an imported or added question. *)
Lemma image_slot_refs (img : option string) db :
  (match img with Some u => isImageKey (Some u) | None => false end) = false ->
  exists img' db1,
    (match img with
     | Some u => if isBase64 (Some u) then let '(k, d) := storeImage gen u db in (Some k, d)
                 else (Some u, db)
     | None => (None, db)
     end) = (img', db1) /\ db ⊆ db1 /\
    forall k, In k (match img' with Some u => if isImageKey (Some u) then [u] else [] | None => [] end) ->
      is_Some (db1 !! actualKey k) /\ db !! actualKey k = None.
Proof.
  intros Hnr. destruct img as [u|]; [|eexists _, _; split; [reflexivity|]; split; [done | intros ? []]].
  destruct (isBase64 (Some u)) eqn:Hb.
  - pose proof (storeImage_spec gen gen_fresh u db) as (Hs & Hk & Hg).
    pose proof (storeImage_fresh u db) as Hf.
    destruct (storeImage gen u db) as [k d]. simpl in *.
    eexists _, _. split; [reflexivity|]. split; [done|].
    rewrite Hk. intros k' [<- | []]. unfold getImage in Hg. split; [by exists u | done].
  - eexists _, _. split; [reflexivity|]. split; [done|]. rewrite Hnr. intros ? [].
Qed.

Lemma answer_slot_refs (a : option Answer) db :
  List.filter (fun u => isImageKey (Some u))
    (match a with Some a => match a_imageUrls a with Some l => l | None => [] end | None => [] end) = [] ->
  exists a' db1,
    (match a with
     | Some (mkAnswer txt (Some urls)) =>
         let '(ks, d) := store_all gen urls db in (Some (mkAnswer txt (Some ks)), d)
     | Some (mkAnswer txt None) => (Some (mkAnswer txt None), db)
     | None => (None, db)
     end) = (a', db1) /\ db ⊆ db1 /\
    NoDup (List.filter (fun u => isImageKey (Some u))
             (match a' with Some a => match a_imageUrls a with Some l => l | None => [] end | None => [] end)) /\
    forall k, In k (List.filter (fun u => isImageKey (Some u))
               (match a' with Some a => match a_imageUrls a with Some l => l | None => [] end | None => [] end)) ->
      is_Some (db1 !! actualKey k) /\ db !! actualKey k = None.
Proof.
  intros Hnr.
  destruct a as [[txt [urls|]]|];
    [| eexists _, _; split; [reflexivity|]; simpl in *; split; [done|]; split; [constructor | intros ? []]
     | eexists _, _; split; [reflexivity|]; split; [done|]; split; [constructor | intros ? []]].
  change (List.filter (fun u => isImageKey (Some u)) urls = []) in Hnr.
  destruct (store_all_refs gen gen_fresh urls db) as [H1 H2].
  { intros k Hk Hr. exfalso. assert (In k (List.filter (fun u => isImageKey (Some u)) urls)) as Hin
      by (apply filter_In; auto). by rewrite Hnr in Hin. }
  { rewrite Hnr. constructor. }
  destruct (store_all_spec gen gen_fresh urls db) as [Hs _].
  destruct (store_all gen urls db) as [ks d]. simpl in H1, H2, Hs |- *.
  eexists _, _. split; [reflexivity|]. split; [done|]. split; [done|].
  intros k Hk. destruct (H2 k Hk) as [Hv [Hin | Hn]]; split; auto.
  exfalso. assert (In k (List.filter (fun u => isImageKey (Some u)) urls)) as Hin'.
  { apply filter_In. split; [done|]. by apply filter_In in Hk as [_ ?]. }
  by rewrite Hnr in Hin'.
Qed.

Lemma keys_no_ref_parts q :
  keys_of q = [] ->
  (match q_imageUrl q with Some u => isImageKey (Some u) | None => false end) = false /\
  List.filter (fun u => isImageKey (Some u)) (answer_urls q) = [].
Proof.
  rewrite keys_of_split. intros H. apply app_eq_nil in H as [H1 H2]. split; [|done].
  destruct (q_imageUrl q) as [u|]; [|done]. destruct (isImageKey (Some u)); [discriminate | done].
Qed.

Lemma process_imported_refs q db :
  keys_of q = [] ->
  db ⊆ (process_imported gen q db).2 /\ q_id (process_imported gen q db).1 = q_id q /\
  NoDup (keys_of (process_imported gen q db).1) /\
  forall k, In k (keys_of (process_imported gen q db).1) ->
    is_Some ((process_imported gen q db).2 !! actualKey k) /\ db !! actualKey k = None.
Proof.
  intros Hq. destruct (keys_no_ref_parts q Hq) as [Hi Ha].
  unfold process_imported.
  destruct (image_slot_refs (q_imageUrl q) db Hi) as (img & db1 & -> & Hs1 & Himg).
  destruct (answer_slot_refs (q_answer q) db1 Ha) as (ans & db2 & -> & Hs2 & Hnd & Hans).
  simpl. rewrite keys_of_split. simpl. unfold answer_urls. simpl.
  split; [by transitivity db1|]. split; [done|]. split.
  - apply NoDup_app. split; [destruct img as [u|]; [destruct (String.prefix "idb://" u); repeat constructor; set_solver | constructor]|].
    split; [|done].
    intros x Hx%list_elem_of_In Hy%list_elem_of_In. destruct (Himg x Hx) as [[v Hv] _].
    destruct (Hans x Hy) as [_ Hn]. congruence.
  - intros k [Hk | Hk]%in_app_iff.
    + destruct (Himg k Hk) as [Hv Hn]. split; [|done]. destruct Hv as [v Hv]. exists v. by eapply lookup_weaken.
    + destruct (Hans k Hk) as [Hv Hn]. split; [done|]. by eapply lookup_None_weaken.
Qed.

Lemma processImported_refs qs : forall db,
  Forall (fun q => keys_of q = []) qs ->
  db ⊆ (processImportedQuestions gen qs db).2 /\
  map q_id (processImportedQuestions gen qs db).1 = map q_id qs /\
  NoDup (flat_map keys_of (processImportedQuestions gen qs db).1) /\
  forall k, In k (flat_map keys_of (processImportedQuestions gen qs db).1) ->
    is_Some ((processImportedQuestions gen qs db).2 !! actualKey k) /\ db !! actualKey k = None.
Proof.
  induction qs as [|q qs IH]; intros db Hq; [split; [done|]; split; [done|]; split; [constructor | intros ? []]|].
  inversion Hq as [|? ? Hq1 Hqs]; subst. simpl.
  destruct (process_imported_refs q db Hq1) as (Hs1 & Hid1 & Hnd1 & Hk1).
  destruct (process_imported gen q db) as [p db1]. simpl in *.
  destruct (IH db1 Hqs) as (Hs2 & Hid2 & Hnd2 & Hk2).
  destruct (processImportedQuestions gen qs db1) as [ps db2]. simpl in *.
  split; [by transitivity db1|]. split; [by rewrite Hid1, Hid2|]. split.
  - apply NoDup_app. split; [done|]. split; [|done].
    intros x Hx%list_elem_of_In Hy%list_elem_of_In.
    destruct (Hk1 x Hx) as [[v Hv] _]. destruct (Hk2 x Hy) as [_ Hn]. congruence.
  - intros k [Hk | Hk]%in_app_iff.
    + destruct (Hk1 k Hk) as [[v Hv] Hn]. split; [|done]. exists v. by eapply lookup_weaken.
    + destruct (Hk2 k Hk) as [Hv Hn]. split; [done|]. by eapply lookup_None_weaken.
Qed.

Lemma process_new_refs d db :
  data_refs d = [] ->
  db ⊆ (process_new gen d db).2 /\ NoDup (data_refs (process_new gen d db).1) /\
  forall k, In k (data_refs (process_new gen d db).1) ->
    is_Some ((process_new gen d db).2 !! actualKey k) /\ db !! actualKey k = None.
Proof.
  intros H. pose proof H as H'. rewrite data_refs_split in H'. apply app_eq_nil in H' as [_ Ha].
  unfold process_new. destruct (d_imageUrl d) as [u|] eqn:Hd.
  - destruct (isBase64 (Some u)) eqn:Hb.
    + pose proof (storeImage_spec gen gen_fresh u db) as (Hs & Hk & Hg).
      pose proof (storeImage_fresh u db) as Hf.
      destruct (storeImage gen u db) as [k db1]. simpl in *.
      rewrite data_refs_split. simpl. rewrite Ha, Hk. simpl.
      split; [done|]. split; [repeat constructor; set_solver|].
      intros k' [<- | []]. unfold getImage in Hg. split; [by exists u | done].
    + simpl. rewrite H. split; [done|]. split; [constructor | intros ? []].
  - simpl. rewrite H. split; [done|]. split; [constructor | intros ? []].
Qed.

Lemma process_new_all_refs ds : forall db,
  Forall (fun d => data_refs d = []) ds ->
  db ⊆ (process_new_all gen ds db).2 /\
  NoDup (flat_map data_refs (process_new_all gen ds db).1) /\
  forall k, In k (flat_map data_refs (process_new_all gen ds db).1) ->
    is_Some ((process_new_all gen ds db).2 !! actualKey k) /\ db !! actualKey k = None.
Proof.
  induction ds as [|d ds IH]; intros db Hd; [split; [done|]; split; [constructor | intros ? []]|].
  inversion Hd as [|? ? Hd1 Hds]; subst. simpl.
  destruct (process_new_refs d db Hd1) as (Hs1 & Hnd1 & Hk1).
  destruct (process_new gen d db) as [p db1]. simpl in *.
  destruct (IH db1 Hds) as (Hs2 & Hnd2 & Hk2).
  destruct (process_new_all gen ds db1) as [ps db2]. simpl in *.
  split; [by transitivity db1|]. split.
  - apply NoDup_app. split; [done|]. split; [|done].
    intros x Hx%list_elem_of_In Hy%list_elem_of_In.
    destruct (Hk1 x Hx) as [[v Hv] _]. destruct (Hk2 x Hy) as [_ Hn]. congruence.
  - intros k [Hk | Hk]%in_app_iff.
    + destruct (Hk1 k Hk) as [[v Hv] Hn]. split; [|done]. exists v. by eapply lookup_weaken.
    + destruct (Hk2 k Hk) as [Hv Hn]. split; [done|]. by eapply lookup_None_weaken.
Qed.

Lemma stamp_keys now used ps : flat_map keys_of (stamp gen now used ps) = flat_map data_refs ps.
Proof.
  revert used. induction ps as [|p ps IH]; intros used; [done|]. simpl. by rewrite IH.
Qed.

Lemma stamp_ids now used ps :
  NoDup (map q_id (stamp gen now used ps)) /\
  forall i, i ∈ map q_id (stamp gen now used ps) -> i ∉ used.
Proof.
  revert used. induction ps as [|p ps IH]; intros used; simpl; [split; [constructor | set_solver]|].
  destruct (IH ({[gen used]} ∪ used)) as [H1 H2]. pose proof (gen_fresh used) as Hf.
  split.
  - constructor; [|done]. intros Hin. apply H2 in Hin. set_solver.
  - intros i [-> | Hin]%elem_of_cons; [done|]. apply H2 in Hin. set_solver.
Qed.

End FreshOps.

Lemma flat_map_mid (pre post : list Question) t :
  flat_map keys_of (pre ++ t :: post) ≡ₚ (keys_of t ++ flat_map keys_of (pre ++ post))%list.
Proof.
  rewrite !flat_map_app. simpl. rewrite !app_assoc. f_equiv. apply Permutation_app_comm.
Qed.

Lemma ids_mid (pre post : list Question) t :
  NoDup (map q_id (pre ++ t :: post)) -> forall y, In y (pre ++ post) -> q_id y <> q_id t.
Proof.
  intros Hnd y Hy Heq. rewrite map_app in Hnd. simpl in Hnd.
  rewrite <- Permutation_middle in Hnd. apply NoDup_cons in Hnd as [Hn _].
  apply Hn. rewrite <- map_app, <- Heq. apply list_elem_of_In, in_map, Hy.
Qed.

Lemma inv_weaken w db : blob_inv w -> blobs w ⊆ db -> blob_inv {| st := st w; blobs := db |}.
Proof.
  intros (Hl & Hnd & Hid) Hs. split; [|done]. simpl.
  eapply Forall_impl; [exact Hl|]. intros k [v Hv]. exists v. unfold getImage in *. by eapply lookup_weaken.
Qed.

(** Replacing one question [t] of a list of questions by [t']. *)
Lemma inv_mid w s' db' (pre post : list Question) t t' :
  blob_inv w -> questions (st w) = (pre ++ t :: post)%list -> questions s' = (pre ++ t' :: post)%list ->
  q_id t' = q_id t -> NoDup (keys_of t') ->
  (forall k, In k (keys_of t') -> is_Some (db' !! actualKey k) /\ ~ In k (flat_map keys_of (pre ++ post))) ->
  (forall k, In k (flat_map keys_of (pre ++ post)) -> is_Some (db' !! actualKey k)) ->
  blob_inv {| st := s'; blobs := db' |}.
Proof.
  intros (Hl & Hnd & Hid) Hq Hs' Hi Hnd' Ht' Hr. unfold blob_inv. simpl. rewrite Hs'.
  rewrite Hq in Hnd, Hid. rewrite flat_map_mid in Hnd. apply NoDup_app in Hnd as (_ & _ & Hnd).
  split; [|split].
  - apply Forall_forall. intros k Hk%list_elem_of_In.
    apply (Permutation_in _ (flat_map_mid pre post t')), in_app_iff in Hk as [Hk | Hk].
    + apply Ht', Hk.
    + apply Hr, Hk.
  - rewrite flat_map_mid. apply NoDup_app. split; [done|]. split; [|done].
    intros x Hx%list_elem_of_In Hy%list_elem_of_In. by apply (Ht' x Hx).
  - revert Hid. rewrite !map_app. simpl. by rewrite Hi.
Qed.

Lemma inv_add gen (gen_fresh : forall X, gen X ∉ X) now w data :
  blob_inv w -> Forall (fun d => data_refs d = []) data -> blob_inv (addQuestions gen now w data).2.
Proof.
  intros Hinv Hd. pose proof Hinv as (Hl & Hnd & Hid). unfold addQuestions.
  destruct (process_new_all_refs gen gen_fresh data (blobs w) Hd) as (Hs & Hnd' & Hk).
  destruct (process_new_all gen data (blobs w)) as [ps db]. simpl in Hs, Hnd', Hk |- *.
  pose proof (stamp_keys gen now (list_to_set (map q_id (questions (st w)))) ps) as Hsk.
  destruct (stamp_ids gen gen_fresh now (list_to_set (map q_id (questions (st w)))) ps) as [Hsi1 Hsi2].
  destruct (stamp gen now _ ps) as [|q qs'] eqn:E; [by apply inv_weaken|].
  unfold blob_inv. simpl. rewrite flat_map_app, Hsk, map_app. split; [|split].
  - apply Forall_app. split.
    + eapply Forall_impl; [exact Hl|]. intros k [v Hv]. exists v. unfold getImage in *.
      by eapply lookup_weaken.
    + apply Forall_forall. intros k Hin%list_elem_of_In. apply (Hk k Hin).
  - apply NoDup_app. split; [done|]. split; [|done].
    intros x Hx Hy%list_elem_of_In. rewrite Forall_forall in Hl. destruct (Hl x Hx) as [v Hv].
    destruct (Hk x Hy) as [_ Hn]. unfold getImage in Hv. congruence.
  - apply NoDup_app. split; [done|]. split; [|done].
    intros x Hx Hy. apply (Hsi2 x Hy). by apply elem_of_list_to_set.
Qed.

Lemma keys_of_parts q :
  keys_of q = (image_part q ++ List.filter (fun u => isImageKey (Some u)) (answer_urls q))%list.
Proof. apply keys_of_split. Qed.

Lemma spread_parts t d now :
  isImageKey (qp_imageUrl d) = false ->
  sublist (image_part (spread_question_patch t d now)) (image_part t) /\
  answer_urls (spread_question_patch t d now) =
    match qp_answer d with
    | Some a => match a_imageUrls a with Some l => l | None => [] end
    | None => answer_urls t end.
Proof.
  intros Hi. unfold image_part, answer_urls. simpl. split.
  - destruct (qp_imageUrl d) as [v|]; simpl.
    + simpl in Hi. rewrite Hi. apply sublist_nil_l.
    + done.
  - by destruct (qp_answer d).
Qed.

Lemma mid_facts w (pre post : list Question) t :
  blob_inv w -> questions (st w) = (pre ++ t :: post)%list ->
  NoDup (keys_of t) /\
  (forall k, In k (keys_of t) -> ~ In k (flat_map keys_of (pre ++ post))) /\
  (forall k, In k (keys_of t) -> is_Some (blobs w !! actualKey k)) /\
  (forall k, In k (flat_map keys_of (pre ++ post)) -> is_Some (blobs w !! actualKey k)) /\
  (forall y, In y (pre ++ post) -> q_id y <> q_id t).
Proof.
  intros (Hl & Hnd & Hid) Hq. rewrite Hq in Hl, Hnd, Hid.
  rewrite flat_map_mid in Hnd. apply NoDup_app in Hnd as (Hndt & Hdisj & _).
  rewrite Forall_forall in Hl.
  assert (forall k, In k (keys_of t ++ flat_map keys_of (pre ++ post))%list -> is_Some (blobs w !! actualKey k))
    as Hl'.
  { intros k Hk. apply (Hl k), list_elem_of_In.
    apply (Permutation_in _ (symmetry (flat_map_mid pre post t))), Hk. }
  split; [done|]. split; [|split; [|split]].
  - intros k Hk Hr. apply (Hdisj k); by apply list_elem_of_In.
  - intros k Hk. apply Hl', in_app_iff. by left.
  - intros k Hk. apply Hl', in_app_iff. by right.
  - by apply ids_mid.
Qed.

Lemma inv_sub w s' (pre post : list Question) t t' :
  blob_inv w -> questions (st w) = (pre ++ t :: post)%list -> questions s' = (pre ++ t' :: post)%list ->
  q_id t' = q_id t -> sublist (keys_of t') (keys_of t) -> blob_inv {| st := s'; blobs := blobs w |}.
Proof.
  intros Hinv Hq Hs' Hi Hsub.
  destruct (mid_facts w pre post t Hinv Hq) as (Hndt & Hdisj & Hlt & Hlr & _).
  assert (forall k, In k (keys_of t') -> In k (keys_of t)) as Hin.
  { intros k Hk%list_elem_of_In. apply list_elem_of_In.
    eapply elem_of_submseteq; [exact Hk|]. by apply sublist_submseteq. }
  apply (inv_mid w s' (blobs w) pre post t t' Hinv Hq Hs' Hi).
  - by eapply sublist_NoDup.
  - intros k Hk. split; [apply Hlt | apply Hdisj]; by apply Hin.
  - exact Hlr.
Qed.

Lemma inv_update gen (gen_fresh : forall X, gen X ∉ X) now w questionId data :
  blob_inv w -> patch_ok w questionId data -> blob_inv (updateQuestion gen now w questionId data).
Proof.
  intros Hinv [Himg Hans]. unfold updateQuestion.
  destruct (find _ _) as [t|] eqn:Hf; [|done].
  destruct (find_split _ _ _ Hf) as (pre & post & Hq & Hpre & Ht).
  apply String.eqb_eq in Ht. subst questionId.
  destruct (mid_facts w pre post t Hinv Hq) as (Hndt & Hdisj & Hlt & Hlr & Hother).
  assert (Hmap : forall g : Question -> Question,
    map (fun q => if String.eqb (q_id q) (q_id t) then g q else q) (questions (st w))
    = (pre ++ g t :: post)%list).
  { intros g. rewrite Hq, map_app. simpl. rewrite String.eqb_refl. f_equal; [|f_equal].
    - apply map_keep_all. intros y Hy. rewrite Forall_forall in Hpre.
      by rewrite (Hpre y (proj2 (list_elem_of_In _ _) Hy)).
    - apply map_keep_all. intros y Hy. rewrite eqb_neq_false; [done|].
      apply Hother, in_app_iff. by right. }
  assert (Hin : forall y, In y (pre ++ post) -> In y (questions (st w))).
  { intros y Hy. rewrite Hq. apply in_app_iff in Hy as [Hy | Hy]; apply in_app_iff; auto. right; by right. }
  assert (Htin : In t (questions (st w))) by (rewrite Hq; apply in_app_iff; right; by left).
  pose proof (keys_of_parts t) as Hkt. pose proof Hndt as Hndt'. rewrite Hkt in Hndt'.
  apply NoDup_app in Hndt' as (Hndi & Hdisjt & _).
  assert (Hipt : forall d, isImageKey (qp_imageUrl d) = false ->
                 forall k, In k (image_part (spread_question_patch t d now)) -> In k (image_part t)).
  { intros d Hd k Hk%list_elem_of_In. apply list_elem_of_In.
    eapply elem_of_submseteq; [exact Hk|]. apply sublist_submseteq, (spread_parts t d now Hd). }
  destruct (qp_answer data) as [[txt [urls|]]|] eqn:Ha.
  - destruct Hans as [Hnu Hu].
    destruct (store_all_refs gen gen_fresh urls (blobs w)) as [Hs1 Hs2].
    { intros k Hk Hr. exact (proj1 (Hu k Hk Hr)). }
    { done. }
    destruct (store_all_spec gen gen_fresh urls (blobs w)) as [Hsub _].
    destruct (store_all gen urls (blobs w)) as [newKeys db1]. simpl in Hs1, Hs2, Hsub.
    cbv beta iota zeta. unfold dispatch. cbn [st blobs].
    match goal with |- context [UPDATE_QUESTION _ ?dc] => set (d' := dc) end.
    set (t' := spread_question_patch t d' now).
    assert (Hipt' : forall k, In k (image_part t') -> In k (image_part t)) by (apply Hipt; exact Himg).
    assert (answer_urls t' = newKeys) as Hau by exact (proj2 (spread_parts t d' now Himg)).
    assert (Hkt' : forall k, In k (keys_of t') <->
                   In k (image_part t') \/ In k (List.filter (fun u => isImageKey (Some u)) newKeys)).
    { intros k. by rewrite keys_of_parts, Hau, in_app_iff. }
    assert (Himt : forall k, In k (image_part t) -> In k (keys_of t)).
    { intros k Hk. rewrite Hkt. apply in_app_iff. by left. }
    assert (Hslot : forall k, In k (image_part t) -> q_imageUrl t = Some k).
    { unfold image_part. intros k Hk. destruct (q_imageUrl t) as [u|]; [|done].
      destruct (isImageKey (Some u)); [|done]. by destruct Hk as [<- | []]. }
    assert (Hnew : forall k, In k (List.filter (fun u => isImageKey (Some u)) newKeys) ->
                   is_Some (blobs w !! actualKey k) -> In k urls /\ isImageKey (Some k) = true).
    { intros k Hk [v Hv]. pose proof Hk as Hk'. apply filter_In in Hk' as [_ Hr]. split; [|done].
      destruct (Hs2 k Hk) as [_ [Hk2 | Hn]]; [done | congruence]. }
    assert (Hkeep : forall k, isImageKey (Some k) = true ->
                    (~ In k (List.filter (fun u => isImageKey (Some u)) (answer_urls t)) \/ In k newKeys) ->
                    is_Some (db1 !! actualKey k) ->
                    is_Some (delete_if_any (List.filter (fun k => negb (mem k newKeys))
                              (List.filter (fun u => isImageKey (Some u)) (answer_urls t))) db1 !! actualKey k)).
    { intros k Hr Hc Hv. rewrite delete_if_any_eq, deleteImages_keep; [done | done | |].
      - intros d Hd. apply filter_In in Hd as [Hd _]. by apply filter_In in Hd as [_ ?].
      - intros Hd. apply filter_In in Hd as [Hd Hm]. destruct Hc as [Hc | Hc]; [done|].
        apply mem_In in Hc. by rewrite Hc in Hm. }
    assert (Hw : forall k, is_Some (blobs w !! actualKey k) -> is_Some (db1 !! actualKey k)).
    { intros k [v Hv]. exists v. by eapply lookup_weaken. }
    apply (inv_mid w _ _ pre post t t' Hinv Hq); [exact (Hmap (fun q => spread_question_patch q d' now)) | done | | |].
    + rewrite keys_of_parts, Hau. apply NoDup_app. split; [|split; [|done]].
      * eapply sublist_NoDup; [exact Hndi|]. apply (spread_parts t d' now Himg).
      * intros x Hx%list_elem_of_In Hy%list_elem_of_In. apply Hipt' in Hx.
        destruct (Hnew x Hy (Hlt x (Himt x Hx))) as [Hxu Hr].
        destruct (proj2 (Hu x Hxu Hr) t Htin (Himt x Hx)) as [_ Hne]. by apply Hne, Hslot.
    + intros k Hk. apply Hkt' in Hk as [Hk | Hk].
      * apply Hipt' in Hk. split; [|by apply Hdisj, Himt].
        apply Hkeep; [by apply (keys_of_ref t), Himt | | by apply Hw, Hlt, Himt].
        left. intros Hk'. by apply (Hdisjt k); apply list_elem_of_In.
      * pose proof Hk as Hk'. apply filter_In in Hk' as [Hkn Hr].
        split; [by apply Hkeep; [| right | apply (Hs2 k Hk)]|].
        intros Hrest. apply in_flat_map in Hrest as (y & Hy & Hky).
        destruct (Hnew k Hk (Hlr k (proj2 (in_flat_map _ _ _) (ex_intro _ y (conj Hy Hky))))) as [Hku _].
        destruct (proj2 (Hu k Hku Hr) y (Hin y Hy) Hky) as [Hid _]. by apply (Hother y Hy).
    + intros k Hk. apply Hkeep; [by apply all_keys_ref in Hk | | by apply Hw, Hlr].
      left. intros Hk'. apply (Hdisj k); [|done]. rewrite Hkt. apply in_app_iff. by right.
  - cbv beta iota zeta. unfold dispatch.
    pose proof (spread_parts t data now Himg) as [Hsp Hau]. rewrite Ha in Hau.
    apply (inv_sub w _ pre post t (spread_question_patch t data now) Hinv Hq);
      [exact (Hmap (fun q => spread_question_patch q data now)) | done |].
    rewrite !keys_of_parts, Hau. apply sublist_app; [done|]. apply sublist_nil_l.
  - cbv beta iota zeta. unfold dispatch.
    pose proof (spread_parts t data now Himg) as [Hsp Hau]. rewrite Ha in Hau.
    apply (inv_sub w _ pre post t (spread_question_patch t data now) Hinv Hq);
      [exact (Hmap (fun q => spread_question_patch q data now)) | done |].
    rewrite !keys_of_parts, Hau. by apply sublist_app.
Qed.

Lemma inv_replace gen (gen_fresh : forall X, gen X ∉ X) now w data :
  Forall (fun q => keys_of q = []) (questions data) -> NoDup (map q_id (questions data)) ->
  blob_inv (replaceData gen now w data).
Proof.
  intros Hq Hid. unfold replaceData.
  destruct (processImported_refs gen gen_fresh (questions data)
              (delete_if_any (flat_map keys_of (questions (st w))) (blobs w)) Hq) as (_ & Hid' & Hnd & Hk).
  destruct (processImportedQuestions gen _ _) as [ps db]. simpl in *.
  unfold blob_inv. simpl. split; [|split; [done | by rewrite Hid']].
  apply Forall_forall. intros k Hin%list_elem_of_In. apply (Hk k Hin).
Qed.

Section SetFacts.
Context {A : Type}.
Implicit Types (m : list (string * A)) (k : string) (v : A).

Lemma set_values m k v :
  exists rest, JsMap.values m ≡ₚ ((match JsMap.get m k with Some o => [o] | None => [] end) ++ rest)%list /\
               JsMap.values (JsMap.set m k v) ≡ₚ v :: rest.
Proof.
  unfold JsMap.values. induction m as [|[k' v'] m IH]; simpl; [by exists []|].
  destruct (String.eqb k k'); simpl; [by exists (map snd m)|].
  destruct IH as [rest [H1 H2]]. exists (v' :: rest). split.
  - rewrite H1. by rewrite Permutation_middle.
  - rewrite H2. constructor.
Qed.

Lemma set_fst m k v x : In x (map fst (JsMap.set m k v)) -> x = k \/ In x (map fst m).
Proof.
  induction m as [|[k' v'] m IH]; simpl; [intros [-> | []]; by left|].
  destruct (String.eqb k k') eqn:E; simpl.
  - apply String.eqb_eq in E as ->. intros [-> | H]; auto.
  - intros [-> | H]; auto. destruct (IH H); auto.
Qed.

Lemma set_NoDup m k v : NoDup (map fst m) -> NoDup (map fst (JsMap.set m k v)).
Proof.
  induction m as [|[k' v'] m IH]; simpl; [repeat constructor; set_solver|].
  intros Hnd. apply NoDup_cons in Hnd as [Hn Hnd].
  destruct (String.eqb k k') eqn:E; simpl.
  - apply String.eqb_eq in E as ->. by constructor.
  - constructor; [|by apply IH]. intros Hin%list_elem_of_In. apply set_fst in Hin as [-> | Hin].
    + by rewrite String.eqb_refl in E.
    + by apply Hn, list_elem_of_In.
Qed.

Lemma set_ids (id : A -> string) m k v :
  Forall (fun kv => id kv.2 = kv.1) m -> id v = k -> Forall (fun kv => id kv.2 = kv.1) (JsMap.set m k v).
Proof.
  intros Hm Hv. induction Hm as [|[k' v'] m H1 H2 IH]; simpl; [by constructor|].
  destruct (String.eqb k k'); by constructor.
Qed.

Lemma values_ids (id : A -> string) m :
  Forall (fun kv => id kv.2 = kv.1) m -> map id (JsMap.values m) = map fst m.
Proof. unfold JsMap.values. induction 1 as [|[k v] m H1 H2 IH]; simpl in *; by f_equal. Qed.

End SetFacts.

Lemma flat_map_perm (l1 l2 : list Question) : l1 ≡ₚ l2 -> flat_map keys_of l1 ≡ₚ flat_map keys_of l2.
Proof.
  induction 1 as [| x l1 l2 _ IH | x y l | l1 l2 l3 _ IH1 _ IH2]; simpl.
  - done.
  - by rewrite IH.
  - rewrite !app_assoc. f_equiv. apply Permutation_app_comm.
  - by rewrite IH1.
Qed.

Lemma sub_pick (a b c d u v : list string) :
  (u = a \/ u = c) -> (v = b \/ v = d) -> (u ++ v)%list ⊆+ ((a ++ b) ++ (c ++ d))%list.
Proof.
  intros [-> | ->] [-> | ->].
  - by apply submseteq_inserts_r.
  - assert (((a ++ b) ++ (c ++ d) ≡ₚ (a ++ d) ++ (b ++ c))%list) as Hp by solve_Permutation.
    rewrite Hp. by apply submseteq_inserts_r.
  - assert (((a ++ b) ++ (c ++ d) ≡ₚ (c ++ b) ++ (a ++ d))%list) as Hp by solve_Permutation.
    rewrite Hp. by apply submseteq_inserts_r.
  - by apply submseteq_inserts_l.
Qed.

Lemma spread_question_keys o x :
  keys_of (spread_question o x) ⊆+
  (keys_of x ++ flat_map keys_of (match o with Some o' => [o'] | None => [] end))%list.
Proof.
  destruct o as [o|]; simpl; [|by rewrite app_nil_r].
  rewrite app_nil_r, !keys_of_parts. unfold image_part, answer_urls. simpl.
  apply sub_pick.
  - destruct (q_imageUrl x); simpl; auto.
  - destruct (q_answer x); simpl; auto.
Qed.

Lemma merge_fold_inv (xs : list Question) : forall m,
  NoDup (map fst m) -> Forall (fun kv => q_id kv.2 = kv.1) m ->
  let m' := fold_left (fun m x => JsMap.set m (q_id x) (spread_question (JsMap.get m (q_id x)) x)) xs m in
  NoDup (map fst m') /\ Forall (fun kv => q_id kv.2 = kv.1) m' /\
  flat_map keys_of (JsMap.values m') ⊆+ (flat_map keys_of (JsMap.values m) ++ flat_map keys_of xs)%list.
Proof.
  induction xs as [|x xs IH]; intros m Hnd Hid; simpl; [split; [done|]; split; [done|]; by rewrite app_nil_r|].
  destruct (IH (JsMap.set m (q_id x) (spread_question (JsMap.get m (q_id x)) x))) as (H1 & H2 & H3).
  { by apply set_NoDup. }
  { apply set_ids; [done|]. by destruct (JsMap.get m (q_id x)). }
  split; [done|]. split; [done|]. etrans; [exact H3|].
  rewrite app_assoc. apply submseteq_app; [|done].
  destruct (set_values m (q_id x) (spread_question (JsMap.get m (q_id x)) x)) as [rest [E1 E2]].
  rewrite (flat_map_perm _ _ E2), (flat_map_perm _ _ E1). simpl. rewrite flat_map_app.
  rewrite (Permutation_app_comm _ (keys_of x)), app_assoc. apply submseteq_app; [|done].
  apply spread_question_keys.
Qed.

Lemma inv_merge gen (gen_fresh : forall X, gen X ∉ X) now w data :
  blob_inv w -> Forall (fun q => keys_of q = []) (questions data) -> blob_inv (mergeData gen now w data).
Proof.
  intros (Hl & Hnd & Hid) Hq. unfold mergeData.
  destruct (processImported_refs gen gen_fresh (questions data) (blobs w) Hq) as (Hs & _ & Hnd' & Hk).
  destruct (processImportedQuestions gen _ _) as [ps db]. simpl in *.
  unfold blob_inv. simpl. unfold merge_collection.
  rewrite of_list_NoDup by (by rewrite map_map).
  destruct (merge_fold_inv ps (map (fun e => (q_id e, e)) (questions (st w)))) as (H1 & H2 & H3).
  { by rewrite map_map. }
  { apply Forall_forall. intros kv Hin. apply list_elem_of_In, in_map_iff in Hin as (e & <- & _). done. }
  unfold JsMap.values at 2 in H3. rewrite map_map, map_id in H3.
  assert (forall k, k ∈ (flat_map keys_of (questions (st w)) ++ flat_map keys_of ps)%list ->
                    is_Some (db !! actualKey k)) as Hlive.
  { intros k [Hk1 | Hk2%list_elem_of_In]%elem_of_app.
    - rewrite Forall_forall in Hl. destruct (Hl k Hk1) as [v Hv]. exists v. by eapply lookup_weaken.
    - apply (Hk k Hk2). }
  split; [|split].
  - apply Forall_forall. intros k Hin. apply Hlive. by eapply elem_of_submseteq.
  - eapply NoDup_submseteq_inv; [|exact H3]. apply NoDup_app. split; [done|]. split; [|done].
    intros x Hx Hy%list_elem_of_In. rewrite Forall_forall in Hl. destruct (Hl x Hx) as [v Hv].
    destruct (Hk x Hy) as [_ Hn]. unfold getImage in Hv. congruence.
  - by rewrite values_ids.
Qed.

(** Claim C1 (as amended): for snapshots with distinct question ids and no
    Blob Store reference, [addQuestions] data with no reference, and
    [updateQuestion] payloads as the answer editor builds them
    ([patch_ok]), every Blob Store reference held by a question of a
    reachable world reads back a stored value. Moreover [addQuestions] on
    one question whose [imageUrl] is a data URI stores a question whose
    [imageUrl] is a reference that reads back that data URI. *)
Theorem reachable_refs_live (gen : gset string -> string) (gen_fresh : forall X, gen X ∉ X) :
  (forall w, reachable gen w -> refs_live w) /\
  (forall now w d u, d_imageUrl d = Some u -> isBase64 (Some u) = true ->
     exists q k, (addQuestions gen now w [d]).1 = [q] /\
       In q (questions (st (addQuestions gen now w [d]).2)) /\
       q_imageUrl q = Some k /\ isImageKey (Some k) = true /\
       getImage k (blobs (addQuestions gen now w [d]).2) = Some u).
Proof.
  split.
  - intros w Hw. assert (blob_inv w) as [Hl _].
    { induction Hw.
      - unfold blob_inv. simpl. repeat constructor.
      - by apply inv_add.
      - by apply inv_update.
      - by apply inv_deleteQuestion.
      - by apply inv_deleteQuestions.
      - by apply inv_deleteExam.
      - by apply inv_replace.
      - by apply inv_merge. }
    intros q k Hq Hk. rewrite Forall_forall in Hl. apply Hl, list_elem_of_In, in_flat_map. eauto.
  - intros now w d u Hd Hb. unfold addQuestions. cbn [process_new_all]. unfold process_new.
    rewrite Hd, Hb.
    pose proof (storeImage_spec gen gen_fresh u (blobs w)) as (_ & Hk & Hg).
    destruct (storeImage gen u (blobs w)) as [k db]. simpl in Hk, Hg |- *.
    eexists _, k. split; [reflexivity|]. split; [apply in_app_iff; right; by left|].
    split; [reflexivity|]. by split.
Qed.

Lemma reachable_refs_live_witness :
  refs_live (addQuestions uuid_gen "now" empty_world
               [sample_data "e1" (Some "data:image/png;base64,QQ==")]).2 /\
  exists q k, (addQuestions uuid_gen "now" empty_world
                 [sample_data "e1" (Some "data:image/png;base64,QQ==")]).1 = [q] /\
    In q (questions (st (addQuestions uuid_gen "now" empty_world
                           [sample_data "e1" (Some "data:image/png;base64,QQ==")]).2)) /\
    q_imageUrl q = Some k /\ isImageKey (Some k) = true /\
    getImage k (blobs (addQuestions uuid_gen "now" empty_world
                         [sample_data "e1" (Some "data:image/png;base64,QQ==")]).2)
    = Some "data:image/png;base64,QQ==".
Proof.
  split.
  - apply (proj1 (reachable_refs_live uuid_gen (fun X => is_fresh X))).
    apply reach_add; [apply reach_empty | constructor; [reflexivity | constructor]].
  - apply (proj2 (reachable_refs_live uuid_gen (fun X => is_fresh X)) "now" empty_world
             (sample_data "e1" (Some "data:image/png;base64,QQ==")) "data:image/png;base64,QQ==");
      reflexivity.
Defined.

(** Claim C1 as stated fails: a snapshot without any image, but with two
    questions sharing the id ["a"], is loaded by [replaceData]; an answer
    image given to ["a"] through [updateQuestion] is stored once and its
    reference is written into both questions; [deleteExam] on the exam of
    the first one deletes the blob, and the second question, still present,
    holds a reference to nothing. *)
Lemma replace_duplicate_ids_dangling :
  let snap := {| exams := [];
                 questions := [sample_question "a" "e1" None None []; sample_question "a" "e2" None None []];
                 tags := [] |} in
  let patch := {| qp_examId := None; qp_type := None; qp_imageUrl := None; qp_text := None;
                  qp_tags := None; qp_difficulty := None; qp_status := None; qp_notes := None;
                  qp_answer := Some (mkAnswer None (Some ["data:image/png;base64,QQ=="]));
                  qp_lastReviewedAt := None |} in
  let w1 := replaceData uuid_gen "now" empty_world snap in
  let w3 := deleteExam "now" (updateQuestion uuid_gen "now" w1 "a" patch) "e1" in
  Forall (fun q => keys_of q = []) (questions snap) /\ patch_ok w1 "a" patch /\ ~ refs_live w3.
Proof.
  cbv zeta. split; [|split].
  - constructor; [reflexivity | constructor; [reflexivity | constructor]].
  - split; [reflexivity|]. cbn [qp_answer]. split; [vm_compute; constructor|].
    intros k [<- | []] Hr. vm_compute in Hr. discriminate.
  - intros H. unfold refs_live in H.
    match type of H with forall q k, In q (questions (st ?w)) -> _ => set (w3 := w) in H end.
    assert (In (hd (sample_question "" "" None None []) (questions (st w3))) (questions (st w3))) as Hq
      by (unfold w3; vm_compute; left; reflexivity).
    destruct (H _ "idb://0" Hq) as [v Hv]; [unfold w3; vm_compute; left; reflexivity|].
    unfold w3 in Hv. vm_compute in Hv. discriminate.
Qed.

(** ** Filters and selection *)

Lemma set_of_list_fold l : forall acc,
  NoDup acc ->
  NoDup (fold_left (fun acc x => if mem x acc then acc else (acc ++ [x])%list) l acc) /\
  (forall y, In y (fold_left (fun acc x => if mem x acc then acc else (acc ++ [x])%list) l acc)
             <-> In y acc \/ In y l) /\
  (NoDup (acc ++ l)%list -> fold_left (fun acc x => if mem x acc then acc else (acc ++ [x])%list) l acc
                            = (acc ++ l)%list).
Proof.
  induction l as [|x l IH]; intros acc Hacc; simpl.
  - split; [done|]. split; [intros y; tauto | intros _; by rewrite app_nil_r].
  - destruct (mem x acc) eqn:Hm.
    + destruct (IH acc Hacc) as (H1 & H2 & _). split; [done|]. split.
      * intros y. rewrite H2. apply mem_In in Hm. split; [tauto|]. intros [? | [<- | ?]]; auto.
      * intros Hnd. exfalso. apply mem_In in Hm. apply NoDup_app in Hnd as (_ & Hd & _).
        apply (Hd x); [by apply list_elem_of_In | by left].
    + assert (NoDup (acc ++ [x])%list) as Hacc'.
      { apply NoDup_app. split; [done|]. split; [|apply NoDup_singleton].
        intros y Hy ->%list_elem_of_singleton. apply mem_false in Hm. by apply Hm, list_elem_of_In. }
      destruct (IH _ Hacc') as (H1 & H2 & H3). split; [done|]. split.
      * intros y. rewrite H2, in_app_iff. simpl. tauto.
      * intros Hnd. rewrite H3; [by rewrite <- app_assoc|]. by rewrite <- app_assoc.
Qed.

Lemma set_of_list_spec l :
  NoDup (set_of_list l) /\ (forall y, In y (set_of_list l) <-> In y l) /\
  (NoDup l -> set_of_list l = l).
Proof.
  destruct (set_of_list_fold l [] (NoDup_nil_2)) as (H1 & H2 & H3).
  split; [done|]. split; [intros y; rewrite H2; simpl; tauto | exact H3].
Qed.

Lemma filter_neq_NoDup (l : list string) f : NoDup l -> NoDup (List.filter (fun x => negb (String.eqb x f)) l).
Proof. intros H. eapply sublist_NoDup; [exact H|]. apply filter_sublist. Qed.

Lemma filter_neq_In (l : list string) f y :
  In y (List.filter (fun x => negb (String.eqb x f)) l) <-> In y l /\ y <> f.
Proof.
  rewrite filter_In. destruct (String.eqb y f) eqn:E; simpl.
  - apply String.eqb_eq in E. split; [intros [_ H]; discriminate | intros [_ H]; contradiction].
  - apply String.eqb_neq in E. tauto.
Qed.

Lemma filter_neq_notin (l : list string) f : ~ In f l -> List.filter (fun x => negb (String.eqb x f)) l = l.
Proof.
  intros H. apply filter_keep_all. intros x Hx. rewrite eqb_neq_false; [done|]. by intros ->.
Qed.

Lemma NoDup_snoc (l : list string) x : NoDup l -> ~ In x l -> NoDup (l ++ [x])%list.
Proof.
  intros H Hx. apply NoDup_app. split; [done|]. split; [|apply NoDup_singleton].
  intros y Hy ->%list_elem_of_singleton. by apply Hx, list_elem_of_In.
Qed.

(** [handleFilterToggle] keeps the active filters free of repetitions,
    removes the key when it is active and adds it otherwise; toggling the
    same key twice gives back the filters, except that a key that was
    active moves to the end. *)
Theorem toggle_filter_spec (prev : list string) (filterKey : string) :
  NoDup (toggle_filter prev filterKey) /\
  (forall x, In x (toggle_filter prev filterKey) <->
             (In x prev /\ x <> filterKey) \/ (x = filterKey /\ ~ In filterKey prev)) /\
  toggle_filter (toggle_filter prev filterKey) filterKey =
    if mem filterKey prev
    then (List.filter (fun x => negb (String.eqb x filterKey)) (set_of_list prev) ++ [filterKey])%list
    else set_of_list prev.
Proof.
  destruct (set_of_list_spec prev) as (Hnd & Hin & _).
  assert (mem filterKey (set_of_list prev) = mem filterKey prev) as Hm.
  { destruct (mem filterKey prev) eqn:E.
    - apply mem_In, Hin, mem_In in E. done.
    - apply mem_false. rewrite Hin. by apply mem_false. }
  assert (toggle_filter prev filterKey =
          if mem filterKey prev then List.filter (fun x => negb (String.eqb x filterKey)) (set_of_list prev)
          else (set_of_list prev ++ [filterKey])%list) as Ht.
  { unfold toggle_filter. simpl. by rewrite Hm. }
  rewrite Ht. clear Ht.
  destruct (mem filterKey prev) eqn:E.
  - apply mem_In in E.
    assert (~ In filterKey (List.filter (fun x => negb (String.eqb x filterKey)) (set_of_list prev))) as Hn.
    { rewrite filter_neq_In. tauto. }
    split; [by apply filter_neq_NoDup|]. split.
    + intros x. rewrite filter_neq_In, Hin. tauto.
    + unfold toggle_filter. rewrite (proj2 (proj2 (set_of_list_spec _))) by by apply filter_neq_NoDup.
      rewrite (proj2 (mem_false _ _) Hn). done.
  - apply mem_false in E. assert (~ In filterKey (set_of_list prev)) as E' by by rewrite Hin.
    split; [by apply NoDup_snoc|]. split.
    + intros x. rewrite in_app_iff, Hin. simpl. split.
      * intros [Hx | [<- | []]]; [left; split; [done|] | right; done]. by intros ->.
      * intros [[Hx _] | [-> _]]; auto.
    + unfold toggle_filter. rewrite (proj2 (proj2 (set_of_list_spec _))) by by apply NoDup_snoc.
      rewrite mem_app_last, List.filter_app. simpl. rewrite String.eqb_refl. simpl.
      rewrite app_nil_r. by apply filter_neq_notin.
Qed.

Lemma toggle_filter_spec_witness :
  toggle_filter (toggle_filter ["hard"; "new"] "hard") "hard" = ["new"; "hard"].
Proof.
  rewrite (proj2 (proj2 (toggle_filter_spec ["hard"; "new"] "hard"))). reflexivity.
Defined.

(** [handleSelectQuestion] removes every occurrence of a selected id and
    appends an unselected one; selecting twice gives back the selection,
    except that an id that was selected moves to the end. *)
Theorem select_question_spec (prev : list string) (questionId : string) :
  (forall x, In x (select_question prev questionId) <->
             (In x prev /\ x <> questionId) \/ (x = questionId /\ ~ In questionId prev)) /\
  (NoDup prev -> NoDup (select_question prev questionId)) /\
  select_question (select_question prev questionId) questionId =
    if mem questionId prev
    then (List.filter (fun id => negb (String.eqb id questionId)) prev ++ [questionId])%list
    else prev.
Proof.
  assert (select_question prev questionId =
          if mem questionId prev then List.filter (fun id => negb (String.eqb id questionId)) prev
          else (prev ++ [questionId])%list) as Ht by reflexivity.
  rewrite Ht. clear Ht. destruct (mem questionId prev) eqn:E.
  - apply mem_In in E.
    assert (~ In questionId (List.filter (fun id => negb (String.eqb id questionId)) prev)) as Hn
      by (rewrite filter_neq_In; tauto).
    split; [intros x; rewrite filter_neq_In; tauto|]. split; [apply filter_neq_NoDup|].
    unfold select_question. by rewrite (proj2 (mem_false _ _) Hn).
  - apply mem_false in E. split.
    + intros x. rewrite in_app_iff. simpl. split.
      * intros [Hx | [<- | []]]; [left; split; [done|] | right; done]. by intros ->.
      * intros [[Hx _] | [-> _]]; auto.
    + split; [intros H; by apply NoDup_snoc|].
      unfold select_question. rewrite mem_app_last, List.filter_app. simpl. rewrite String.eqb_refl.
      simpl. rewrite app_nil_r. by apply filter_neq_notin.
Qed.

Lemma select_question_spec_witness : NoDup (select_question ["q1"; "q2"] "q3").
Proof.
  apply (proj1 (proj2 (select_question_spec ["q1"; "q2"] "q3"))). vm_compute. repeat constructor; set_solver.
Defined.

Lemma difficulty_is_true q f :
  difficulty_is q f = true <-> exists d, q_difficulty q = Some d /\ difficulty_str d = f.
Proof.
  unfold difficulty_is. destruct (q_difficulty q) as [d|].
  - rewrite String.eqb_eq. split; [eauto | intros (d' & [= ->] & H); done].
  - split; [discriminate | intros (? & ? & _); discriminate].
Qed.

Lemma filter_match_true fs q :
  filter_match fs q = true <->
  (exists d, q_difficulty q = Some d /\ In (difficulty_str d) fs) \/
  (In "new" fs /\ q_status q = New) \/
  (exists f, In f fs /\ In f (q_tags q)).
Proof.
  unfold filter_match. rewrite !orb_true_iff, andb_true_iff, !existsb_exists, mem_In.
  assert (String.eqb (status_str (q_status q)) (status_str New) = true <-> q_status q = New) as Hs.
  { rewrite String.eqb_eq. destruct (q_status q); simpl; split; done. }
  rewrite Hs. simpl status_str. split.
  - intros [[(f & Hf & Hm) | Hn] | (f & Hf & Hm)].
    + left. apply andb_true_iff in Hm as [_ (d & Hd & <-)%difficulty_is_true]. eauto.
    + right; left; done.
    + right; right. apply mem_In in Hm. eauto.
  - intros [(d & Hd & Hf) | [Hn | (f & Hf & Hm)]].
    + left; left. exists (difficulty_str d). split; [done|]. apply andb_true_iff. split.
      * apply mem_In. destruct d; simpl; tauto.
      * apply difficulty_is_true. eauto.
    + left; right; done.
    + right. exists f. split; [done|]. by apply mem_In.
Qed.

(** [filteredQuestions] shows a sublist of the questions (all of them when
    no filter is active); with active filters it shows exactly the questions
    whose difficulty is one of them, or whose status is new when "new" is
    one of them, or which carry one of them as a tag; and activating further
    filters never hides a question already shown. *)
Theorem filteredQuestions_spec (activeFilters : list string) (questions : list Question) :
  sublist (filteredQuestions activeFilters questions) questions /\
  (activeFilters = [] -> filteredQuestions activeFilters questions = questions) /\
  (activeFilters <> [] -> forall q,
     In q (filteredQuestions activeFilters questions) <->
     In q questions /\
     ((exists d, q_difficulty q = Some d /\ In (difficulty_str d) activeFilters) \/
      (In "new" activeFilters /\ q_status q = New) \/
      (exists f, In f activeFilters /\ In f (q_tags q)))) /\
  (forall activeFilters', activeFilters <> [] ->
     (forall f, In f activeFilters -> In f activeFilters') ->
     forall q, In q (filteredQuestions activeFilters questions) ->
               In q (filteredQuestions activeFilters' questions)).
Proof.
  assert (forall fs, fs <> [] -> forall q, In q (filteredQuestions fs questions) <->
            In q questions /\ filter_match fs q = true) as Hin.
  { intros [|f fs] Hne q; [done|]. unfold filteredQuestions. by rewrite filter_In. }
  split; [|split; [|split]].
  - destruct activeFilters; [done|]. apply filter_sublist.
  - by intros ->.
  - intros Hne q. rewrite Hin by done. by rewrite filter_match_true.
  - intros fs' Hne Hsub q. rewrite Hin by done. intros [Hq Hm].
    assert (fs' <> []) as Hne'.
    { destruct activeFilters as [|f]; [done|]. intros ->. by apply (Hsub f); left. }
    rewrite Hin by done. split; [done|]. apply filter_match_true in Hm. apply filter_match_true.
    destruct Hm as [(d & ? & ?) | [[? ?] | (f & ? & ?)]]; eauto 10.
Qed.

Lemma filteredQuestions_spec_witness :
  In (mkQuestion "q1" "e1" QText None None [] (Some Hard) Seen None None "t" "t" None)
     (filteredQuestions ["hard"; "new"]
        [mkQuestion "q1" "e1" QText None None [] (Some Hard) Seen None None "t" "t" None]).
Proof.
  apply (proj2 (proj2 (proj2 (filteredQuestions_spec ["hard"] [mkQuestion "q1" "e1" QText None None [] (Some Hard) Seen None None "t" "t" None])))
           ["hard"; "new"]); [discriminate | intros f [<- | []]; simpl; tauto | vm_compute; tauto].
Defined.



(** ** Reload and merge *)

Lemma filter_idem (p : string -> bool) (l : list string) : List.filter p (List.filter p l) = List.filter p l.
Proof.
  induction l as [|x l IH]; simpl; [done|]. destruct (p x) eqn:E; simpl; [rewrite E|]; by rewrite IH.
Qed.

Lemma question_meta_keys q : keys_of (question_meta q) = keys_of q.
Proof.
  rewrite !keys_of_parts. unfold image_part, answer_urls, question_meta, with_image_answer. simpl.
  f_equal.
  - destruct (q_imageUrl q) as [u|]; simpl; [|done].
    destruct (String.prefix "idb://" u) eqn:E; simpl; rewrite ?E; reflexivity.
  - destruct (q_answer q) as [[t [l|]]|]; simpl; [by rewrite filter_idem | done | done].
Qed.

Lemma question_meta_idem q : question_meta (question_meta q) = question_meta q.
Proof.
  unfold question_meta, with_image_answer. simpl. f_equal.
  - destruct (q_imageUrl q) as [u|]; simpl; [|done].
    destruct (String.prefix "idb://" u) eqn:E; simpl; [by rewrite E | done].
  - destruct (q_answer q) as [[t [l|]]|]; simpl; [by rewrite filter_idem | done | done].
Qed.

(** Reloading the application after the persistence effect has run gives
    back the exams and tags, and the questions with their inline images
    dropped but every Blob Store reference kept, so a state whose references
    are live still has them live after a reload; saving the reloaded state
    writes the same storage again. *)
Theorem reload_after_persist (w : World) (ls ls' : LocalStorage) :
  let s' := initializer (persist true (st w) ls) in
  exams s' = exams (st w) /\ tags s' = tags (st w) /\
  questions s' = map question_meta (questions (st w)) /\
  map q_id (questions s') = map q_id (questions (st w)) /\
  map keys_of (questions s') = map keys_of (questions (st w)) /\
  (refs_live w -> refs_live {| st := s'; blobs := blobs w |}) /\
  persist true s' ls' = persist true (st w) ls.
Proof.
  simpl. split; [done|]. split; [done|]. split; [done|]. split.
  { rewrite map_map. apply map_ext. done. }
  split.
  { rewrite map_map. apply map_ext. apply question_meta_keys. }
  split.
  - intros Hl q k Hq Hk. simpl in *. apply in_map_iff in Hq as (q0 & <- & Hq0).
    rewrite question_meta_keys in Hk. by apply (Hl q0).
  - unfold persist. simpl. f_equal. f_equal. rewrite map_map. apply map_ext. apply question_meta_idem.
Qed.

Lemma reload_after_persist_witness :
  refs_live {| st := initializer (persist true
                 {| exams := []; tags := [];
                    questions := [mkQuestion "q1" "e1" QImage (Some "idb://k1") None [] None New None
                                    (Some (mkAnswer None (Some ["data:image/png;base64,AA"; "idb://k2"])))
                                    "t" "t" None] |}
                 (mkLocalStorage None None None));
               blobs := <["k1" := "data:image/png;base64,BB"]> (<["k2" := "data:image/png;base64,CC"]> ∅) |}.
Proof.
  refine (proj1 (proj2 (proj2 (proj2 (proj2 (proj2
    (reload_after_persist
       {| st := {| exams := []; tags := [];
                   questions := [mkQuestion "q1" "e1" QImage (Some "idb://k1") None [] None New None
                                   (Some (mkAnswer None (Some ["data:image/png;base64,AA"; "idb://k2"])))
                                   "t" "t" None] |};
          blobs := <["k1" := "data:image/png;base64,BB"]> (<["k2" := "data:image/png;base64,CC"]> ∅) |}
       (mkLocalStorage None None None) (mkLocalStorage None None None))))))) _).
  intros q k Hq Hk. simpl in Hq. destruct Hq as [<- | []].
  vm_compute in Hk. destruct Hk as [<- | [<- | []]]; vm_compute; eexists; reflexivity.
Defined.

Lemma set_fst_iff {A} (m : list (string * A)) k v x :
  In x (map fst (JsMap.set m k v)) <-> x = k \/ In x (map fst m).
Proof.
  induction m as [|[k' v'] m IH]; simpl; [naive_solver|].
  destruct (String.eqb k k') eqn:E; simpl.
  - apply String.eqb_eq in E as ->. naive_solver.
  - rewrite IH. naive_solver.
Qed.

Lemma merge_fold_ids {A} (id : A -> string) (f : list (string * A) -> A -> A)
    (Hf : forall m x, id (f m x) = id x) (xs : list A) : forall m,
  NoDup (map fst m) -> Forall (fun kv => id kv.2 = kv.1) m ->
  let m' := fold_left (fun m x => JsMap.set m (id x) (f m x)) xs m in
  NoDup (map fst m') /\ Forall (fun kv => id kv.2 = kv.1) m' /\
  (forall i, In i (map fst m') <-> In i (map fst m) \/ In i (map id xs)).
Proof.
  induction xs as [|x xs IH]; intros m Hnd Hid; simpl; [split; [done|]; split; [done|]; naive_solver|].
  destruct (IH (JsMap.set m (id x) (f m x))) as (H1 & H2 & H3).
  { by apply set_NoDup. }
  { by apply set_ids. }
  split; [done|]. split; [done|]. intros i. rewrite H3, set_fst_iff. naive_solver.
Qed.

Lemma merge_collection_ids {A} (id : A -> string) (spread : option A -> A -> A)
    (Hsp : forall o x, id (spread o x) = id x) (existing incoming : list A) :
  NoDup (map id (merge_collection id spread existing incoming)) /\
  (forall i, In i (map id (merge_collection id spread existing incoming)) <->
             In i (map id existing) \/ In i (map id incoming)).
Proof.
  unfold merge_collection, JsMap.of_list.
  assert (forall (l : list (string * A)) m,
            Forall (fun kv => id kv.2 = kv.1) l ->
            NoDup (map fst m) -> Forall (fun kv => id kv.2 = kv.1) m ->
            let m' := fold_left (fun m kv => JsMap.set m kv.1 kv.2) l m in
            NoDup (map fst m') /\ Forall (fun kv => id kv.2 = kv.1) m' /\
            (forall i, In i (map fst m') <-> In i (map fst m) \/ In i (map fst l))) as Hof.
  { induction l as [|kv l IH]; intros m Hl Hnd Hid; simpl; [split; [done|]; split; [done|]; naive_solver|].
    apply Forall_cons in Hl as [Hkv Hl].
    destruct (IH (JsMap.set m kv.1 kv.2) Hl) as (H1 & H2 & H3); [by apply set_NoDup | by apply set_ids|].
    split; [done|]. split; [done|]. intros i. rewrite H3, set_fst_iff. naive_solver. }
  destruct (Hof (map (fun e => (id e, e)) existing) [])
    as (H1 & H2 & H3); [apply Forall_forall; intros kv Hkv%list_elem_of_In;
       apply in_map_iff in Hkv as (e & <- & _); done | constructor | constructor |].
  destruct (merge_fold_ids id (fun m x => spread (JsMap.get m (id x)) x) (fun m x => Hsp _ x) incoming _ H1 H2)
    as (G1 & G2 & G3).
  rewrite values_ids by done. split; [done|].
  intros i. rewrite G3, H3, map_map. simpl. naive_solver.
Qed.

(** MERGE_DATA always yields exams, questions and tags with pairwise
    distinct ids, whatever the local state and the snapshot hold, and the ids
    of each merged collection are those of the local and the incoming
    records together. *)
Theorem merge_data_ids (now : string) (s data : AppState) :
  let s' := appReducer now s (MERGE_DATA data) in
  NoDup (map e_id (exams s')) /\
  (forall i, In i (map e_id (exams s')) <-> In i (map e_id (exams s)) \/ In i (map e_id (exams data))) /\
  NoDup (map q_id (questions s')) /\
  (forall i, In i (map q_id (questions s')) <-> In i (map q_id (questions s)) \/ In i (map q_id (questions data))) /\
  NoDup (map t_id (tags s')) /\
  (forall i, In i (map t_id (tags s')) <-> In i (map t_id (tags s)) \/ In i (map t_id (tags data))).
Proof.
  simpl.
  destruct (merge_collection_ids e_id spread_exam (fun o x => ltac:(by destruct o)) (exams s) (exams data)) as [E1 E2].
  destruct (merge_collection_ids q_id spread_question (fun o x => ltac:(by destruct o)) (questions s) (questions data)) as [Q1 Q2].
  destruct (merge_collection_ids t_id spread_tag (fun o x => ltac:(by destruct o)) (tags s) (tags data)) as [T1 T2].
  auto 10.
Qed.

(** ** The Blob Store *)

Lemma replace_first_unfold (pat rep s : string) :
  replace_first pat rep s =
  if String.prefix pat s then rep ++ substring (String.length pat) (String.length s - String.length pat) s
  else match s with
       | EmptyString => EmptyString
       | String c s' => String c (replace_first pat rep s')
       end.
Proof. by destruct s. Qed.

Lemma actualKey_bare (key : string) :
  Forall (fun c => c <> ":"%char) (list_ascii_of_string key) -> actualKey key = key.
Proof.
  unfold actualKey. induction key as [|c s IH]; intros H; [done|].
  rewrite replace_first_unfold. destruct (String.prefix "idb://" (String c s)) eqn:P.
  - apply prefix_app in P as [r Hr]. rewrite Hr in H. simpl in H.
    rewrite !Forall_cons in H. destruct H as (_ & _ & _ & H & _). by contradiction H.
  - simpl in H. apply Forall_cons in H as [_ H]. by rewrite IH.
Qed.

(** [storeImage] puts the data URI under a key not yet in use and returns
    that key as an [idb://] reference; [getImage] of the reference reads the
    data URI back, and no other entry of the store changes. *)
Theorem storeImage_roundtrip (gen : gset string -> string) (gen_fresh : forall X, gen X ∉ X)
    (base64 : string) (db : gmap string string) :
  let r := storeImage gen base64 db in
  isImageKey (Some r.1) = true /\ db !! actualKey r.1 = None /\
  getImage r.1 r.2 = Some base64 /\
  (forall x, x <> actualKey r.1 -> r.2 !! x = db !! x).
Proof.
  unfold storeImage, getImage. simpl. rewrite actualKey_ref.
  split; [apply isImageKey_ref|]. split; [|split].
  - apply not_elem_of_dom. apply gen_fresh.
  - by rewrite lookup_insert_eq.
  - intros x Hx. by rewrite lookup_insert_ne.
Qed.

Lemma storeImage_roundtrip_witness :
  getImage (storeImage uuid_gen "data:image/png;base64,AA" ∅).1
           (storeImage uuid_gen "data:image/png;base64,AA" ∅).2 = Some "data:image/png;base64,AA".
Proof.
  apply (proj1 (proj2 (proj2 (storeImage_roundtrip uuid_gen (fun X => is_fresh X) "data:image/png;base64,AA" ∅)))).
Defined.

(** [getImage] and [deleteImages] address an entry by the key with its
    first [idb://] removed: a reference ["idb://" ++ key] and, for a key
    without ':' such as a UUID, the bare key reach the same entry; after
    [deleteImages keys], an entry reads back nothing exactly when one of the
    keys addresses it, and reads back as before otherwise. *)
Theorem blob_store_addressing (keys : list string) (db : gmap string string) (key k : string) :
  getImage ("idb://" ++ key) db = db !! key /\
  (Forall (fun c => c <> ":"%char) (list_ascii_of_string key) -> getImage key db = db !! key) /\
  getImage k (deleteImages keys db) =
    if existsb (fun d => String.eqb (actualKey d) (actualKey k)) keys then None else getImage k db.
Proof.
  unfold getImage. rewrite actualKey_ref. split; [done|]. split; [intros H; by rewrite actualKey_bare|].
  destruct (existsb _ keys) eqn:E.
  - apply existsb_exists in E as (d & Hd & Hk). apply String.eqb_eq in Hk. rewrite <- Hk.
    by apply deleteImages_gone.
  - apply deleteImages_other. intros d Hd Heq. apply not_true_iff_false in E. apply E.
    apply existsb_exists. exists d. split; [done|]. by apply String.eqb_eq.
Qed.

Lemma blob_store_addressing_witness :
  getImage "k1" (<["k1" := "data:image/png;base64,AA"]> ∅) = Some "data:image/png;base64,AA".
Proof.
  rewrite (proj1 (proj2 (blob_store_addressing [] (<["k1" := "data:image/png;base64,AA"]> ∅) "k1" "k1"))).
  - reflexivity.
  - simpl. repeat constructor; discriminate.
Defined.

(** ** Deleting questions and tags *)

Lemma mem_single x y : mem x [y] = String.eqb x y.
Proof. unfold mem. simpl. by rewrite orb_false_r. Qed.

(** With pairwise distinct question ids, deleting one question is deleting
    the list made of its id: the same questions remain and the same Blob
    Store entries are removed. *)
Theorem deleteQuestion_single now (w : World) (questionId : string) :
  NoDup (map q_id (questions (st w))) ->
  deleteQuestion now w questionId = deleteQuestions now w [questionId].
Proof.
  intros Hnd. unfold deleteQuestion, deleteQuestions, dispatch.
  assert (List.filter (fun q => mem (q_id q) [questionId]) (questions (st w)) =
          List.filter (fun q => String.eqb (q_id q) questionId) (questions (st w))) as Hf1.
  { apply filter_ext. intros q. apply mem_single. }
  assert (List.filter (fun q => negb (mem (q_id q) [questionId])) (questions (st w)) =
          List.filter (fun q => negb (String.eqb (q_id q) questionId)) (questions (st w))) as Hf2.
  { apply filter_ext. intros q. by rewrite mem_single. }
  rewrite Hf1. destruct (find _ _) as [t|] eqn:Hf.
  - rewrite (filter_id_single _ _ _ Hnd Hf). f_equal.
    + cbn [appReducer st]. by rewrite Hf2.
    + cbn [flat_map]. by rewrite app_nil_r.
  - pose proof (find_none _ _ Hf) as Hn.
    rewrite (filter_drop_all _ _); [|intros y Hy; by apply Hn].
    cbn [delete_if_any appReducer blobs st]. rewrite Hf2, (filter_keep_all _ _); [by destruct w as [[] db]|].
    intros q Hq. by rewrite (Hn q Hq).
Qed.

Lemma deleteQuestion_single_witness :
  deleteQuestion "now" {| st := {| exams := []; tags := [];
                                   questions := [sample_question "q1" "e1" (Some "idb://k1") None []] |};
                          blobs := <["k1" := "data:image/png;base64,AA"]> ∅ |} "q1"
  = deleteQuestions "now" {| st := {| exams := []; tags := [];
                                      questions := [sample_question "q1" "e1" (Some "idb://k1") None []] |};
                             blobs := <["k1" := "data:image/png;base64,AA"]> ∅ |} ["q1"].
Proof. apply deleteQuestion_single. vm_compute. repeat constructor; set_solver. Defined.

(** [deleteQuestions] keeps the exams and tags, keeps exactly the questions
    whose id is not among the given ones, leaves no Blob Store entry behind
    for any reference a removed question held, and keeps every reference of
    the remaining questions live when references were live and held once. *)
Theorem deleteQuestions_cascade now (w : World) (questionIds : list string) :
  let w' := deleteQuestions now w questionIds in
  exams (st w') = exams (st w) /\ tags (st w') = tags (st w) /\
  (forall q, In q (questions (st w')) <-> In q (questions (st w)) /\ ~ In (q_id q) questionIds) /\
  (forall q k, In q (questions (st w)) -> In (q_id q) questionIds -> In k (keys_of q) ->
     getImage k (blobs w') = None) /\
  (blob_inv w -> blob_inv w').
Proof.
  simpl. split; [done|]. split; [done|]. split; [|split].
  - intros q. rewrite filter_In, negb_true_iff, mem_false. done.
  - intros q k Hq Hid Hk. unfold getImage. rewrite delete_if_any_eq. apply deleteImages_gone.
    apply in_flat_map. exists q. split; [|done]. apply filter_In. split; [done|]. by apply mem_In.
  - apply inv_deleteQuestions.
Qed.

Lemma deleteQuestions_cascade_witness :
  getImage "idb://k1"
    (blobs (deleteQuestions "now"
              {| st := {| exams := []; tags := [];
                          questions := [sample_question "q1" "e1" (Some "idb://k1") None []] |};
                 blobs := <["k1" := "data:image/png;base64,AA"]> ∅ |} ["q1"])) = None.
Proof.
  apply (proj1 (proj2 (proj2 (proj2 (deleteQuestions_cascade "now"
    {| st := {| exams := []; tags := [];
                questions := [sample_question "q1" "e1" (Some "idb://k1") None []] |};
       blobs := <["k1" := "data:image/png;base64,AA"]> ∅ |} ["q1"]))))
    (sample_question "q1" "e1" (Some "idb://k1") None [])); simpl; auto.
Defined.

(** [deleteTag] removes every tag with that id and strips the id from the
    tags of every question, keeping all other tags, the exams, the order
    and ids of the questions, their image references and the Blob Store. *)
Theorem deleteTag_cascade now (w : World) (tagId : string) :
  let w' := deleteTag now w tagId in
  blobs w' = blobs w /\ exams (st w') = exams (st w) /\
  (forall t, In t (tags (st w')) <-> In t (tags (st w)) /\ t_id t <> tagId) /\
  map q_id (questions (st w')) = map q_id (questions (st w)) /\
  map keys_of (questions (st w')) = map keys_of (questions (st w)) /\
  Forall2 (fun q q' => forall x, In x (q_tags q') <-> In x (q_tags q) /\ x <> tagId)
          (questions (st w)) (questions (st w')).
Proof.
  simpl. split; [done|]. split; [done|]. split; [|split; [|split]].
  - intros t. rewrite filter_In, negb_true_iff. rewrite <- not_true_iff_false, String.eqb_eq. done.
  - rewrite map_map. by apply map_ext.
  - rewrite map_map. by apply map_ext.
  - apply Forall2_map_self. intros q _ x. simpl. apply filter_neq_In.
Qed.

(** [handleBulkUpdateDifficulty] clears the selection and gives every
    selected question the chosen difficulty and the status seen, with a new
    [updatedAt] and every other field kept, leaves the unselected questions,
    the exams, the tags and the Blob Store untouched. *)
Theorem bulk_update_difficulty now (w : World) (selectedQuestions : list string) (d : Difficulty) :
  let r := handleBulkUpdateDifficulty now w selectedQuestions d in
  r.2 = [] /\ blobs r.1 = blobs w /\ exams (st r.1) = exams (st w) /\ tags (st r.1) = tags (st w) /\
  Forall2 (fun q q' =>
             if mem (q_id q) selectedQuestions then
               q_difficulty q' = Some d /\ q_status q' = Seen /\ q_updatedAt q' = now /\
               q_id q' = q_id q /\ q_examId q' = q_examId q /\ q_type q' = q_type q /\
               q_imageUrl q' = q_imageUrl q /\ q_text q' = q_text q /\ q_tags q' = q_tags q /\
               q_notes q' = q_notes q /\ q_answer q' = q_answer q /\
               q_createdAt q' = q_createdAt q /\ q_lastReviewedAt q' = q_lastReviewedAt q
             else q' = q)
          (questions (st w)) (questions (st r.1)).
Proof.
  simpl. do 4 (split; [done|]). apply Forall2_map_self. intros q _.
  destruct (mem (q_id q) selectedQuestions); [|done]. simpl. repeat split.
Qed.

(** ** What the Blob Store holds *)

Section StoreContents.

Variable gen : gset string -> string.

Lemma sdu_deleteImages keys db : store_data_uris db -> store_data_uris (deleteImages keys db).
Proof.
  revert db. induction keys as [|k ks IH]; intros db H; [done|].
  rewrite deleteImages_cons. apply IH. by apply map_Forall_delete.
Qed.

Lemma sdu_delete_if_any keys db : store_data_uris db -> store_data_uris (delete_if_any keys db).
Proof. rewrite delete_if_any_eq. apply sdu_deleteImages. Qed.

Lemma sdu_storeImage u db :
  isBase64 (Some u) = true -> store_data_uris db -> store_data_uris (storeImage gen u db).2.
Proof. intros Hu H. unfold storeImage. simpl. by apply map_Forall_insert_2. Qed.

Lemma sdu_store_all us : forall db, store_data_uris db -> store_data_uris (store_all gen us db).2.
Proof.
  induction us as [|u us IH]; intros db H; simpl; [done|].
  destruct (String.prefix "data:image" u) eqn:Hu.
  - pose proof (sdu_storeImage u db Hu H) as H1. destruct (storeImage gen u db) as [k db1].
    specialize (IH db1 H1). destruct (store_all gen us db1). done.
  - specialize (IH db H). destruct (store_all gen us db). done.
Qed.

Lemma sdu_process_new_all ds : forall db,
  store_data_uris db -> store_data_uris (process_new_all gen ds db).2.
Proof.
  induction ds as [|d ds IH]; intros db H; simpl; [done|].
  assert (store_data_uris (process_new gen d db).2) as H1.
  { unfold process_new. destruct (d_imageUrl d) as [u|]; [|done].
    destruct (isBase64 (Some u)) eqn:Hu; [|done].
    pose proof (sdu_storeImage u db Hu H) as H2. destruct (storeImage gen u db). done. }
  destruct (process_new gen d db) as [p db1]. specialize (IH db1 H1).
  destruct (process_new_all gen ds db1). done.
Qed.

Lemma sdu_process_imported q db : store_data_uris db -> store_data_uris (process_imported gen q db).2.
Proof.
  intros H. unfold process_imported.
  assert (forall img db1, store_data_uris db1 ->
            store_data_uris (let '(ans, db2) :=
                               match q_answer q with
                               | Some (mkAnswer txt (Some urls)) =>
                                   let '(ks, d) := store_all gen urls db1 in (Some (mkAnswer txt (Some ks)), d)
                               | a => (a, db1)
                               end in (with_image_answer q img ans, db2)).2) as Hans.
  { intros img db1 H1. destruct (q_answer q) as [[txt [urls|]]|]; simpl; [|done|done].
    pose proof (sdu_store_all urls db1 H1). destruct (store_all gen urls db1). done. }
  destruct (q_imageUrl q) as [u|]; [|by apply Hans].
  destruct (isBase64 (Some u)) eqn:Hu; [|by apply Hans].
  pose proof (sdu_storeImage u db Hu H) as H1. destruct (storeImage gen u db). by apply Hans.
Qed.

Lemma sdu_processImported qs : forall db,
  store_data_uris db -> store_data_uris (processImportedQuestions gen qs db).2.
Proof.
  induction qs as [|q qs IH]; intros db H; simpl; [done|].
  pose proof (sdu_process_imported q db H) as H1. destruct (process_imported gen q db) as [p db1].
  specialize (IH db1 H1). destruct (processImportedQuestions gen qs db1). done.
Qed.

Lemma sdu_op_step w w' : op_step gen w w' -> store_data_uris (blobs w) -> store_data_uris (blobs w').
Proof.
  intros Hs H. destruct Hs; try done.
  - apply sdu_delete_if_any, H.
  - unfold addQuestions. pose proof (sdu_process_new_all data (blobs w) H) as H1.
    destruct (process_new_all gen data (blobs w)) as [ps db]. simpl in H1.
    destruct (stamp _ _ _ _); done.
  - unfold updateQuestion. destruct (find _ _) as [t|]; [|done].
    destruct (qp_answer d) as [[txt [urls|]]|]; try done.
    pose proof (sdu_store_all urls (blobs w) H) as H1. destruct (store_all gen urls (blobs w)) as [ks db1].
    by apply sdu_delete_if_any.
  - unfold deleteQuestion. destruct (find _ _); [|done]. by apply sdu_delete_if_any.
  - by apply sdu_delete_if_any.
  - unfold replaceData.
    pose proof (sdu_processImported (questions data) _ (sdu_delete_if_any (flat_map keys_of (questions (st w))) _ H)) as H1.
    destruct (processImportedQuestions _ _ _). done.
  - unfold mergeData. pose proof (sdu_processImported (questions data) _ H) as H1.
    destruct (processImportedQuestions _ _ _). done.
  - unfold updateTag. by destruct (find _ _).
Qed.

End StoreContents.

(** The DataProvider operations only ever put data URIs into the Blob
    Store: in every world reached from the empty one by any sequence of
    them, every stored value is a [data:image] URI. *)
Theorem reached_store_data_uris (gen : gset string -> string) (w : World) :
  rtc (op_step gen) empty_world w -> store_data_uris (blobs w).
Proof.
  intros Hr. remember empty_world as w0 eqn:E.
  assert (store_data_uris (blobs w0)) as H0 by (subst; apply map_Forall_empty).
  clear E. induction Hr as [w0|w0 w1 w2 Hs Hr IH]; [done|].
  apply IH. by apply (sdu_op_step gen w0 w1).
Qed.

Lemma reached_store_data_uris_witness :
  store_data_uris (blobs (addQuestions uuid_gen "now" empty_world
                            [sample_data "e1" (Some "data:image/png;base64,AA")]).2).
Proof.
  apply (reached_store_data_uris uuid_gen). apply rtc_once. apply step_addQuestions.
Defined.

(** ** Answer images of [updateQuestion] *)

Lemma Forall2_in_r {A B} (R : A -> B -> Prop) l1 l2 :
  Forall2 R l1 l2 -> Forall2 (fun x y => R x y /\ In y l2) l1 l2.
Proof.
  induction 1 as [|x y l1 l2 Hxy _ IH]; constructor; [split; [done | by left]|].
  eapply Forall2_impl; [exact IH|]. intros a b [Hab Hb]. split; [done | by right].
Qed.

(** When [updateQuestion] receives answer image urls for an existing
    question, every data URI among them is stored and replaced by a
    reference that reads it back (the other urls are kept as they are), the
    updated question carries exactly these references, every reference of
    the old answer that is not kept is removed from the Blob Store, and every
    other stored entry reads back as before. *)
Theorem updateQuestion_answer_images (gen : gset string -> string) (gen_fresh : forall X, gen X ∉ X)
    now (w : World) (questionId : string) (data : QuestionPatch) (t : Question)
    (txt : option string) (urls : list string) :
  find (fun q => String.eqb (q_id q) questionId) (questions (st w)) = Some t ->
  qp_answer data = Some (mkAnswer txt (Some urls)) ->
  exists ks,
    Forall2 (extracted (blobs (updateQuestion gen now w questionId data))) urls ks /\
    (forall q, In q (questions (st (updateQuestion gen now w questionId data))) -> q_id q = questionId ->
               q_answer q = Some (mkAnswer txt (Some ks))) /\
    (forall k, In k (answer_urls t) -> isImageKey (Some k) = true -> ~ In k ks ->
               getImage k (blobs (updateQuestion gen now w questionId data)) = None) /\
    (forall k v, isImageKey (Some k) = true -> ~ In k (answer_urls t) -> getImage k (blobs w) = Some v ->
               getImage k (blobs (updateQuestion gen now w questionId data)) = Some v).
Proof.
  intros Hf Ha. unfold updateQuestion. rewrite Hf, Ha.
  destruct (store_all_spec gen gen_fresh urls (blobs w)) as [Hsub HF].
  destruct (store_all gen urls (blobs w)) as [ks db1]. simpl in *.
  set (toDel := List.filter (fun k => negb (mem k ks))
                  (List.filter (fun u => isImageKey (Some u)) (answer_urls t))).
  assert (forall d, In d toDel -> In d (answer_urls t) /\ isImageKey (Some d) = true /\ ~ In d ks) as Hdel.
  { intros d Hd. unfold toDel in Hd. rewrite !filter_In, negb_true_iff, mem_false in Hd. tauto. }
  exists ks. split; [|split; [|split]].
  - apply Forall2_in_r in HF. eapply Forall2_impl; [exact HF|]. intros u k [Hx Hk].
    unfold extracted in *. destruct (isBase64 (Some u)); [|done]. destruct Hx as [Hr Hg].
    split; [done|]. unfold getImage in *. rewrite delete_if_any_eq, deleteImages_keep; [done|done| |].
    + intros d Hd. apply Hdel, Hd.
    + intros Hd. by apply Hdel in Hd as (_ & _ & Hn).
  - intros q Hq Hid. apply in_map_iff in Hq as (q0 & <- & Hq0).
    destruct (String.eqb (q_id q0) questionId) eqn:E; [done|].
    rewrite Hid, String.eqb_refl in E. discriminate.
  - intros k Hk Hr Hn. unfold getImage. rewrite delete_if_any_eq. apply deleteImages_gone.
    unfold toDel. rewrite !filter_In, negb_true_iff, mem_false. tauto.
  - intros k v Hr Hn Hg. unfold getImage in *. rewrite delete_if_any_eq, deleteImages_keep; [|done| |].
    + by eapply lookup_weaken.
    + intros d Hd. apply Hdel, Hd.
    + intros Hd. by apply Hdel in Hd as (Hd & _).
Qed.

Lemma updateQuestion_answer_images_witness :
  exists ks,
    Forall2 (extracted (blobs (updateQuestion uuid_gen "now"
      {| st := {| exams := []; tags := [];
                  questions := [sample_question "q1" "e1" None
                                  (Some (mkAnswer None (Some ["idb://k1"]))) []] |};
         blobs := <["k1" := "data:image/png;base64,AA"]> ∅ |}
      "q1" (mkQuestionPatch None None None None None None None None
              (Some (mkAnswer None (Some ["data:image/png;base64,BB"]))) None))))
      ["data:image/png;base64,BB"] ks.
Proof.
  destruct (updateQuestion_answer_images uuid_gen (fun X => is_fresh X) "now"
      {| st := {| exams := []; tags := [];
                  questions := [sample_question "q1" "e1" None
                                  (Some (mkAnswer None (Some ["idb://k1"]))) []] |};
         blobs := <["k1" := "data:image/png;base64,AA"]> ∅ |}
      "q1" (mkQuestionPatch None None None None None None None None
              (Some (mkAnswer None (Some ["data:image/png;base64,BB"]))) None)
      (sample_question "q1" "e1" None (Some (mkAnswer None (Some ["idb://k1"]))) [])
      None ["data:image/png;base64,BB"] ltac:(vm_compute; reflexivity) eq_refl) as (ks & H & _).
  exists ks. exact H.
Defined.

(** ** Backup and restore *)

Lemma all_some_Forall2 {A} (l : list (option A)) ys :
  all_some l = Some ys <-> Forall2 (fun o y => o = Some y) l ys.
Proof.
  split.
  - revert ys. induction l as [|[x|] l IH]; intros ys; simpl.
    + intros [= <-]. constructor.
    + destruct (all_some l) as [zs|]; [|discriminate]. intros [= <-]. constructor; [done|]. by apply IH.
    + discriminate.
  - induction 1 as [|o y l ys Ho _ IH]; [done|]. subst o. simpl. by rewrite IH.
Qed.

Lemma all_some_map_exists {A B} (f : A -> option B) (l : list A) :
  (forall x, In x l -> exists y, f x = Some y) ->
  exists ys, all_some (map f l) = Some ys /\ Forall2 (fun x y => f x = Some y) l ys.
Proof.
  induction l as [|x l IH]; intros H; simpl; [by exists []|].
  destruct (H x (or_introl eq_refl)) as [y Hy]. rewrite Hy.
  destruct IH as (ys & E & HF); [intros z Hz; apply H; by right|].
  rewrite E. exists (y :: ys). split; [done|]. by constructor.
Qed.

Lemma Forall2_map_l_iff {A B C} (R : B -> C -> Prop) (f : A -> B) l ys :
  Forall2 R (map f l) ys <-> Forall2 (fun x y => R (f x) y) l ys.
Proof.
  revert ys. induction l as [|x l IH]; intros ys; simpl.
  - split; intros H; inversion H; constructor.
  - split; intros H; inversion H; subst; constructor; try done; by apply IH.
Qed.

Lemma Forall2_chain {A B C} (R1 : A -> B -> Prop) (R2 : B -> C -> Prop) l1 l2 l3 :
  Forall2 R1 l1 l2 -> Forall2 R2 l2 l3 -> Forall2 (fun x z => exists y, R1 x y /\ R2 y z) l1 l3.
Proof.
  intros H1. revert l3. induction H1 as [|x y l1 l2 Hxy _ IH]; intros l3 H2; inversion H2; subst;
    constructor; eauto.
Qed.

Lemma restored_url_weaken db db1 db2 u k :
  db1 ⊆ db2 -> (isImageKey (Some u) = true -> is_Some (getImage u db)) ->
  restored_url db db1 u k -> restored_url db db2 u k.
Proof.
  unfold restored_url. intros Hs Hl. destruct (isImageKey (Some u)).
  - intros [Hk Hg]. split; [done|]. destruct (Hl eq_refl) as [v Hv]. rewrite Hv in Hg |- *.
    unfold getImage in *. by eapply lookup_weaken.
  - by apply extracted_weaken.
Qed.

Lemma Forall2_in_l {A B} (R : A -> B -> Prop) l1 l2 :
  Forall2 R l1 l2 -> Forall2 (fun x y => R x y /\ In x l1) l1 l2.
Proof.
  induction 1 as [|x y l1 l2 Hxy _ IH]; constructor; [split; [done | by left]|].
  eapply Forall2_impl; [exact IH|]. intros a b [Hab Hb]. split; [done | by right].
Qed.

Lemma sdu_lookup db k v : store_data_uris db -> getImage k db = Some v -> isBase64 (Some v) = true.
Proof. intros H Hk. exact (map_Forall_lookup_1 _ _ _ _ H Hk). Qed.

Lemma restored_image_weaken db db1 db2 img img' :
  db1 ⊆ db2 -> (forall u, img = Some u -> isImageKey (Some u) = true -> is_Some (getImage u db)) ->
  restored_image db db1 img img' -> restored_image db db2 img img'.
Proof.
  intros Hs Hl. destruct img as [u|], img' as [k|]; simpl; try done.
  apply restored_url_weaken; [done|]. by apply Hl.
Qed.

Lemma restored_weaken db db1 db2 q q' :
  db1 ⊆ db2 -> (forall k, In k (keys_of q) -> is_Some (getImage k db)) ->
  restored db db1 q q' -> restored db db2 q q'.
Proof.
  intros Hs Hl (H1 & H2 & H3). split; [done|]. split.
  - eapply restored_image_weaken; [exact Hs| |exact H2].
    intros u Hu Hr. apply Hl, keys_of_In. auto.
  - apply Forall2_in_l in H3. eapply Forall2_impl; [exact H3|]. intros u k [Hr Hu].
    apply (restored_url_weaken db db1 db2 u k Hs); [|done].
    intros Hk. apply Hl, keys_of_In. auto.
Qed.

Section Restore.

Variable gen : gset string -> string.
Hypothesis gen_fresh : forall X, gen X ∉ X.

Lemma import_image_stage db img db0 :
  store_data_uris db ->
  (forall u, img = Some u -> isImageKey (Some u) = true -> is_Some (getImage u db)) ->
  let r := match export_image db img with
           | Some u => if isBase64 (Some u) then let '(k, d) := storeImage gen u db0 in (Some k, d)
                       else (Some u, db0)
           | None => (None, db0)
           end in
  db0 ⊆ r.2 /\ restored_image db r.2 img r.1.
Proof.
  intros Hsdu Hl. destruct img as [u|]; [|simpl; done].
  unfold export_image. destruct (isImageKey (Some u)) eqn:Hr.
  - destruct (Hl u eq_refl Hr) as [v Hv]. rewrite Hv. rewrite (sdu_lookup db u v Hsdu Hv).
    destruct (storeImage_spec gen gen_fresh v db0) as (S1 & S2 & S3).
    destruct (storeImage gen v db0) as [k db1]. cbn [fst snd] in *.
    split; [done|]. unfold restored_image, restored_url. rewrite Hr, Hv. done.
  - destruct (isBase64 (Some u)) eqn:Hb.
    + destruct (storeImage_spec gen gen_fresh u db0) as (S1 & S2 & S3).
      destruct (storeImage gen u db0) as [k db1]. cbn [fst snd] in *.
      split; [done|]. unfold restored_image, restored_url, extracted. rewrite Hr, Hb. done.
    + cbn [fst snd]. split; [done|]. unfold restored_image, restored_url, extracted. rewrite Hr, Hb. done.
Qed.

Lemma import_urls_stage db urls vs db1 :
  store_data_uris db -> all_some (export_urls db urls) = Some vs ->
  db1 ⊆ (store_all gen vs db1).2 /\
  Forall2 (restored_url db (store_all gen vs db1).2) urls (store_all gen vs db1).1.
Proof.
  intros Hsdu Ha. destruct (store_all_spec gen gen_fresh vs db1) as [Hs HF].
  split; [done|]. apply all_some_Forall2 in Ha. unfold export_urls in Ha.
  apply Forall2_map_l_iff in Ha.
  eapply Forall2_impl; [exact (Forall2_chain _ _ _ _ _ Ha HF)|].
  intros u k (v & Hv & Hx). unfold restored_url. destruct (isImageKey (Some u)) eqn:Hr.
  - unfold extracted in Hx. rewrite (sdu_lookup db u v Hsdu Hv) in Hx. rewrite Hv. done.
  - injection Hv as <-. done.
Qed.

Lemma export_import_one db q e db0 :
  store_data_uris db -> (forall k, In k (keys_of q) -> is_Some (getImage k db)) ->
  export_question db q = Some e ->
  db0 ⊆ (process_imported gen e db0).2 /\
  restored db (process_imported gen e db0).2 q (process_imported gen e db0).1.
Proof.
  intros Hsdu Hl He.
  assert (forall u, q_imageUrl q = Some u -> isImageKey (Some u) = true -> is_Some (getImage u db)) as Hli.
  { intros u Hu Hr. apply Hl, keys_of_In. auto. }
  pose proof (import_image_stage db (q_imageUrl q) db0 Hsdu Hli) as Himg.
  unfold export_question in He. unfold process_imported.
  destruct (q_answer q) as [[t [urls|]]|] eqn:Ha.
  - destruct (all_some (export_urls db urls)) as [vs|] eqn:Hvs; [|discriminate].
    injection He as <-. cbn [with_image_answer q_imageUrl q_answer].
    cbv zeta in Himg. lazymatch type of Himg with context [snd ?M] => destruct M as [img' db1] end.
    cbn [fst snd] in Himg.
    destruct Himg as [Hs1 Hri].
    destruct (import_urls_stage db urls vs db1 Hsdu Hvs) as [Hs2 HF].
    destruct (store_all gen vs db1) as [ks db2]. simpl in *.
    split; [by transitivity db1|]. split; [|split].
    + unfold with_image_answer, answer_urls. simpl. rewrite Ha. done.
    + eapply restored_image_weaken; [exact Hs2 | exact Hli | exact Hri].
    + unfold answer_urls at 1. rewrite Ha. exact HF.
  - injection He as <-. cbn [with_image_answer q_imageUrl q_answer].
    cbv zeta in Himg. lazymatch type of Himg with context [snd ?M] => destruct M as [img' db1] end.
    cbn [fst snd] in *.
    destruct Himg as [Hs1 Hri]. split; [done|]. split; [|split; [done|]].
    + unfold with_image_answer. simpl. rewrite Ha. done.
    + unfold answer_urls. simpl. rewrite Ha. constructor.
  - injection He as <-. cbn [with_image_answer q_imageUrl q_answer].
    cbv zeta in Himg. lazymatch type of Himg with context [snd ?M] => destruct M as [img' db1] end.
    cbn [fst snd] in *.
    destruct Himg as [Hs1 Hri]. split; [done|]. split; [|split; [done|]].
    + unfold with_image_answer. simpl. rewrite Ha. done.
    + unfold answer_urls. simpl. rewrite Ha. constructor.
Qed.

Lemma export_import_all db qs es : forall db0,
  store_data_uris db -> (forall q k, In q qs -> In k (keys_of q) -> is_Some (getImage k db)) ->
  Forall2 (fun q e => export_question db q = Some e) qs es ->
  db0 ⊆ (processImportedQuestions gen es db0).2 /\
  Forall2 (restored db (processImportedQuestions gen es db0).2) qs (processImportedQuestions gen es db0).1.
Proof.
  intros db0 Hsdu Hl HF. revert db0. induction HF as [|q e qs es He _ IH]; intros db0; simpl; [done|].
  destruct (export_import_one db q e db0 Hsdu (fun k => Hl q k (or_introl eq_refl)) He) as [Hs1 Hr1].
  destruct (process_imported gen e db0) as [p db1]. simpl in *.
  destruct (IH (fun q k Hq => Hl q k (or_intror Hq)) db1) as [Hs2 Hr2].
  destruct (processImportedQuestions gen es db1) as [ps db2]. simpl in *.
  split; [by transitivity db1|]. constructor; [|done].
  eapply restored_weaken; [exact Hs2 | | exact Hr1]. intros k Hk. apply (Hl q k); [by left | done].
Qed.

End Restore.

(** A backup made with [handleExport] and restored with [handleOverwrite]
    gives back the exams, the tags and the questions in order, with every
    field but the images equal; every image comes back with the same
    content: a reference as a new reference to the same data URI, an inline
    data URI as a reference to it, any other url as is. This holds when
    every reference of the world is live and the Blob Store holds data URIs
    only, as it does in every world the operations reach. *)
Theorem export_overwrite_restores (gen : gset string -> string) (gen_fresh : forall X, gen X ∉ X)
    now (w : World) :
  store_data_uris (blobs w) -> refs_live w ->
  exists snapshot, export_snapshot w = Some snapshot /\
    exams (st (replaceData gen now w snapshot)) = exams (st w) /\
    tags (st (replaceData gen now w snapshot)) = tags (st w) /\
    Forall2 (restored (blobs w) (blobs (replaceData gen now w snapshot)))
            (questions (st w)) (questions (st (replaceData gen now w snapshot))).
Proof.
  intros Hsdu Hl.
  destruct (all_some_map_exists (export_question (blobs w)) (questions (st w))) as (es & Hes & HF).
  { intros q Hq. unfold export_question.
    destruct (q_answer q) as [[t [urls|]]|] eqn:Ha; [|eauto|eauto].
    destruct (all_some_map_exists (fun u => if isImageKey (Some u) then getImage u (blobs w) else Some u) urls)
      as (vs & Hvs & _).
    - intros u Hu. destruct (isImageKey (Some u)) eqn:Hr; [|eauto].
      apply (Hl q u Hq). apply keys_of_In. split; [|done]. right. unfold answer_urls. by rewrite Ha.
    - unfold export_urls. rewrite Hvs. eauto. }
  exists {| exams := exams (st w); questions := es; tags := tags (st w) |}.
  unfold export_snapshot. rewrite Hes. split; [done|].
  unfold replaceData.
  destruct (export_import_all gen gen_fresh (blobs w) (questions (st w)) es
              (delete_if_any (flat_map keys_of (questions (st w))) (blobs w)) Hsdu Hl HF) as [_ Hr].
  simpl in Hr |- *.
  destruct (processImportedQuestions gen es _) as [ps db2]. simpl in *. done.
Qed.

Lemma export_overwrite_restores_witness :
  exists snapshot,
    export_snapshot {| st := {| exams := []; tags := [];
                                questions := [sample_question "q1" "e1" (Some "idb://k1")
                                                (Some (mkAnswer None (Some ["data:image/png;base64,BB"]))) []] |};
                       blobs := <["k1" := "data:image/png;base64,AA"]> ∅ |} = Some snapshot.
Proof.
  destruct (export_overwrite_restores uuid_gen (fun X => is_fresh X) "now"
              {| st := {| exams := []; tags := [];
                          questions := [sample_question "q1" "e1" (Some "idb://k1")
                                          (Some (mkAnswer None (Some ["data:image/png;base64,BB"]))) []] |};
                 blobs := <["k1" := "data:image/png;base64,AA"]> ∅ |}) as (snap & H & _).
  - apply map_Forall_insert_2; [reflexivity | apply map_Forall_empty].
  - intros q k Hq Hk. simpl in Hq. destruct Hq as [<- | []].
    vm_compute in Hk. destruct Hk as [<- | []]. vm_compute. eexists. reflexivity.
  - exists snap. exact H.
Defined.

(** ** Image display and record creation *)

(** With a cache that agrees with the Blob Store, [useStoredImage] shows
    a non-reference url as is, and for a reference exactly the non-empty
    data URI the store holds, keeping the cache in agreement; storing a new
    image keeps the agreement. The cache is never invalidated: a cached
    reference is shown from the cache whatever the store holds, also after
    [deleteImages] removed its entry. *)
Theorem stored_image_src_spec (gen : gset string -> string) (gen_fresh : forall X, gen X ∉ X)
    (cache db : gmap string string) (keyOrUrl : option string) (u : string) :
  (cache_ok cache db ->
   cache_ok (stored_image_src cache db keyOrUrl).2 db /\
   (stored_image_src cache db keyOrUrl).1 =
     match keyOrUrl with
     | None => None
     | Some k =>
         if isImageKey (Some k) then
           match getImage k db with Some v => if String.eqb v "" then None else Some v | None => None end
         else if String.eqb k "" then None else Some k
     end) /\
  (cache_ok cache db -> cache_ok cache (storeImage gen u db).2) /\
  (forall k v db', cache !! k = Some v -> isImageKey (Some k) = true ->
     stored_image_src cache db' (Some k) = (Some v, cache)).
Proof.
  split; [|split].
  - intros Hc. destruct keyOrUrl as [k|]; simpl; [|done].
    destruct (String.eqb k "") eqn:Hk.
    + apply String.eqb_eq in Hk as ->. simpl. done.
    + destruct (String.prefix "idb://" k) eqn:Hr; simpl; [|done].
      destruct (cache !! k) as [v|] eqn:Hv.
      * simpl. split; [done|]. destruct (Hc k v Hv) as [-> Hne].
        apply String.eqb_neq in Hne. by rewrite Hne.
      * destruct (getImage k db) as [v|] eqn:Hg; simpl; [|done].
        destruct (String.eqb v "") eqn:Hv'; simpl; [done|]. split; [|done].
        intros k' v' Hk'. destruct (decide (k' = k)) as [->|Hne].
        -- rewrite lookup_insert_eq in Hk'. injection Hk' as <-. split; [done|].
           by apply String.eqb_neq.
        -- rewrite lookup_insert_ne in Hk' by congruence. by apply Hc.
  - intros Hc k v Hv. destruct (Hc k v Hv) as [Hg Hne]. split; [|done].
    unfold storeImage, getImage in *. simpl. rewrite lookup_insert_ne; [done|].
    intros Heq. apply (gen_fresh (dom db)). rewrite Heq. apply elem_of_dom. eauto.
  - intros k v db' Hv Hr. simpl. simpl in Hr.
    destruct (String.eqb k "") eqn:Hk.
    + apply String.eqb_eq in Hk as ->. discriminate.
    + rewrite Hr. simpl. by rewrite Hv.
Qed.

Lemma stored_image_src_spec_witness :
  stored_image_src (<["idb://k1" := "data:image/png;base64,AA"]> ∅) ∅ (Some "idb://k1")
  = (Some "data:image/png;base64,AA", <["idb://k1" := "data:image/png;base64,AA"]> ∅).
Proof.
  apply (proj2 (proj2 (stored_image_src_spec uuid_gen (fun X => is_fresh X)
            (<["idb://k1" := "data:image/png;base64,AA"]> ∅) ∅ None ""))).
  - by rewrite lookup_insert_eq.
  - reflexivity.
Defined.

Lemma process_new_all_length gen ds : forall db, List.length (process_new_all gen ds db).1 = List.length ds.
Proof.
  induction ds as [|d ds IH]; intros db; simpl; [done|].
  destruct (process_new gen d db) as [p db1]. specialize (IH db1).
  destruct (process_new_all gen ds db1) as [ps db2]. simpl in *. by rewrite IH.
Qed.

Lemma stamp_length gen now used ps : List.length (stamp gen now used ps) = List.length ps.
Proof. revert used. induction ps as [|p ps IH]; intros used; simpl; [done|]. by rewrite IH. Qed.

(** [addExam], [addTag] and [addQuestions] append their new records at the
    end, with ids not used by the records of their kind, so ids that were
    pairwise distinct stay so; [addQuestions] creates one question per
    element of its input. *)
Theorem creation_fresh_ids (gen : gset string -> string) (gen_fresh : forall X, gen X ∉ X) now
    (w : World) (examData : ExamData) (tagData : TagPatch) (questionsData : list QuestionData) :
  NoDup (map e_id (exams (st w))) -> NoDup (map t_id (tags (st w))) ->
  NoDup (map q_id (questions (st w))) ->
  (exists e, exams (st (addExam gen now w examData)) = (exams (st w) ++ [e])%list /\
             ~ In (e_id e) (map e_id (exams (st w))) /\
             NoDup (map e_id (exams (st (addExam gen now w examData)))) /\
             e_name e = ed_name examData /\ e_subject e = ed_subject examData /\
             e_examDate e = ed_examDate examData /\ e_createdAt e = now /\ e_updatedAt e = now) /\
  (exists t, tags (st (addTag gen now w tagData)) = (tags (st w) ++ [t])%list /\
             ~ In (t_id t) (map t_id (tags (st w))) /\
             NoDup (map t_id (tags (st (addTag gen now w tagData)))) /\
             t_name t = tp_name tagData /\ t_color t = tp_color tagData /\ t_examId t = tp_examId tagData) /\
  (questions (st (addQuestions gen now w questionsData).2) =
     (questions (st w) ++ (addQuestions gen now w questionsData).1)%list /\
   NoDup (map q_id (questions (st (addQuestions gen now w questionsData).2))) /\
   List.length (addQuestions gen now w questionsData).1 = List.length questionsData).
Proof.
  intros He Ht Hq. split; [|split].
  - eexists. split; [reflexivity|]. simpl.
    assert (~ In (gen (list_to_set (map e_id (exams (st w))))) (map e_id (exams (st w)))) as Hf.
    { intros Hin. apply (gen_fresh (list_to_set (map e_id (exams (st w))))).
      apply elem_of_list_to_set, list_elem_of_In, Hin. }
    split; [done|]. split; [|done]. rewrite map_app. by apply NoDup_snoc.
  - eexists. split; [reflexivity|]. simpl.
    assert (~ In (gen (list_to_set (map t_id (tags (st w))))) (map t_id (tags (st w)))) as Hf.
    { intros Hin. apply (gen_fresh (list_to_set (map t_id (tags (st w))))).
      apply elem_of_list_to_set, list_elem_of_In, Hin. }
    split; [done|]. split; [|done]. rewrite map_app. by apply NoDup_snoc.
  - unfold addQuestions. pose proof (process_new_all_length gen questionsData (blobs w)) as Hlen.
    destruct (process_new_all gen questionsData (blobs w)) as [ps db]. simpl in Hlen.
    destruct (stamp_ids gen gen_fresh now (list_to_set (map q_id (questions (st w)))) ps) as [Hnd Hfr].
    rewrite <- Hlen, <- (stamp_length gen now (list_to_set (map q_id (questions (st w))))).
    assert (NoDup (map q_id (questions (st w) ++ stamp gen now (list_to_set (map q_id (questions (st w)))) ps))) as Hall.
    { rewrite map_app. apply NoDup_app. split; [done|]. split; [|done].
      intros i Hi Hi'. apply Hfr in Hi'. apply Hi', elem_of_list_to_set, Hi. }
    destruct (stamp gen now _ ps) as [|n ns] eqn:Hs; simpl.
    + rewrite app_nil_r. done.
    + done.
Qed.

Lemma creation_fresh_ids_witness :
  NoDup (map q_id (questions (st (addQuestions uuid_gen "now"
           {| st := {| exams := []; tags := [];
                       questions := [sample_question "q1" "e1" None None []] |};
              blobs := ∅ |}
           [sample_data "e1" (Some "data:image/png;base64,AA")]).2))).
Proof.
  apply (proj2 (proj2 (proj2 (creation_fresh_ids uuid_gen (fun X => is_fresh X) "now"
           {| st := {| exams := []; tags := [];
                       questions := [sample_question "q1" "e1" None None []] |};
              blobs := ∅ |}
           (mkExamData "Final" None None) (mkTagPatch (Some "hard") None None)
           [sample_data "e1" (Some "data:image/png;base64,AA")]
           (NoDup_nil_2) (NoDup_nil_2) ltac:(simpl; repeat constructor; set_solver))))).
Defined.
